(** * CreditLinker: verification of the statement-import and extraction rules

    Shallow embedding of the transaction normalizer ([lib/parser/normalizer.ts]),
    of the SDK rules engine (ledger rules, validators, confidence scoring), of
    the recognizer fallback chain, of the sequence decoders and of the spatial
    ordering of detected regions, together with the properties established
    about them.

    Conventions.
    - Text is a list of Unicode code points ([text]); [utf8] decodes a string
      literal of this file into code points.
    - Python [float]/[Decimal] and JavaScript numbers are modelled by exact
      rationals ([Q]) or exact decimals; a raised exception or a [NaN] /
      [Invalid Date] result is [None].
    - A JavaScript [Date] is its time value in milliseconds, the local time
      zone being UTC. *)

From Stdlib Require Import ZArith QArith Qabs Qround Qminmax List Lia Bool Ascii String Permutation Sorted.
From Stdlib Require Import Reals Qreals Lra.
From stdpp Require Import base gmap sets list strings.

Local Open Scope Z_scope.

(** * Stable sorting and Python's negative slices *)

Module Sorting.

Section SortBy.
Context {A : Type}.
Variable leb : A -> A -> bool.

(** Insertion before the first element that is not smaller: equal elements
    keep their original order. *)
Fixpoint insert_by (x : A) (l : list A) : list A :=
  match l with
  | [] => [x]
  | y :: l' => if leb x y then x :: l else y :: insert_by x l'
  end.

(** Ascending stable sort (Python's [sorted]). *)
Fixpoint sort_by (l : list A) : list A :=
  match l with
  | [] => []
  | x :: l' => insert_by x (sort_by l')
  end.

(** Every element is below the elements after it. *)
Definition sorted_by (l : list A) : Prop :=
  StronglySorted (fun a b => leb a b = true) l.

End SortBy.

(** [l[-k:]]: the last [k] elements, the whole list when [k] is 0 or exceeds
    the length. *)
Definition py_last_k {A : Type} (k : nat) (l : list A) : list A :=
  match k with
  | O => l
  | _ => skipn (length l - k) l
  end.

(** [l[-1]]; [None] is the IndexError of an empty list. *)
Fixpoint py_last {A : Type} (l : list A) : option A :=
  match l with
  | [] => None
  | [x] => Some x
  | _ :: l' => py_last l'
  end.

End Sorting.

(** * Text as code points *)

Module Text.

Definition text := list N.

Local Open Scope N_scope.

(** Decoder of the UTF-8 bytes of a string literal (well-formed input; a
    truncated sequence ends the text). *)
Fixpoint utf8_decode (bs : list N) : text :=
  match bs with
  | [] => []
  | b0 :: r =>
      if b0 <? 128 then b0 :: utf8_decode r
      else if b0 <? 224 then
        match r with
        | b1 :: r1 => ((b0 - 192) * 64 + (b1 - 128)) :: utf8_decode r1
        | _ => []
        end
      else if b0 <? 240 then
        match r with
        | b1 :: b2 :: r2 =>
            ((b0 - 224) * 4096 + (b1 - 128) * 64 + (b2 - 128)) :: utf8_decode r2
        | _ => []
        end
      else
        match r with
        | b1 :: b2 :: b3 :: r3 =>
            ((b0 - 240) * 262144 + (b1 - 128) * 4096 + (b2 - 128) * 64 + (b3 - 128))
              :: utf8_decode r3
        | _ => []
        end
  end.

Definition utf8 (s : string) : text :=
  utf8_decode (map N_of_ascii (list_ascii_of_string s)).

Definition is_digit (c : N) : bool := (48 <=? c) && (c <=? 57).
Definition digit_value (c : N) : N := c - 48.

(** Value of a run of ASCII digits, most significant first. *)
Definition digits_value (ds : text) : N :=
  fold_left (fun acc c => 10 * acc + digit_value c) ds 0.

(** Longest prefix satisfying [p], and the rest. *)
Fixpoint span (p : N -> bool) (s : text) : text * text :=
  match s with
  | [] => ([], [])
  | c :: s' =>
      if p c then let '(a, b) := span p s' in (c :: a, b) else ([], s)
  end.

(** [pre] is a prefix of [s]. *)
Fixpoint starts_with (pre s : text) : bool :=
  match pre, s with
  | [], _ => true
  | _ :: _, [] => false
  | a :: pre', b :: s' => (a =? b) && starts_with pre' s'
  end.

Definition text_eqb (a b : text) : bool :=
  (length a =? length b)%nat && starts_with a b.

Definition ends_with (suf s : text) : bool :=
  starts_with (rev suf) (rev s).

(** [needle in s] for a non-empty needle. *)
Fixpoint contains (needle s : text) : bool :=
  match s with
  | [] => starts_with needle []
  | _ :: s' => starts_with needle s || contains needle s'
  end.

(** Replacement of every non-overlapping occurrence of a non-empty [old],
    scanning from the left. [skip] counts the characters of a match still to
    be passed over. *)
Fixpoint replace_from (old new : text) (skip : nat) (s : text) : text :=
  match s with
  | [] => []
  | c :: s' =>
      match skip with
      | S k => replace_from old new k s'
      | O =>
          if starts_with old s
          then new ++ replace_from old new (length old - 1) s'
          else c :: replace_from old new 0 s'
      end
  end.

Definition replace (old new s : text) : text := replace_from old new 0 s.

(** The text without the characters satisfying [p]. *)
Definition remove_if (p : N -> bool) (s : text) : text :=
  List.filter (fun c => negb (p c)) s.

Definition mem (c : N) (cs : text) : bool := existsb (N.eqb c) cs.

(** The text without its leading and trailing characters satisfying [ws]. *)
Definition strip_with (ws : N -> bool) (s : text) : text :=
  rev (snd (span ws (rev (snd (span ws s))))).

(** ASCII case mapping; the code points outside ASCII are left alone (none of
    them maps to an ASCII letter used by the parsers below). *)
Definition ascii_upper (c : N) : N :=
  if (97 <=? c) && (c <=? 122) then c - 32 else c.

Definition upper (s : text) : text := map ascii_upper s.

End Text.

(** * The JavaScript primitives used by the normalizer *)

Module JS.
Import Text.

(** A Number: exact rational value of a finite number, [NaN] or an infinity. *)
Inductive number :=
| NaN
| Num (q : Q)
| Inf (negative : bool).

Definition of_Z (z : Z) : number := Num (inject_Z z).

(** [a === b] on Numbers. *)
Definition strict_eq (a b : number) : bool :=
  match a, b with
  | Num x, Num y => Qeq_bool x y
  | Inf s, Inf t => Bool.eqb s t
  | _, _ => false
  end.

(** [a < b]. *)
Definition lt (a b : number) : bool :=
  match a, b with
  | NaN, _ | _, NaN => false
  | Num x, Num y => negb (Qle_bool y x)
  | Num _, Inf neg => negb neg
  | Inf neg, Num _ => neg
  | Inf s, Inf t => s && negb t
  end.

Definition gt (a b : number) : bool := lt b a.

(** [a + b] and [a - b]. *)
Definition add (a b : number) : number :=
  match a, b with
  | NaN, _ | _, NaN => NaN
  | Num x, Num y => Num (x + y)
  | Num _, Inf t => Inf t
  | Inf s, Num _ => Inf s
  | Inf s, Inf t => if Bool.eqb s t then Inf s else NaN
  end.

Definition neg (a : number) : number :=
  match a with
  | NaN => NaN
  | Num x => Num (- x)
  | Inf s => Inf (negb s)
  end.

Definition sub (a b : number) : number := add a (neg b).

(** [Math.abs]. *)
Definition abs (a : number) : number :=
  match a with
  | NaN => NaN
  | Num x => Num (Qabs x)
  | Inf _ => Inf false
  end.

Definition isNaN (a : number) : bool :=
  match a with NaN => true | _ => false end.

(** WhiteSpace and LineTerminator code points: what [trim] strips and what
    the class [\s] matches. *)
Definition is_space (c : N) : bool :=
  (((9 <=? c) && (c <=? 13)) || (c =? 32) || (c =? 160) || (c =? 5760)
   || ((8192 <=? c) && (c <=? 8202))
   || (c =? 8232) || (c =? 8233) || (c =? 8239) || (c =? 8287) || (c =? 12288)
   || (c =? 65279))%N.

Definition trim : text -> text := strip_with is_space.
Definition trimStart (s : text) : text := snd (span is_space s).

(** [s.split(/[...]/)] for a class of single separator characters. *)
Fixpoint split_on (sep : N -> bool) (s : text) : list text :=
  match s with
  | [] => [[]]
  | c :: s' =>
      if sep c then [] :: split_on sep s'
      else match split_on sep s' with
           | p :: ps => (c :: p) :: ps
           | [] => [[c]]
           end
  end.

(** [s.slice(1, -1)]. *)
Definition slice_1_m1 (s : text) : text := removelast (tl s).

(** Value [m * 10^e] of a decimal literal. *)
Definition scale10 (m : Z) (e : Z) : Q :=
  if (0 <=? e)%Z then inject_Z (m * 10 ^ e) else Qmake m (Z.to_pos (10 ^ (- e))).

Definition sign_of (s : text) : bool * text :=
  match s with
  | 45%N :: r => (true, r)
  | 43%N :: r => (false, r)
  | _ => (false, s)
  end.

(** Exponent part [e[+-]digits] at the head of [s], if any: its value and the
    text after it. *)
Definition exponent_part (s : text) : Z * text :=
  match s with
  | e :: r =>
      if ((e =? 101) || (e =? 69))%N then
        let '(neg, r1) := sign_of r in
        let '(ds, r2) := span is_digit r1 in
        match ds with
        | [] => (0, s)
        | _ => let v := Z.of_N (digits_value ds) in ((if neg then - v else v), r2)
        end
      else (0, s)
  | [] => (0, s)
  end.

(** Longest prefix of [s] that is a StrDecimalLiteral: its value and the text
    that follows, or [None] when no prefix is one. *)
Definition decimal_prefix (s : text) : option (number * text) :=
  let '(neg, body) := sign_of s in
  if starts_with (utf8 "Infinity") body then Some (Inf neg, skipn 8 body)
  else
    let '(int_part, r1) := span is_digit body in
    let '(frac_part, r2, dotted) :=
      match r1 with
      | 46%N :: r =>
          let '(f, r') := span is_digit r in
          match int_part, f with
          | [], [] => ([], r1, false)
          | _, _ => (f, r', true)
          end
      | _ => ([], r1, false)
      end in
    match int_part ++ frac_part with
    | [] => None
    | digits =>
        let '(e, r3) := exponent_part r2 in
        let m := Z.of_N (digits_value digits) in
        Some (Num (scale10 (if neg then - m else m) (e - Z.of_nat (length frac_part))), r3)
    end.

(** [parseFloat]. *)
Definition parseFloat (s : text) : number :=
  match decimal_prefix (trimStart s) with
  | Some (v, _) => v
  | None => NaN
  end.

Definition radix_digit (radix : N) (c : N) : option N :=
  let v := if is_digit c then Some (c - 48)%N
           else if ((97 <=? c) && (c <=? 102))%N then Some (c - 87)%N
           else if ((65 <=? c) && (c <=? 70))%N then Some (c - 55)%N
           else None in
  match v with
  | Some d => if (d <? radix)%N then Some d else None
  | None => None
  end.

Fixpoint radix_value (radix : N) (acc : N) (s : text) : option N :=
  match s with
  | [] => Some acc
  | c :: s' =>
      match radix_digit radix c with
      | Some d => radix_value radix (radix * acc + d)%N s'
      | None => None
      end
  end.

(** Radix announced by a [0x], [0o] or [0b] prefix, with the digits after it. *)
Definition radix_prefix (s : text) : option (N * text) :=
  match s with
  | 48%N :: p :: ds =>
      if ((p =? 120) || (p =? 88))%N then Some (16%N, ds)
      else if ((p =? 111) || (p =? 79))%N then Some (8%N, ds)
      else if ((p =? 98) || (p =? 66))%N then Some (2%N, ds)
      else None
  | _ => None
  end.

(** [Number(s)]: the whole trimmed text must be a numeric literal; the empty
    text is 0. *)
Definition Number (s : text) : number :=
  let t := trim s in
  match t with
  | [] => of_Z 0
  | _ =>
      match radix_prefix t with
      | Some (r, d :: ds) =>
          match radix_value r 0 (d :: ds) with
          | Some v => of_Z (Z.of_N v)
          | None => NaN
          end
      | _ =>
          match decimal_prefix t with
          | Some (v, []) => v
          | _ => NaN
          end
      end
  end.

(** ** Dates *)

(** Day number (days since 1970-01-01) of a proleptic Gregorian date, month
    in 1..12. *)
Definition days_from_civil (y m d : Z) : Z :=
  let y' := if m <=? 2 then y - 1 else y in
  let era := y' / 400 in
  let yoe := y' - era * 400 in
  let doy := (153 * (if 2 <? m then m - 3 else m + 9) + 2) / 5 + d - 1 in
  let doe := yoe * 365 + yoe / 4 - yoe / 100 + doy in
  era * 146097 + doe - 719468.

(** Year, month (1..12) and day of month of a day number. *)
Definition civil_from_days (z : Z) : Z * Z * Z :=
  let z' := z + 719468 in
  let era := z' / 146097 in
  let doe := z' - era * 146097 in
  let yoe := (doe - doe / 1460 + doe / 36524 - doe / 146096) / 365 in
  let doy := doe - (365 * yoe + yoe / 4 - yoe / 100) in
  let mp := (5 * doy + 2) / 153 in
  let d := doy - (153 * mp + 2) / 5 + 1 in
  let m := if mp <? 10 then mp + 3 else mp - 9 in
  let y := yoe + era * 400 in
  ((if m <=? 2 then y + 1 else y), m, d).

Definition msPerDay : Z := 86400000.

(** ToIntegerOrInfinity on a finite value: truncation towards zero. *)
Definition truncate (q : Q) : Z :=
  if Qle_bool 0 q then Qfloor q else Qceiling q.

(** A Date object: its time value, [None] for an Invalid Date. *)
Definition Date := option Z.

(** [new Date(year, monthIndex, day)] (MakeFullYear, MakeDay, MakeDate and
    TimeClip, the time of day being 0). *)
Definition Date_ymd (year monthIndex day : number) : Date :=
  match year, monthIndex, day with
  | Num y, Num m, Num dt =>
      let y := truncate y in
      let yr := if (0 <=? y) && (y <=? 99) then 1900 + y else y in
      let m := truncate m in
      let dt := truncate dt in
      let ym := yr + m / 12 in
      let mn := m mod 12 in
      let tv := (days_from_civil ym (mn + 1) 1 + dt - 1) * msPerDay in
      if Z.abs tv <=? 8640000000000000 then Some tv else None
  | _, _, _ => None
  end.

(** [date.getTime()]. *)
Definition getTime (d : Date) : number :=
  match d with
  | Some tv => of_Z tv
  | None => NaN
  end.

(** [date.getDate()]: the day of the month. *)
Definition getDate (d : Date) : number :=
  match d with
  | Some tv => of_Z (snd (civil_from_days (tv / msPerDay)))
  | None => NaN
  end.

(** The time value of midnight of a calendar date. *)
Definition date_value (y m d : Z) : Z := days_from_civil y m d * msPerDay.

End JS.

(** * The transaction normalizer (lib/parser/normalizer.ts) *)

Module Normalizer.
Import Text JS.

Inductive TransactionType := DEBIT | CREDIT.

Record NormalizedTransaction := {
  date : Z;
  description : string;
  amount : Q;
  type : TransactionType;
  balance : option Q;
  hash : string
}.

(** [parseDate] once the text is split in three parts and the parts are
    converted: the expansion of a two-digit year and the two readings. *)
Definition parseDate_numbers (first second third : number) : Date :=
  let year :=
    if lt third (of_Z 100)
    then (if gt third (of_Z 50) then add (of_Z 1900) third else add (of_Z 2000) third)
    else third in
  (* Try DD/MM/YYYY *)
  let date := Date_ymd year (sub second (of_Z 1)) first in
  if negb (isNaN (getTime date)) && strict_eq (getDate date) first then date
  else
    (* Try MM/DD/YYYY *)
    let date := Date_ymd year (sub first (of_Z 1)) second in
    if negb (isNaN (getTime date)) && strict_eq (getDate date) second then date
    else None.

(** The second half of [parseDate]: the text split on [/], [-] or [.]. *)
Definition parseDate_parts (cleaned : text) : Date :=
  let parts := split_on (fun c => mem c (utf8 "/-.")) cleaned in
  match map Number parts with
  | [first; second; third] => parseDate_numbers first second third
  | _ => None
  end.

Section ParseDate.

(** [new Date(string)]: the outcome of parsing free-form text is left to the
    host by the language definition, so the host's parser is a parameter. *)
Variable Date_of_string : text -> Date.

Definition parseDate (dateStr : text) : Date :=
  let cleaned := trim dateStr in
  let date := Date_of_string cleaned in
  if negb (isNaN (getTime date)) then date
  else parseDate_parts cleaned.

End ParseDate.

(** [parseAmount]. *)
Definition parseAmount (amountStr : text) : number :=
  let cleaned := trim amountStr in
  (* Remove currency symbols *)
  let cleaned := remove_if (fun c => mem c (utf8 "$€£¥₹")) cleaned in
  (* Handle parentheses *)
  let isNegative := starts_with (utf8 "(") cleaned && ends_with (utf8 ")") cleaned in
  let cleaned := if isNegative then slice_1_m1 cleaned else cleaned in
  (* Remove CR/DR suffixes: /\s*(CR|DR)$/i *)
  let cleaned :=
    if ends_with (utf8 "CR") (upper cleaned) || ends_with (utf8 "DR") (upper cleaned)
    then rev (snd (span is_space (skipn 2 (rev cleaned))))
    else cleaned in
  (* Remove thousand separators *)
  let cleaned := remove_if (N.eqb 44) cleaned in
  (* Remove whitespace *)
  let cleaned := remove_if is_space cleaned in
  let value := parseFloat cleaned in
  if isNegative then neg (abs value) else value.

(** The three locals of [deduplicateTransactions]: the [Set] of hashes seen so
    far, the array being built and the counter. *)
Record dedup_state := {
  seen : gset string;
  unique : list NormalizedTransaction;
  duplicates : nat
}.

(** One iteration of [for (const transaction of transactions)]. *)
Definition dedup_step (st : dedup_state) (transaction : NormalizedTransaction) : dedup_state :=
  if negb (bool_decide (hash transaction ∈ seen st)) then
    {| seen := {[hash transaction]} ∪ seen st;
       unique := unique st ++ [transaction];
       duplicates := duplicates st |}
  else
    {| seen := seen st; unique := unique st; duplicates := S (duplicates st) |}.

Definition deduplicateTransactions (transactions : list NormalizedTransaction)
  : list NormalizedTransaction * nat :=
  let st := fold_left dedup_step transactions
              {| seen := ∅; unique := []; duplicates := 0 |} in
  (unique st, duplicates st).

(** The hashes carried by a list of transactions. *)
Definition hashes (l : list NormalizedTransaction) : gset string :=
  list_to_set (hash <$> l).

(** Reference reading of "the first occurrence of each distinct hash": the
    element at index [i] is kept exactly when no element at a smaller index
    carries the same hash. *)
Definition first_occurrence_b (whole : list NormalizedTransaction) (i : nat)
    (t : NormalizedTransaction) : bool :=
  forallb (fun t' => negb (String.eqb (hash t') (hash t))) (take i whole).

Fixpoint first_occurrences_from (whole : list NormalizedTransaction) (i : nat)
    (rest : list NormalizedTransaction) : list NormalizedTransaction :=
  match rest with
  | [] => []
  | t :: rest' =>
      (if first_occurrence_b whole i t then [t] else [])
        ++ first_occurrences_from whole (S i) rest'
  end.

Definition first_occurrences (l : list NormalizedTransaction) : list NormalizedTransaction :=
  first_occurrences_from l 0 l.

End Normalizer.

(** ** Reference notions for the date parser *)

Module DateFormats.
Import Text JS.

Definition is_leap_year (y : Z) : bool :=
  (y mod 4 =? 0) && (negb (y mod 100 =? 0) || (y mod 400 =? 0)).

Definition days_in_month (y m : Z) : Z :=
  if m =? 2 then (if is_leap_year y then 29 else 28)
  else if (m =? 4) || (m =? 6) || (m =? 9) || (m =? 11) then 30
  else 31.

(** The two decimal digits of a number below 100. *)
Definition two_digits (n : Z) : text :=
  [Z.to_N (48 + n / 10); Z.to_N (48 + n mod 10)].

(** The text [DD<sep>MM<sep>YY]. *)
Definition dmy_text (sep : N) (dd mm yy : Z) : text :=
  two_digits dd ++ [sep] ++ two_digits mm ++ [sep] ++ two_digits yy.

(** The expansion of a two-digit year performed by [parseDate]:
    [third > 50 ? 1900 + third : 2000 + third]. *)
Definition expand_year (yy : Z) : Z :=
  if 50 <? yy then 1900 + yy else 2000 + yy.

(** A host whose [Date] constructor accepts exactly the calendar-date form
    [YYYY-MM-DD] that the language definition requires (read as midnight UTC)
    and rejects every other text. *)
Definition iso_date_host (s : text) : Date :=
  match split_on (N.eqb 45) s with
  | [y; m; d] =>
      if forallb is_digit (y ++ m ++ d)
         && (length y =? 4)%nat && (length m =? 2)%nat && (length d =? 2)%nat
      then
        let yv := Z.of_N (digits_value y) in
        let mv := Z.of_N (digits_value m) in
        let dv := Z.of_N (digits_value d) in
        if (1 <=? mv) && (mv <=? 12) && (1 <=? dv) && (dv <=? days_in_month yv mv)
        then Some (date_value yv mv dv) else None
      else None
  | _ => None
  end.

Definition Date_eqb (a b : Date) : bool :=
  match a, b with
  | Some x, Some y => x =? y
  | None, None => true
  | _, _ => false
  end.

Definition Z_range (lo n : nat) : list Z := map Z.of_nat (seq lo n).

(** The separators of [parseDate]: the class [[\/\-\.]]. *)
Definition separator (c : N) : bool := mem c (utf8 "/-.").

(** Structural equality of Numbers. *)
Definition number_same (a b : number) : bool :=
  match a, b with
  | NaN, NaN => true
  | Num p, Num q => (Qnum p =? Qnum q) && (Qden p =? Qden q)%positive
  | Inf s, Inf t => Bool.eqb s t
  | _, _ => false
  end.

(** A two-digit text holds no separator and no space, and [Number] reads the
    value back. *)
Definition two_digits_okb (n : Z) : bool :=
  forallb (fun c => negb (separator c)) (two_digits n)
  && forallb (fun c => negb (is_space c)) (two_digits n)
  && number_same (Number (two_digits n)) (of_Z n).

(** For a day that exists in its month, the day number of the date is within
    the range of time values and leads back to the day of the month. *)
Definition calendar_okb (yy mm dd : Z) : bool :=
  negb (dd <=? days_in_month (expand_year yy) mm)
  || ((snd (civil_from_days (days_from_civil (expand_year yy) mm dd)) =? dd)
      && (Z.abs (days_from_civil (expand_year yy) mm dd * msPerDay)
          <=? 8640000000000000)).

End DateFormats.
(** * JavaScript strings and number formatting *)

Module JSString.
Import Text JS.

Local Open Scope N_scope.

Definition is_ascii (c : N) : bool := c <? 128.

Definition ascii_lower (c : N) : N :=
  if (65 <=? c) && (c <=? 90) then c + 32 else c.

Section CaseConversion.

(** The case conversions of a text with code points outside ASCII follow the
    Unicode tables of the host, which are parameters; on an ASCII text they
    are the ASCII conversions. *)
Variable host_toLowerCase host_toUpperCase : text -> text.

Definition toLowerCase (s : text) : text :=
  if forallb is_ascii s then map ascii_lower s else host_toLowerCase s.

Definition toUpperCase (s : text) : text :=
  if forallb is_ascii s then map ascii_upper s else host_toUpperCase s.

End CaseConversion.

(** [s.includes(needle)] for a non-empty needle. *)
Definition includes (s needle : text) : bool := contains needle s.

(** [s.replace(/\s+/g, ' ')]: every maximal run of white space becomes one
    space; [in_run] tells that the previous character was white space. *)
Fixpoint collapse_from (in_run : bool) (s : text) : text :=
  match s with
  | [] => []
  | c :: s' =>
      if is_space c then
        (if in_run then collapse_from true s' else 32 :: collapse_from true s')
      else c :: collapse_from false s'
  end.

Definition collapse_spaces (s : text) : text := collapse_from false s.

(** The UTF-16 code units of a text: what [length] counts and [charCodeAt]
    reads. *)
Definition utf16_units (s : text) : list N :=
  flat_map (fun c => if c <? 65536 then [c]
                     else [55296 + (c - 65536) / 1024; 56320 + (c - 65536) mod 1024]) s.

(** The decimal digits of [n], most significant first, [fuel] bounding their
    number. *)
Fixpoint decimal_from (fuel : nat) (n : N) (acc : text) : text :=
  match fuel with
  | O => acc
  | S k =>
      let acc' := (48 + n mod 10) :: acc in
      if n / 10 =? 0 then acc' else decimal_from k (n / 10) acc'
  end.

Definition decimal (n : N) : text := decimal_from (S (N.to_nat (N.log2 n))) n [].

(** The decimal digits of [n], padded with zeros on the left to [width]. *)
Definition pad_start (width : nat) (n : N) : text :=
  let ds := decimal n in
  repeat 48 (width - length ds) ++ ds.

(** The digits of the radixes up to 36: [0-9a-z]. *)
Definition digit_char (d : N) : ascii :=
  if d <? 10 then ascii_of_N (48 + d) else ascii_of_N (87 + d).

Fixpoint toString_radix_from (fuel : nat) (radix n : N) (acc : string) : string :=
  match fuel with
  | O => acc
  | S k =>
      let acc' := String (digit_char (n mod radix)) acc in
      if n / radix =? 0 then acc' else toString_radix_from k radix (n / radix) acc'
  end.

(** [n.toString(radix)] for a non-negative integer [n] and a radix from 2 to
    36. *)
Definition toString_radix (radix n : N) : string :=
  toString_radix_from (S (N.to_nat (N.log2 n))) radix n EmptyString.

(** ** Dates *)

(** The year of [toISOString]: four digits from 0 to 9999, otherwise a sign
    and six digits. *)
Definition iso_year (y : Z) : text :=
  if ((0 <=? y) && (y <=? 9999))%Z then pad_start 4 (Z.to_N y)
  else (if (y <? 0)%Z then 45 else 43) :: pad_start 6 (Z.to_N (Z.abs y)).

(** [date.toISOString()], in UTC; [None] is the RangeError of an Invalid
    Date. *)
Definition toISOString (d : Date) : option text :=
  match d with
  | None => None
  | Some tv =>
      let '(y, m, dt) := civil_from_days (tv / msPerDay)%Z in
      let ms := (tv mod msPerDay)%Z in
      Some (iso_year y ++ [45] ++ pad_start 2 (Z.to_N m) ++ [45] ++ pad_start 2 (Z.to_N dt)
            ++ [84] ++ pad_start 2 (Z.to_N (ms / 3600000))
            ++ [58] ++ pad_start 2 (Z.to_N ((ms / 60000) mod 60))
            ++ [58] ++ pad_start 2 (Z.to_N ((ms / 1000) mod 60))
            ++ [46] ++ pad_start 3 (Z.to_N (ms mod 1000)) ++ [90])
  end.

(** ** Numbers *)

Section NumberToString.

(** [Number::toString] of a finite value of magnitude [10^21] or more (the
    shortest digits that round to the double) is left to the host. *)
Variable Number_toString_large : Q -> text.

(** [x.toFixed(fractionDigits)] for [fractionDigits] from 0 to 100. *)
Definition toFixed (fractionDigits : nat) (x : number) : text :=
  match x with
  | NaN => utf8 "NaN"
  | Inf false => utf8 "Infinity"
  | Inf true => utf8 "-Infinity"
  | Num q =>
      let s := if Qle_bool 0 q then [] else [45] in
      let x := Qabs q in
      let m :=
        if Qle_bool (inject_Z (10 ^ 21)) x then Number_toString_large x
        else
          let f := fractionDigits in
          (* the integer n with n / 10^f closest to x, the larger of two *)
          let n := Z.to_N (Qfloor (x * inject_Z (10 ^ Z.of_nat f) + (1 # 2))) in
          let m := decimal n in
          match f with
          | O => m
          | _ =>
              let m := repeat 48 (S f - length m) ++ m in
              let k := length m in
              firstn (k - f) m ++ [46] ++ skipn (k - f) m
          end in
      s ++ m
  end.

End NumberToString.

(** ** Values and exceptions *)

(** The outcome of a call: a value, or an [Error] thrown with a message. *)
Inductive result (A : Type) :=
| Ok (value : A)
| Throw (message : text).
Arguments Ok {A} value.
Arguments Throw {A} message.

(** Truthiness of a property holding a string: [undefined] and the empty
    string are falsy. *)
Definition truthy (v : option text) : bool :=
  match v with
  | Some (_ :: _) => true
  | _ => false
  end.

(** [String(v)]. *)
Definition String_of (v : option text) : text :=
  match v with
  | Some s => s
  | None => utf8 "undefined"
  end.

(** The double quote. *)
Definition quote : text := [34].

(** ** 32-bit integers *)

(** ToInt32 of an integer. *)
Definition to_int32 (z : Z) : Z := ((z + 2 ^ 31) mod 2 ^ 32 - 2 ^ 31)%Z.

End JSString.
(** * The CSV parser (lib/parser/csv-parser.ts) *)

Module CsvParser.
Import Text JS JSString.

Record RawTransaction := {
  date : text;
  description : text;
  amount : text;
  type : option text;
  balance : option text
}.

Record ParseResult := {
  success : bool;
  transactions : list RawTransaction;
  errors : list text;
  rowCount : nat
}.

Section Headers.

Variable host_toLowerCase : text -> text.

(** [normalizeHeaderName]. *)
Definition normalizeHeaderName (header : text) : text :=
  let normalized := trim (toLowerCase host_toLowerCase header) in
  (* Date fields *)
  if includes normalized (utf8 "date")
     || includes normalized (utf8 "trans date")
     || includes normalized (utf8 "posting date")
  then utf8 "date"
  (* Description fields *)
  else if includes normalized (utf8 "description")
          || includes normalized (utf8 "memo")
          || includes normalized (utf8 "details")
          || includes normalized (utf8 "narration")
  then utf8 "description"
  (* Amount fields *)
  else if includes normalized (utf8 "amount")
          || includes normalized (utf8 "value")
          || text_eqb normalized (utf8 "debit")
          || text_eqb normalized (utf8 "credit")
  then (if includes normalized (utf8 "debit") then utf8 "debit"
        else if includes normalized (utf8 "credit") then utf8 "credit"
        else utf8 "amount")
  (* Balance fields *)
  else if includes normalized (utf8 "balance")
          || includes normalized (utf8 "running balance")
  then utf8 "balance"
  (* Type fields *)
  else if includes normalized (utf8 "type")
          || includes normalized (utf8 "transaction type")
  then utf8 "type"
  else header.

End Headers.

(** A parsed row: the object that maps the header names to the cells, which
    are strings. *)
Definition Row := gmap text text.

(** [a || b] on optional strings. *)
Definition or_else (a b : option text) : option text :=
  if truthy a then a else b.

(** [extractTransactionFromRow]; [Ok None] is the [null] of a skipped row. *)
Definition extractTransactionFromRow (row : Row) (rowNumber : nat)
  : result (option RawTransaction) :=
  let row_date := row !! utf8 "date" in
  let row_description := row !! utf8 "description" in
  let row_amount := row !! utf8 "amount" in
  let row_debit := row !! utf8 "debit" in
  let row_credit := row !! utf8 "credit" in
  let row_balance := row !! utf8 "balance" in
  let row_type := row !! utf8 "type" in
  if negb (truthy row_date) && negb (truthy row_description) then Ok None
  else if negb (truthy row_date) then Throw (utf8 "Missing date field")
  else if negb (truthy row_description) then Throw (utf8 "Missing description field")
  else
    let amount_and_type : result (text * option text) :=
      if truthy row_amount then
        (* Single amount column *)
        let amount := trim (String_of row_amount) in
        Ok (amount, Some (if starts_with (utf8 "-") amount
                          then utf8 "DEBIT" else utf8 "CREDIT"))
      else if truthy row_debit || truthy row_credit then
        (* Separate debit/credit columns *)
        if truthy row_debit
           && negb (text_eqb (String_of row_debit) (utf8 "0"))
           && negb (text_eqb (String_of row_debit) [])
        then Ok (trim (String_of row_debit), Some (utf8 "DEBIT"))
        else if truthy row_credit
                && negb (text_eqb (String_of row_credit) (utf8 "0"))
                && negb (text_eqb (String_of row_credit) [])
        then Ok (trim (String_of row_credit), Some (utf8 "CREDIT"))
        else Throw (utf8 "Both debit and credit are empty or zero")
      else
        Throw (utf8 "Missing amount field (expected " ++ quote ++ utf8 "amount" ++ quote
               ++ utf8 ", " ++ quote ++ utf8 "debit" ++ quote ++ utf8 ", or "
               ++ quote ++ utf8 "credit" ++ quote ++ utf8 ")") in
    match amount_and_type with
    | Throw message => Throw message
    | Ok (amount, type) =>
        Ok (Some {| date := trim (String_of row_date);
                    description := trim (String_of row_description);
                    amount := amount;
                    type := or_else type row_type;
                    balance := if truthy row_balance
                               then Some (trim (String_of row_balance)) else None |})
    end.

End CsvParser.
(** * The normalization of raw rows (lib/parser/normalizer.ts) *)

Module Normalization.
Import Text JS JSString.

(** The interface [NormalizedTransaction] with the values the normalizer
    really stores: the amount and the balance are Numbers, which can be
    infinite or [NaN]; the date is the time value of a valid Date. *)
Record NormalizedTransaction := {
  date : Z;
  description : text;
  amount : number;
  type : Normalizer.TransactionType;
  balance : option number;
  hash : string
}.

(** One round of the loop of [generateHash]:
    [hash = (hash << 5) - hash + char; hash = hash & hash]. *)
Definition hash_step (hash : Z) (char : N) : Z :=
  to_int32 (to_int32 (hash * 32) - hash + Z.of_N char).

(** The loop of [generateHash] over the code units of [combined]. *)
Definition hash_loop (combined : text) : Z :=
  fold_left hash_step (utf16_units combined) 0%Z.

Section Normalize.

Variable Date_of_string : text -> Date.
Variable host_toLowerCase host_toUpperCase : text -> text.
Variable Number_toString_large : Q -> text.

(** The text hashed by [generateHash]. *)
Definition combined_text (iso : text) (description : text) (amount : number) : text :=
  let dateStr := hd [] (split_on (N.eqb 84) iso) in
  let cleanDesc := trim (collapse_spaces (toLowerCase host_toLowerCase description)) in
  let amountStr := toFixed Number_toString_large 2 amount in
  dateStr ++ utf8 "|" ++ cleanDesc ++ utf8 "|" ++ amountStr.

(** [generateHash]; [None] is the RangeError of [toISOString] on an Invalid
    Date. *)
Definition generateHash (date : Date) (description : text) (amount : number)
  : option string :=
  match toISOString date with
  | None => None
  | Some iso =>
      let combined := combined_text iso description amount in
      let hash := hash_loop combined in
      Some (toString_radix 36 (Z.to_N (Z.abs hash)))
  end.

(** [determineTransactionType]. *)
Definition determineTransactionType (amountStr : text) (explicitType : option text)
  : Normalizer.TransactionType :=
  let from_amount :=
    if lt (Normalizer.parseAmount amountStr) (of_Z 0)
    then Normalizer.DEBIT else Normalizer.CREDIT in
  if truthy explicitType then
    let normalized := trim (toUpperCase host_toUpperCase (String_of explicitType)) in
    if text_eqb normalized (utf8 "DEBIT") || text_eqb normalized (utf8 "DR")
       || text_eqb normalized (utf8 "WITHDRAWAL")
    then Normalizer.DEBIT
    else if text_eqb normalized (utf8 "CREDIT") || text_eqb normalized (utf8 "CR")
            || text_eqb normalized (utf8 "DEPOSIT")
    then Normalizer.CREDIT
    else from_amount
  else from_amount.

(** [normalizeTransaction]. *)
Definition normalizeTransaction (raw : CsvParser.RawTransaction)
  : result NormalizedTransaction :=
  (* Parse and validate date *)
  let date := Normalizer.parseDate Date_of_string (CsvParser.date raw) in
  match date with
  | None =>
      Throw (utf8 "Invalid date format: " ++ quote ++ CsvParser.date raw ++ quote)
  | Some time_value =>
      (* Clean description *)
      let description := trim (CsvParser.description raw) in
      match description with
      | [] => Throw (utf8 "Description cannot be empty")
      | _ =>
          (* Parse amount *)
          let amount := Normalizer.parseAmount (CsvParser.amount raw) in
          if isNaN amount || strict_eq amount (of_Z 0) then
            Throw (utf8 "Invalid amount: " ++ quote ++ CsvParser.amount raw ++ quote)
          else
            let type := determineTransactionType (CsvParser.amount raw)
                                                 (CsvParser.type raw) in
            let balance :=
              if truthy (CsvParser.balance raw)
              then Some (Normalizer.parseAmount (String_of (CsvParser.balance raw)))
              else None in
            match generateHash date description amount with
            | None => Throw (utf8 "Invalid time value")
            | Some hash =>
                Ok {| date := time_value;
                      description := description;
                      amount := abs amount;
                      type := type;
                      balance := balance;
                      hash := hash |}
            end
      end
  end.

(** The two arrays of [normalizeTransactions]. *)
Record normalized_rows := {
  normalized : list NormalizedTransaction;
  errors : list text
}.

(** One round of [for (let i = 0; i < rawTransactions.length; i++)]. *)
Definition normalize_step (acc : normalized_rows) (i : nat)
    (raw : CsvParser.RawTransaction) : normalized_rows :=
  match normalizeTransaction raw with
  | Ok transaction =>
      {| normalized := normalized acc ++ [transaction]; errors := errors acc |}
  | Throw message =>
      {| normalized := normalized acc;
         errors := errors acc
                   ++ [utf8 "Transaction " ++ decimal (N.of_nat (i + 1))
                       ++ utf8 ": " ++ message] |}
  end.

Fixpoint normalize_loop (acc : normalized_rows) (i : nat)
    (rest : list CsvParser.RawTransaction) : normalized_rows :=
  match rest with
  | [] => acc
  | raw :: rest' => normalize_loop (normalize_step acc i raw) (S i) rest'
  end.

(** [normalizeTransactions]. *)
Definition normalizeTransactions (rawTransactions : list CsvParser.RawTransaction)
  : normalized_rows :=
  normalize_loop {| normalized := []; errors := [] |} 0 rawTransactions.

End Normalize.

(** The locals of [deduplicateTransactions] on the full record. *)
Record dedup_state := {
  seen : gset string;
  unique : list NormalizedTransaction;
  duplicates : nat
}.

Definition dedup_step (st : dedup_state) (transaction : NormalizedTransaction)
  : dedup_state :=
  if negb (bool_decide (hash transaction ∈ seen st)) then
    {| seen := {[hash transaction]} ∪ seen st;
       unique := unique st ++ [transaction];
       duplicates := duplicates st |}
  else
    {| seen := seen st; unique := unique st; duplicates := S (duplicates st) |}.

(** [deduplicateTransactions], the loop of [Normalizer.deduplicateTransactions]
    on the full record. *)
Definition deduplicateTransactions (transactions : list NormalizedTransaction)
  : list NormalizedTransaction * nat :=
  let st := fold_left dedup_step transactions
              {| seen := ∅; unique := []; duplicates := 0 |} in
  (unique st, duplicates st).

End Normalization.
(** ** Reference notions for the hash *)

Module HashReference.
Import Text JS JSString.

(** The polynomial in 31 of a list of code units, by Horner's rule. *)
Definition polynomial31 (units : list N) : Z :=
  fold_left (fun acc c => 31 * acc + Z.of_N c)%Z units 0%Z.

(** The value of a digit [0-9a-z]. *)
Definition digit_of_char (c : ascii) : N :=
  let n := N_of_ascii c in
  (if n <? 58 then n - 48 else n - 87)%N.

(** The number written by a string of digits in a radix. *)
Fixpoint radix_number (radix : N) (acc : N) (s : string) : N :=
  match s with
  | EmptyString => acc
  | String c s' => radix_number radix (radix * acc + digit_of_char c)%N s'
  end.

(** A digit of radix 36: [0-9] or [a-z]. *)
Definition is_digit36 (c : ascii) : bool :=
  let n := N_of_ascii c in
  (((48 <=? n) && (n <=? 57)) || ((97 <=? n) && (n <=? 122)))%N.

Fixpoint string_forallb (p : ascii -> bool) (s : string) : bool :=
  match s with
  | EmptyString => true
  | String c s' => p c && string_forallb p s'
  end.

(** An ASCII character that the cleaning of a description leaves alone:
    neither white space nor an upper-case letter. *)
Definition plain_char (c : N) : bool :=
  is_ascii c && negb (is_space c) && (ascii_lower c =? c)%N.

(** White space occurs as single spaces only; [after_space] tells that the
    character before the text is a space. *)
Fixpoint single_spaced (after_space : bool) (s : text) : bool :=
  match s with
  | [] => true
  | c :: s' =>
      if is_space c then (c =? 32)%N && negb after_space && single_spaced true s'
      else single_spaced false s'
  end.

(** [s.trimEnd()]. *)
Definition trimEnd (s : text) : text := rev (snd (span is_space (rev s))).

(** The text is empty or its first character is not white space. *)
Definition starts_plain (s : text) : Prop :=
  match s with
  | [] => True
  | c :: _ => is_space c = false
  end.

(** The characters fixed by the lowering of an ASCII text. *)
Definition lowered (c : N) : Prop := is_ascii c = true /\ ascii_lower c = c.

End HashReference.
(** * The import of a file (lib/parser/index.ts) *)

Module ImportFile.
Import Text JS JSString.

(** A row of the table of transactions, with the columns that
    [saveTransactions] writes. *)
Record StoredTransaction := {
  businessId : string;
  importId : string;
  date : Z;
  description : text;
  amount : number;
  type : Normalizer.TransactionType;
  balance : option number;
  hash : string;
  category : option string
}.

(** The table of transactions: its rows in the order of insertion. *)
Definition Table := list StoredTransaction.

(** [prisma.transaction.findMany({ where: { businessId, hash: { in: hashes } },
    select: { hash: true } })]. *)
Definition findMany_hashes (table : Table) (business : string) (hashes : list string)
  : list string :=
  map hash (List.filter (fun row => String.eqb (businessId row) business
                                    && existsb (String.eqb (hash row)) hashes) table).

(** [prisma.transaction.createMany({ data })]. *)
Definition createMany (table : Table) (data : list StoredTransaction) : Table :=
  table ++ data.

(** [saveTransactions]. *)
Definition saveTransactions (table : Table) (business : string) (import_id : string)
    (transactions : list Normalization.NormalizedTransaction) : Table :=
  (* Check for existing transactions with same hash *)
  let existingHashes :=
    findMany_hashes table business (map Normalization.hash transactions) in
  let existingHashSet : gset string := list_to_set existingHashes in
  (* Filter out transactions that already exist *)
  let newTransactions :=
    List.filter (fun t => negb (bool_decide (Normalization.hash t ∈ existingHashSet)))
                transactions in
  match newTransactions with
  | [] => table
  | _ =>
      createMany table
        (map (fun t => {| businessId := business;
                          importId := import_id;
                          date := Normalization.date t;
                          description := Normalization.description t;
                          amount := Normalization.amount t;
                          type := Normalization.type t;
                          balance := Normalization.balance t;
                          hash := Normalization.hash t;
                          category := None |}) newTransactions)
  end.

(** The hashes stored for a business. *)
Definition stored_hashes (table : Table) (business : string) : list string :=
  map hash (List.filter (fun row => String.eqb (businessId row) business) table).

(** The business holds a transaction with the hash. *)
Definition holds_hash (table : Table) (business : string) (h : string) : bool :=
  existsb (String.eqb h) (stored_hashes table business).

End ImportFile.
(** * The Excel parser (lib/parser/excel-parser.ts) *)

Module ExcelParser.
Import Text JS JSString CsvParser.

(** [extractTransactionFromExcelRow], on a row with normalized keys.  The
    sheet is read with [raw: false], so the cells are formatted texts. *)
Definition extractTransactionFromExcelRow (row : Row) (rowNumber : nat)
  : result (option RawTransaction) :=
  let row_date := row !! utf8 "date" in
  let row_description := row !! utf8 "description" in
  let row_amount := row !! utf8 "amount" in
  let row_debit := row !! utf8 "debit" in
  let row_credit := row !! utf8 "credit" in
  let row_balance := row !! utf8 "balance" in
  let row_type := row !! utf8 "type" in
  (* Skip empty rows *)
  if negb (truthy row_date) && negb (truthy row_description) then Ok None
  else if negb (truthy row_date) then Throw (utf8 "Missing date field")
  else if negb (truthy row_description) then Throw (utf8 "Missing description field")
  else
    let amount_and_type : result (text * option text) :=
      if truthy row_amount then
        (* Single amount column *)
        let amount := trim (String_of row_amount) in
        Ok (amount, Some (if starts_with (utf8 "-") amount
                          then utf8 "DEBIT" else utf8 "CREDIT"))
      else if truthy row_debit || truthy row_credit then
        (* Separate debit/credit columns *)
        let debitValue := if truthy row_debit then trim (String_of row_debit) else [] in
        let creditValue := if truthy row_credit then trim (String_of row_credit) else [] in
        if truthy (Some debitValue)
           && negb (text_eqb debitValue (utf8 "0"))
           && negb (text_eqb debitValue (utf8 "-"))
        then Ok (debitValue, Some (utf8 "DEBIT"))
        else if truthy (Some creditValue)
                && negb (text_eqb creditValue (utf8 "0"))
                && negb (text_eqb creditValue (utf8 "-"))
        then Ok (creditValue, Some (utf8 "CREDIT"))
        else Throw (utf8 "Both debit and credit are empty or zero")
      else
        Throw (utf8 "Missing amount field (expected " ++ quote ++ utf8 "amount" ++ quote
               ++ utf8 ", " ++ quote ++ utf8 "debit" ++ quote ++ utf8 ", or "
               ++ quote ++ utf8 "credit" ++ quote ++ utf8 ")") in
    match amount_and_type with
    | Throw message => Throw message
    | Ok (amount, type) =>
        Ok (Some {| date := trim (String_of row_date);
                    description := trim (String_of row_description);
                    amount := amount;
                    type := or_else type row_type;
                    balance := if truthy row_balance
                               then Some (trim (String_of row_balance)) else None |})
    end.

(** A cell of an amount column that both parsers read alike: absent, or
    without white space around it and other than a lone dash. *)
Definition plain_cell (cell : option text) : bool :=
  match cell with
  | Some s => text_eqb (trim s) s && negb (text_eqb s (utf8 "-"))
  | None => true
  end.

End ExcelParser.

(** * SDK rules engine: ledger_rules.py *)

Module LedgerRules.
Import Text.

Local Open Scope N_scope.

(** Python's [decimal.Decimal]: sign, coefficient and exponent of a finite
    value, or one of the special values. *)
Inductive Decimal :=
| Finite (negative : bool) (coefficient : N) (exponent : Z)
| Infinity (negative : bool)
| NaN (negative signaling : bool) (diagnostic : N).

Definition Decimal_to_Q (d : Decimal) : option Q :=
  match d with
  | Finite neg c e =>
      let m := (if neg then - Z.of_N c else Z.of_N c)%Z in
      Some (if (0 <=? e)%Z then inject_Z (m * 10 ^ e)
            else Qmake m (Z.to_pos (10 ^ (- e))))
  | _ => None
  end.

(** Characters for which [str.isspace] holds; [str.strip()] removes them. *)
Definition py_isspace (c : N) : bool :=
  ((9 <=? c) && (c <=? 13)) || ((28 <=? c) && (c <=? 32))
  || (c =? 133) || (c =? 160) || (c =? 5760)
  || ((8192 <=? c) && (c <=? 8202))
  || (c =? 8232) || (c =? 8233) || (c =? 8239) || (c =? 8287) || (c =? 12288).

Definition strip : text -> text := strip_with py_isspace.

(** Optional sign of a numeric string. *)
Definition take_sign (s : text) : bool * text :=
  match s with
  | 45 :: r => (true, r)
  | 43 :: r => (false, r)
  | _ => (false, s)
  end.

(** The exponent part [E[-+]?\d+] when present; [None] when the text is not
    empty and is not a well-formed exponent reaching the end of input. *)
Definition parse_exponent (s : text) : option Z :=
  match s with
  | [] => Some 0%Z
  | e :: r =>
      if ascii_upper e =? 69 then
        let '(neg, r1) := take_sign r in
        let '(ds, r2) := span is_digit r1 in
        match ds, r2 with
        | _ :: _, [] =>
            let v := Z.of_N (digits_value ds) in Some (if neg then (- v)%Z else v)
        | _, _ => None
        end
      else None
  end.

(** The constructor [Decimal(str)]: surrounding whitespace and underscores are
    dropped, then the numeric-string grammar of the decimal module is matched
    against the whole text (ASCII digits). [None] is [InvalidOperation]. *)
Definition Decimal_of_text (value : text) : option Decimal :=
  let s := remove_if (N.eqb 95) (strip value) in
  let '(neg, body) := take_sign s in
  let u := upper body in
  if text_eqb u (utf8 "INF") || text_eqb u (utf8 "INFINITY") then Some (Infinity neg)
  else if starts_with (utf8 "NAN") u then
    let '(ds, r) := span is_digit (skipn 3 u) in
    match r with [] => Some (NaN neg false (digits_value ds)) | _ => None end
  else if starts_with (utf8 "SNAN") u then
    let '(ds, r) := span is_digit (skipn 4 u) in
    match r with [] => Some (NaN neg true (digits_value ds)) | _ => None end
  else
    let '(int_part, r1) := span is_digit body in
    let '(frac_part, r2) :=
      match r1 with
      | 46 :: r => span is_digit r
      | _ => ([], r1)
      end in
    match int_part ++ frac_part with
    | [] => None
    | digits =>
        match parse_exponent r2 with
        | Some e =>
            Some (Finite neg (digits_value digits)
                         (e - Z.of_nat (length frac_part)))
        | None => None
        end
    end.

(** [parse_amount] of class LedgerParser. *)
Definition parse_amount (amount_str : text) : option Decimal :=
  (* amount_str = re.sub(r'[₦$£€,]', '', amount_str) *)
  let amount_str := remove_if (fun c => mem c (utf8 "₦$£€,")) amount_str in
  (* if '(' in amount_str: replace('(', '-').replace(')', '') *)
  let amount_str :=
    if contains (utf8 "(") amount_str
    then replace (utf8 ")") [] (replace (utf8 "(") (utf8 "-") amount_str)
    else amount_str in
  (* if 'DR' in amount_str.upper(): '-' + replace('DR', '').replace('dr', '') *)
  let amount_str :=
    if contains (utf8 "DR") (upper amount_str)
    then utf8 "-" ++ replace (utf8 "dr") [] (replace (utf8 "DR") [] amount_str)
    else amount_str in
  let amount_str := strip amount_str in
  Decimal_of_text amount_str.

End LedgerRules.


(** * SDK data contract: schemas/ledger_schema.py *)

Module Schema.

(** [Transaction]; the [date] is the ordinal of the day, [metadata] is left
    out. *)
Record Transaction := {
  date : Z;
  description : string;
  debit : Q;
  credit : Q;
  balance : option Q;
  currency : string;
  transaction_type : option string;
  category : option string;
  confidence : Q
}.

End Schema.

(** * SDK rules engine: validators.py *)

Module Validators.
Import Schema.

Inductive Severity := ERROR | WARNING.

(** What a finding reports; stands for the formatted [message]. *)
Inductive Message :=
| BalanceMismatch (expected actual diff : Q)
| PotentialDuplicate (first_index second_index : nat)
| OtherFinding (text : string).

Record ValidationError := {
  message : Message;
  transaction_index : option nat;
  field : option string;
  severity : Severity
}.

(** [ValidationResult(valid=..., errors=..., warnings=...)]. *)
Record ValidationResult := {
  valid : bool;
  errors : list ValidationError;
  warnings : list ValidationError
}.

(** Same date, same amount (debit and credit) and same description. *)
Definition same_transaction (a b : Transaction) : bool :=
  (date a =? date b)
  && Qeq_bool (debit a) (debit b) && Qeq_bool (credit a) (credit b)
  && String.eqb (description a) (description b).

(** Index of the first element of [earlier] that [t] repeats, [i] being the
    index of the head of [earlier]. *)
Fixpoint first_match (t : Transaction) (i : nat) (earlier : list Transaction) : option nat :=
  match earlier with
  | [] => None
  | e :: earlier' =>
      if same_transaction e t then Some i else first_match t (S i) earlier'
  end.

(** Modelled from the spec: the body of [detect_duplicates] is absent from the
    source, which gives its contract only (a transaction is a duplicate of an
    earlier one when date, amount and description are the same; the finding
    cites the later index, has no field and severity WARNING). [seen] is the
    list of the transactions before [rest], in order. *)
Fixpoint detect_duplicates_from (seen rest : list Transaction) : list ValidationError :=
  match rest with
  | [] => []
  | t :: rest' =>
      match first_match t 0 seen with
      | Some i =>
          [{| message := PotentialDuplicate i (length seen);
              transaction_index := Some (length seen);
              field := None;
              severity := WARNING |}]
      | None => []
      end ++ detect_duplicates_from (seen ++ [t]) rest'
  end.

(** Modelled from the spec: [detect_duplicates], whose body is absent from the
    source, on the whole list. *)
Definition detect_duplicates (txns : list Transaction) : list ValidationError :=
  detect_duplicates_from [] txns.

Section ValidateTransactions.

(** The per-transaction and ledger-wide checks whose bodies the source leaves
    open. *)
Variable validate_date : Transaction -> list ValidationError.
Variable validate_amount : Transaction -> list ValidationError.
Variable validate_balance_consistency : list Transaction -> list ValidationError.

(** [TransactionValidator.validate_transactions]. *)
Definition validate_transactions (txns : list Transaction) : ValidationResult :=
  let errors := [] in
  let warnings := [] in
  let errors :=
    fold_left (fun errors txn => (errors ++ validate_date txn) ++ validate_amount txn)
              txns errors in
  let errors := errors ++ validate_balance_consistency txns in
  let errors := errors ++ detect_duplicates txns in
  {| valid := (length errors =? 0)%nat; errors := errors; warnings := warnings |}.

End ValidateTransactions.

(** Modelled from the spec: the body of [validate_balance_equation] is absent
    from the source, which gives the formula
    [Balance[i] = Balance[i-1] + Credit[i] - Debit[i]] and the tolerance of
    0.01; the check applies to a transaction with a stated balance whose
    predecessor states one too. [i] is the index of the head of [rest]. *)
Fixpoint validate_balance_equation_from (prev : option Q) (i : nat)
    (rest : list Transaction) : list ValidationError :=
  match rest with
  | [] => []
  | t :: rest' =>
      match prev, balance t with
      | Some b0, Some b =>
          let expected := (b0 + credit t - debit t)%Q in
          let diff := Qabs (b - expected) in
          if Qle_bool diff 0.01 then []
          else [{| message := BalanceMismatch expected b diff;
                   transaction_index := Some i;
                   field := Some "balance"%string;
                   severity := ERROR |}]
      | _, _ => []
      end ++ validate_balance_equation_from (balance t) (S i) rest'
  end.

(** Modelled from the spec: [validate_balance_equation], whose body is absent
    from the source, on the whole list; the first transaction has no
    predecessor and is not checked. *)
Definition validate_balance_equation (transactions : list Transaction)
  : list ValidationError :=
  match transactions with
  | [] => []
  | t :: rest => validate_balance_equation_from (balance t) 1 rest
  end.

End Validators.

(** * SDK rules engine: confidence.py *)

Module Confidence.
Import Schema Validators.

(** [BoundingBox(bbox=[[x1,y1],...,[x4,y4]], confidence=score)]. *)
Record BoundingBox := {
  bbox : list (Z * Z);
  box_confidence : Q
}.

(** [RecognitionResult]. *)
Record RecognitionResult := {
  text : string;
  rec_confidence : Q;
  char_confidences : list Q
}.

Definition Qsum (l : list Q) : Q := fold_right Qplus 0%Q l.

(** [sum(l) / len(l)]; [None] is the ZeroDivisionError of an empty list. *)
Definition mean (l : list Q) : option Q :=
  match l with
  | [] => None
  | _ => Some (Qsum l / inject_Z (Z.of_nat (length l)))%Q
  end.

(** [ConfidenceScorer.compute_document_confidence]. *)
Definition compute_document_confidence
    (detection_boxes : list BoundingBox)
    (recognition_results : list RecognitionResult)
    (transactions : list Transaction)
    (validation_result : ValidationResult) : option Q :=
  match mean (map box_confidence detection_boxes) with
  | None => None
  | Some det_conf =>
      match mean (map rec_confidence recognition_results) with
      | None => None
      | Some rec_conf =>
          let val_conf := (if valid validation_result then 1.0 else 0.5)%Q in
          Some (0.2 * det_conf + 0.4 * rec_conf + 0.4 * val_conf)%Q
      end
  end.

(** Modelled from the spec: the body of [calculate_ocr_confidence] is absent
    from the source, which gives the formula
    [(detection_avg + recognition_avg) / 2]. *)
Definition calculate_ocr_confidence
    (detection_confidences recognition_confidences : list Q) : option Q :=
  match mean detection_confidences, mean recognition_confidences with
  | Some detection_avg, Some recognition_avg =>
      Some ((detection_avg + recognition_avg) / 2)%Q
  | _, _ => None
  end.

(** Modelled from the spec: the body of [calculate_validation_score] is absent
    from the source, which gives the formula
    [max(0.0, 1.0 - len(errors) * 0.1 - len(warnings) * 0.05)]. *)
Definition calculate_validation_score (errors warnings : nat) : Q :=
  let error_penalty := (inject_Z (Z.of_nat errors) * 0.1)%Q in
  let warning_penalty := (inject_Z (Z.of_nat warnings) * 0.05)%Q in
  Qmax 0.0 (1.0 - error_penalty - warning_penalty).

(** Modelled from the spec: the body of [calculate_document_confidence] is
    absent from the source, which gives the weighted sum of the four component
    scores of the ledger. *)
Definition calculate_document_confidence
    (ocr_confidence validation_score balance_accuracy completeness_score : Q) : Q :=
  (0.4 * ocr_confidence + 0.3 * validation_score
   + 0.2 * balance_accuracy + 0.1 * completeness_score)%Q.

Section BalanceAccuracy.

(** The documented formula of [calculate_balance_accuracy] has no value where
    the expected balance is 0, which it divides by, and where there is no
    transaction to average. What the function gives there (a number, or
    [None] for an exception) is left open: the value for an expected balance
    of 0, given the stated balance, and the average of no accuracy. *)
Variable accuracy_of_zero_expected : Q -> option Q.
Variable average_of_none : option Q.

(** Modelled from the spec: the body of [calculate_balance_accuracy] is absent
    from the source, which gives the per-transaction formula
    [accuracy = 1.0 - abs(expected - actual) / expected]. *)
Definition transaction_accuracy (expected actual : Q) : option Q :=
  if Qeq_bool expected 0 then accuracy_of_zero_expected actual
  else Some (1.0 - Qabs (expected - actual) / expected)%Q.

(** Modelled from the spec: the body of [calculate_balance_accuracy] is absent
    from the source; the accuracies of the transactions of [rest], with
    [expected = prev_balance + credit - debit]. A transaction takes part when
    it and its predecessor state a balance. *)
Fixpoint balance_accuracies (prev : option Q) (rest : list Transaction)
  : option (list Q) :=
  match rest with
  | [] => Some []
  | t :: rest' =>
      match balance_accuracies (balance t) rest' with
      | None => None
      | Some accs =>
          match prev, balance t with
          | Some b0, Some actual =>
              let expected := (b0 + credit t - debit t)%Q in
              match transaction_accuracy expected actual with
              | Some accuracy => Some (accuracy :: accs)
              | None => None
              end
          | _, _ => Some accs
          end
      end
  end.

(** Modelled from the spec: [calculate_balance_accuracy], whose body is absent
    from the source: the average of the per-transaction accuracies. *)
Definition calculate_balance_accuracy (transactions : list Transaction) : option Q :=
  match transactions with
  | [] => average_of_none
  | t :: rest =>
      match balance_accuracies (balance t) rest with
      | Some [] => average_of_none
      | Some accs => mean accs
      | None => None
      end
  end.

(** The function counts a zero expected balance that is met exactly as
    accurate. *)
Definition exact_zero_is_accurate : Prop :=
  forall actual, (actual == 0)%Q ->
    exists a, accuracy_of_zero_expected actual = Some a /\ (a == 1)%Q.

End BalanceAccuracy.

End Confidence.

(** * SDK core: orchestrator.py, the fallback chain *)

Module Orchestrator.
Import Confidence.

Inductive log_entry :=
| log_warning (recognizer_name : string) (confidence : Q)
| log_error.

(** The exceptions that leave the fallback loops, which have no handler:
    [get_recognizer] raises [ModelNotFoundError] for a name that is not
    registered, [recognize] may fail, and [result] is unbound before the
    first recognition. *)
Inductive exception :=
| ModelNotFoundError (recognizer_name : string)
| RecognitionError (recognizer_name : string)
| NameError.

(** What a call gives: a value, or an exception together with the log
    written before it. *)
Inductive outcome (A : Type) :=
| Return (a : A)
| Raise (e : exception) (log : list log_entry).

Arguments Return {A} a.
Arguments Raise {A} e log.

(** The variables of the fallback loops: the [results] list, the loop
    variable [result] (unbound before the first recognition) and the log. *)
Record state := {
  results : list RecognitionResult;
  result : option RecognitionResult;
  log : list log_entry
}.

Section Fallback.

Variable Crop : Type.

(** A loaded recognizer: [recognize(crop)], [None] when it raises. *)
Definition Recognizer : Type := Crop -> option RecognitionResult.

(** [get_recognizer(recognizer_name)], [None] when the name is not
    registered. *)
Variable get_recognizer : string -> option Recognizer.
Variable confidence_threshold : Q.

(** The inner [for recognizer_name in fallback_chain]; the boolean tells
    whether the loop was left by [break]. *)
Fixpoint try_recognizers (fallback_chain : list string) (crop : Crop) (st : state)
  : outcome (state * bool) :=
  match fallback_chain with
  | [] => Return (st, false)
  | recognizer_name :: chain' =>
      match get_recognizer recognizer_name with
      | None => Raise (ModelNotFoundError recognizer_name) (log st)
      | Some recognizer =>
          match recognizer crop with
          | None => Raise (RecognitionError recognizer_name) (log st)
          | Some r =>
              if Qle_bool confidence_threshold (rec_confidence r) then
                Return ({| results := results st ++ [r]; result := Some r;
                           log := log st |}, true)
              else
                try_recognizers chain' crop
                  {| results := results st; result := Some r;
                     log := log st ++ [log_warning recognizer_name (rec_confidence r)] |}
          end
      end
  end.

(** One iteration of [for crop in image_crops], with the [else] branch of the
    inner loop. *)
Definition process_crop (fallback_chain : list string) (st : state) (crop : Crop)
  : outcome state :=
  match try_recognizers fallback_chain crop st with
  | Raise e log => Raise e log
  | Return (st', broke) =>
      if broke then Return st'
      else
        match result st' with
        | Some r =>
            Return {| results := results st' ++ [r]; result := result st';
                      log := log st' ++ [log_error] |}
        | None => Raise NameError (log st')
        end
  end.

Fixpoint process_crops (fallback_chain : list string) (st : state)
    (image_crops : list Crop) : outcome state :=
  match image_crops with
  | [] => Return st
  | crop :: crops' =>
      match process_crop fallback_chain st crop with
      | Return st' => process_crops fallback_chain st' crops'
      | Raise e log => Raise e log
      end
  end.

(** The fallback execution: the results and the log. *)
Definition execute_with_fallback (fallback_chain : list string)
    (image_crops : list Crop) : outcome (list RecognitionResult * list log_entry) :=
  match process_crops fallback_chain
          {| results := []; result := None; log := [] |} image_crops with
  | Return st => Return (results st, log st)
  | Raise e log => Raise e log
  end.

(** The backend is registered and recognizes [res] on the crop. *)
Definition answers (recognizer_name : string) (crop : Crop) (res : RecognitionResult)
  : Prop :=
  exists recognizer,
    get_recognizer recognizer_name = Some recognizer /\ recognizer crop = Some res.

(** The backend answers and reaches the threshold on the crop. *)
Definition reaches (recognizer_name : string) (crop : Crop) : Prop :=
  exists res, answers recognizer_name crop res
              /\ Qle_bool confidence_threshold (rec_confidence res) = true.

(** The backend answers and stays below the threshold on the crop. *)
Definition below (recognizer_name : string) (crop : Crop) : Prop :=
  exists res, answers recognizer_name crop res
              /\ Qle_bool confidence_threshold (rec_confidence res) = false.

(** Calling the backend on the crop raises [e]. *)
Definition raises (recognizer_name : string) (crop : Crop) (e : exception) : Prop :=
  (get_recognizer recognizer_name = None /\ e = ModelNotFoundError recognizer_name)
  \/ (exists recognizer,
        get_recognizer recognizer_name = Some recognizer
        /\ recognizer crop = None /\ e = RecognitionError recognizer_name).

(** [res] is the result of the first backend of the chain that reaches the
    threshold on [crop], the backends before it having stayed below. *)
Definition first_success (chain : list string) (crop : Crop) (res : RecognitionResult)
  : Prop :=
  exists before name after,
    chain = before ++ name :: after
    /\ answers name crop res
    /\ Qle_bool confidence_threshold (rec_confidence res) = true
    /\ forall n, In n before -> below n crop.

(** Every backend of the chain stays below the threshold on [crop], and
    [res] is the result of one of them. *)
Definition all_below (chain : list string) (crop : Crop) (res : RecognitionResult)
  : Prop :=
  (forall n, In n chain -> below n crop)
  /\ exists n, In n chain /\ answers n crop res.

(** Every backend of the chain stays below the threshold on [crop], and
    [res] is the result of the last of them. *)
Definition last_tried (chain : list string) (crop : Crop) (res : RecognitionResult)
  : Prop :=
  (forall n, In n chain -> below n crop)
  /\ exists front name, chain = front ++ [name] /\ answers name crop res.

(** A backend of the chain raises [e] on [crop] when its turn comes, the
    backends before it having stayed below the threshold. *)
Definition aborts (chain : list string) (crop : Crop) (e : exception) : Prop :=
  exists before name after,
    chain = before ++ name :: after
    /\ (forall n, In n before -> below n crop)
    /\ raises name crop e.

End Fallback.

End Orchestrator.

(** * SDK recognition: decoders.py *)

Module Decoders.
Import Sorting.

Fixpoint Qpow (q : Q) (n : nat) : Q :=
  match n with
  | O => 1
  | S n' => q * Qpow q n'
  end.

Definition Qprod (l : list Q) : Q := fold_right Qmult 1%Q l.

(** [_calculate_confidence] of the recognizer, the geometric mean
    [np.prod(probs) ** (1 / len(probs))] of a non-empty list of
    probabilities. *)
Definition calculate_confidence (probabilities : list Q) : R :=
  if Qeq_bool (Qprod probabilities) 0 then 0%R
  else Rpower (Q2R (Qprod probabilities)) (1 / INR (length probabilities)).

(** Comparison of the geometric means of two non-empty lists of
    probabilities, without roots:
    [gm a <= gm b] iff [prod a ^ len b <= prod b ^ len a]. *)
Definition geometric_mean_leb (a b : list Q) : bool :=
  Qle_bool (Qpow (Qprod a) (length b)) (Qpow (Qprod b) (length a)).

(** [np.argmax]: index of the first maximum. *)
Fixpoint argmax_from (best : nat) (best_value : Q) (i : nat) (l : list Q) : nat :=
  match l with
  | [] => best
  | v :: l' =>
      if Qle_bool v best_value then argmax_from best best_value (S i) l'
      else argmax_from i v (S i) l'
  end.

Definition argmax (l : list Q) : nat :=
  match l with
  | [] => 0%nat
  | v :: l' => argmax_from 0 v 1 l'
  end.

(** [np.argsort]: the indices in ascending order of value. The order of the
    indices of equal values, which numpy leaves open, is the index order. *)
Definition argsort (l : list Q) : list nat :=
  sort_by (fun i j => Qle_bool (nth i l 0%Q) (nth j l 0%Q)) (seq 0 (length l)).

(** A beam: the token sequence, the cumulative score and the token
    probabilities. The source keeps the score as a sum of log-probabilities;
    the model keeps [weight = exp(score)], the product of the probabilities,
    which orders the beams in the same way. *)
Record beam := {
  sequence : list nat;
  weight : Q;
  probs : list Q
}.

(** The invariant of a beam: the weight is the product of the token
    probabilities, which are as many as the tokens after the start token. *)
Definition well_formed (b : beam) : Prop :=
  (weight b == Qprod (probs b))%Q
  /\ (0 <= weight b)%Q
  /\ length (sequence b) = S (length (probs b)).

Section Decode.

(** The decoder on the encoder output: the probabilities (softmax of the
    logits) of the next token after a sequence, indexed by token id. *)
Variable decoder : list nat -> list Q.
Variable BOS_TOKEN_ID EOS_TOKEN_ID : nat.

(** The loop of the greedy decoder, [fuel] iterations being left. *)
Fixpoint greedy_loop (fuel : nat) (sequence : list nat) (probs : list Q)
  : list nat * list Q :=
  match fuel with
  | O => (sequence, probs)
  | S fuel' =>
      let next_token_probs := decoder sequence in
      let next_token_id := argmax next_token_probs in
      let next_token_prob := nth next_token_id next_token_probs 0%Q in
      let sequence := sequence ++ [next_token_id] in
      let probs := probs ++ [next_token_prob] in
      if (next_token_id =? EOS_TOKEN_ID)%nat then (sequence, probs)
      else greedy_loop fuel' sequence probs
  end.

Definition greedy_decode (max_length : nat) : list nat * list Q :=
  greedy_loop max_length [BOS_TOKEN_ID] [].

Variable beam_width : nat.

Definition finished (b : beam) : bool :=
  match py_last (sequence b) with
  | Some t => (t =? EOS_TOKEN_ID)%nat
  | None => false
  end.

(** The candidates contributed by one beam. *)
Definition expand (b : beam) : list beam :=
  if finished b then [b]
  else
    let next_probs := decoder (sequence b) in
    let top_k_indices := py_last_k beam_width (argsort next_probs) in
    map (fun token_id =>
           {| sequence := sequence b ++ [token_id];
              weight := weight b * nth token_id next_probs 0%Q;
              probs := probs b ++ [nth token_id next_probs 0%Q] |})
        top_k_indices.

Section KeyOrder.

(** [sorted(candidates, key=...)] compares the keys of the candidates:
    [leb a b] tells whether the key of [a] is at most the key of [b]. *)
Variable leb : beam -> beam -> bool.

(** One iteration of [for step in range(max_length)]. *)
Definition beam_step_by (beams : list beam) : list beam :=
  let candidates := flat_map expand beams in
  py_last_k beam_width (sort_by leb candidates).

Fixpoint beam_loop_by (fuel : nat) (beams : list beam) : list beam :=
  match fuel with
  | O => beams
  | S fuel' =>
      let beams := beam_step_by beams in
      if forallb finished beams then beams else beam_loop_by fuel' beams
  end.

(** The beams held when the loop ends. *)
Definition final_beams_by (max_length : nat) : list beam :=
  beam_loop_by max_length [{| sequence := [BOS_TOKEN_ID]; weight := 1; probs := [] |}].

(** The best beam; [None] is the IndexError of [beams[-1]]. *)
Definition beam_search_decode_by (max_length : nat) : option (list nat * list Q) :=
  match py_last (final_beams_by max_length) with
  | Some best => Some (sequence best, probs best)
  | None => None
  end.

End KeyOrder.

(** The length penalty, a float: 1.0 by default, 0.8 and 1.2 in the tuning
    notes. *)
Variable length_penalty : Q.

(** The value [len(sequence) ** length_penalty] that divides the score, a
    real power of the length; a sequence holds the start token at least. *)
Definition norm (b : beam) : R :=
  Rpower (INR (length (sequence b))) (Q2R length_penalty).

(** The sort key [score / len(sequence) ** length_penalty] of a beam of
    positive weight, the score being the logarithm of the weight. *)
Definition sort_key (b : beam) : R := (ln (Q2R (weight b)) / norm b)%R.

(** Order of the sort keys. The score of a beam of weight 0 is the
    logarithm of 0, below every other score. *)
Definition key_leb (a b : beam) : bool :=
  if Qle_bool (weight a) 0 then true
  else if Qle_bool (weight b) 0 then false
  else if Rle_dec (sort_key a) (sort_key b) then true else false.

Definition beam_step : list beam -> list beam := beam_step_by key_leb.

Definition beam_loop : nat -> list beam -> list beam := beam_loop_by key_leb.

Definition final_beams : nat -> list beam := final_beams_by key_leb.

(** [beam_search_decode]. *)
Definition beam_search_decode : nat -> option (list nat * list Q) :=
  beam_search_decode_by key_leb.

End Decode.

(** The order of the sort keys for a length penalty that is a natural
    number [k], in rational arithmetic:
    [ln w1 / n1 ^ k <= ln w2 / n2 ^ k] iff [w1 ^ (n2 ^ k) <= w2 ^ (n1 ^ k)]. *)
Definition integer_key_leb (k : nat) (a b : beam) : bool :=
  Qle_bool (Qpow (weight a) (length (sequence b) ^ k))
           (Qpow (weight b) (length (sequence a) ^ k)).

(** A decoder with two plausible readings: after the start token, token 3 has
    probability 0.5 and the end token 0.45; afterwards the end token has
    probability 0.5. Token ids: 0 start, 1 padding, 2 end. *)
Definition two_readings_decoder (sequence : list nat) : list Q :=
  match sequence with
  | [_] => [0.005; 0.015; 0.45; 0.50; 0.03]
  | _ => [0.005; 0.015; 0.50; 0.30; 0.18]
  end%Q.

End Decoders.

(** * SDK preprocessing: cropper.py, the reading order of detected regions *)

Module Cropper.
Import Sorting.

(** A detected region: the rectangle [(x, y, width, height)] in raster
    coordinates, [(x, y)] being the top-left corner, and the detection
    confidence. *)
Record BoundingRegion := {
  x : Z;
  y : Z;
  width : Z;
  height : Z;
  confidence : Q
}.

(** The vertical center [y + height / 2]. *)
Definition vertical_center (r : BoundingRegion) : Q :=
  (inject_Z (y r) + inject_Z (height r) / 2)%Q.

(** Twice the vertical center. *)
Definition center2 (r : BoundingRegion) : Z := 2 * y r + height r.

Definition total_height (boxes : list BoundingRegion) : Z :=
  fold_right (fun b acc => height b + acc) 0 boxes.

(** The row-grouping threshold: half the mean region height. *)
Definition row_threshold (boxes : list BoundingRegion) : Q :=
  (inject_Z (total_height boxes) / inject_Z (Z.of_nat (length boxes)) / 2)%Q.

(** The vertical centers of [a] and [b] differ by less than the threshold. *)
Definition within_threshold (boxes : list BoundingRegion) (a b : BoundingRegion) : Prop :=
  (Qabs (vertical_center a - vertical_center b) < row_threshold boxes)%Q.

(** The test of [within_threshold] on integers:
    [|ca - cb| < (total / n) / 2], cleared of the divisions. *)
Definition same_row_b (boxes : list BoundingRegion) (a b : BoundingRegion) : bool :=
  Z.of_nat (length boxes) * Z.abs (center2 a - center2 b) <? total_height boxes.

(** Modelled from the spec: the grouping step of [sort_boxes_spatial], whose
    body is absent from the source. Rows of a list ordered by vertical center:
    a region joins the row of its successor (the head of the next row built)
    when the two are within the threshold. *)
Fixpoint split_rows (close : BoundingRegion -> BoundingRegion -> bool)
    (l : list BoundingRegion) : list (list BoundingRegion) :=
  match l with
  | [] => []
  | a :: t =>
      match split_rows close t with
      | (b :: row) :: rows =>
          if close a b then (a :: b :: row) :: rows else [a] :: (b :: row) :: rows
      | rows => [a] :: rows
      end
  end.

(** Modelled from the spec: steps 1 and 2 of the ordering of
    [sort_boxes_spatial], whose body is absent from the source. *)
Definition group_rows (boxes : list BoundingRegion) : list (list BoundingRegion) :=
  split_rows (same_row_b boxes)
             (sort_by (fun a b => center2 a <=? center2 b) boxes).

(** The smallest [y] of a row. *)
Definition row_min_y (row : list BoundingRegion) : Z :=
  match row with
  | [] => 0
  | r :: row' => fold_right (fun b acc => Z.min (y b) acc) (y r) row'
  end.

(** Modelled from the spec: steps 3 and 4 of the ordering of
    [sort_boxes_spatial], whose body is absent from the source: every row from
    left to right, the rows from top to bottom. *)
Definition ordered_rows (boxes : list BoundingRegion) : list (list BoundingRegion) :=
  let rows := group_rows boxes in
  let rows := map (sort_by (fun a b => x a <=? x b)) rows in
  sort_by (fun r1 r2 => row_min_y r1 <=? row_min_y r2) rows.

(** Modelled from the spec: the body of [sort_boxes_spatial] is absent from the
    source, which lists its steps only. The threshold is half the mean region
    height; regions whose vertical centers differ by less than it share a row
    (the rows are the classes that this relation links); a row is sorted by
    the x-coordinate of the top-left corner, the rows by their minimum
    y-coordinate, and the rows are flattened in order. Sorting is stable. *)
Definition sort_boxes_spatial (boxes : list BoundingRegion) : list BoundingRegion :=
  concat (ordered_rows boxes).

(** A crop: the region it comes from, its order index and its size. *)
Record Crop := {
  region : BoundingRegion;
  index : nat;
  crop_width : Z;
  crop_height : Z
}.

Definition make_crop (padding : Z) (i : nat) (r : BoundingRegion) : Crop :=
  {| region := r; index := i;
     crop_width := width r + 2 * padding;
     crop_height := height r + 2 * padding |}.

(** A crop is kept when it is not smaller than [min_size] and its aspect ratio
    lies within [[1 / max_aspect, max_aspect]]. *)
Definition crop_ok (min_size : Z * Z) (max_aspect : Q) (c : Crop) : bool :=
  (fst min_size <=? crop_width c) && (snd min_size <=? crop_height c)
  && Qle_bool (inject_Z (crop_width c)) (max_aspect * inject_Z (crop_height c))
  && Qle_bool (inject_Z (crop_height c)) (max_aspect * inject_Z (crop_width c)).

(** Modelled from the spec: [order_and_crop] (in the source [extract_regions],
    whose body is absent), without the pixels. The regions are ordered, the
    crops are numbered in that order, and the filter is applied afterwards. *)
Definition order_and_crop (boxes : list BoundingRegion) (padding : Z)
    (min_size : Z * Z) (max_aspect : Q) : list Crop :=
  List.filter (crop_ok min_size max_aspect)
              (imap (make_crop padding) (sort_boxes_spatial boxes)).

(** A region survives the filter of [order_and_crop]. *)
Definition region_ok (padding : Z) (min_size : Z * Z) (max_aspect : Q)
    (r : BoundingRegion) : bool :=
  crop_ok min_size max_aspect (make_crop padding 0 r).

(** The regions of the ordering example, 150 wide and 20 high. *)
Definition example_region (px py : Z) : BoundingRegion :=
  {| x := px; y := py; width := 150; height := 20; confidence := 1 |}.

End Cropper.
(** * SDK data contract: the pages and documents of schemas/ledger_schema.py *)

Module Documents.
Import Schema.

(** [LedgerPage]; [metadata] is left out. *)
Record LedgerPage := {
  page_number : Z;
  page_transactions : list Transaction
}.

(** [LedgerDocument]; the reports and [metadata] are left out. *)
Record LedgerDocument := {
  pages : list LedgerPage;
  transactions : list Transaction
}.

(** Truthiness of an optional list: [None] and the empty list are falsy. *)
Definition nonempty {A : Type} (l : option (list A)) : bool :=
  match l with
  | Some (_ :: _) => true
  | _ => false
  end.

Definition list_of {A : Type} (l : option (list A)) : list A :=
  match l with
  | Some l => l
  | None => []
  end.

(** [LedgerDocument.__init__(pages=..., transactions=...)]. *)
Definition LedgerDocument_init (pages : option (list LedgerPage))
    (transactions : option (list Transaction)) : LedgerDocument :=
  if nonempty pages then
    {| pages := list_of pages;
       transactions := flat_map page_transactions (list_of pages) |}
  else if nonempty transactions then
    {| transactions := list_of transactions;
       pages := [{| page_number := 1; page_transactions := list_of transactions |}] |}
  else
    {| transactions := []; pages := [] |}.

Definition page_transaction_count (self : LedgerPage) : nat :=
  length (page_transactions self).

Definition transaction_count (self : LedgerDocument) : nat :=
  length (transactions self).

Definition page_count (self : LedgerDocument) : nat := length (pages self).

(** [min(dates)] and [max(dates)] of a non-empty list. *)
Definition list_min (d : Z) (ds : list Z) : Z := fold_left Z.min ds d.
Definition list_max (d : Z) (ds : list Z) : Z := fold_left Z.max ds d.

(** [date_range]: [(min(dates), max(dates)) if dates else (None, None)]. *)
Definition date_range (self : LedgerDocument) : option Z * option Z :=
  match map date (transactions self) with
  | [] => (None, None)
  | d :: ds => (Some (list_min d ds), Some (list_max d ds))
  end.

(** [sum(...)] of Python: a fold from the left, starting at 0. *)
Definition py_sum (l : list Q) : Q := fold_left Qplus l 0%Q.

Record SummaryStatistics := {
  total_transactions : nat;
  total_debits : Q;
  total_credits : Q;
  net_cashflow : Q;
  opening_balance : option Q;
  closing_balance : option Q
}.

(** [summary_statistics], without the date range. The balances of an empty
    document are [0.0]. *)
Definition summary_statistics (self : LedgerDocument) : SummaryStatistics :=
  let total_debits := py_sum (map debit (transactions self)) in
  let total_credits := py_sum (map credit (transactions self)) in
  let opening_balance :=
    match transactions self with
    | t :: _ => balance t
    | [] => Some 0%Q
    end in
  let closing_balance :=
    match Sorting.py_last (transactions self) with
    | Some t => balance t
    | None => Some 0%Q
    end in
  {| total_transactions := transaction_count self;
     total_debits := total_debits;
     total_credits := total_credits;
     net_cashflow := (total_credits - total_debits)%Q;
     opening_balance := opening_balance;
     closing_balance := closing_balance |}.

End Documents.

(** * SDK rules engine: the report of validators.py *)

Module Reports.
Import Validators.

(** [ValidationReport]. *)
Record ValidationReport := {
  errors : list ValidationError;
  warnings : list ValidationError;
  is_valid : bool;
  total_transactions : nat;
  valid_transactions : nat;
  invalid_transactions : nat
}.

(** [ValidationReport.__init__]. *)
Definition ValidationReport_init : ValidationReport :=
  {| errors := []; warnings := []; is_valid := true;
     total_transactions := 0; valid_transactions := 0; invalid_transactions := 0 |}.

(** [add_error]: the error is appended and the report marked invalid. *)
Definition add_error (self : ValidationReport) (error : ValidationError)
  : ValidationReport :=
  {| errors := errors self ++ [error];
     warnings := warnings self;
     is_valid := false;
     total_transactions := total_transactions self;
     valid_transactions := valid_transactions self;
     invalid_transactions := invalid_transactions self |}.

(** [add_warning]. *)
Definition add_warning (self : ValidationReport) (warning : ValidationError)
  : ValidationReport :=
  {| errors := errors self;
     warnings := warnings self ++ [warning];
     is_valid := is_valid self;
     total_transactions := total_transactions self;
     valid_transactions := valid_transactions self;
     invalid_transactions := invalid_transactions self |}.

(** A call of one of the two methods. *)
Inductive call :=
| AddError (error : ValidationError)
| AddWarning (warning : ValidationError).

Definition perform (self : ValidationReport) (c : call) : ValidationReport :=
  match c with
  | AddError error => add_error self error
  | AddWarning warning => add_warning self warning
  end.

(** The report after a sequence of calls on a fresh report. *)
Definition report_after (calls : list call) : ValidationReport :=
  fold_left perform calls ValidationReport_init.

(** The errors and the warnings passed by a sequence of calls. *)
Definition errors_of (calls : list call) : list ValidationError :=
  flat_map (fun c => match c with AddError e => [e] | AddWarning _ => [] end) calls.

Definition warnings_of (calls : list call) : list ValidationError :=
  flat_map (fun c => match c with AddError _ => [] | AddWarning w => [w] end) calls.

End Reports.

(** * SDK preprocessing: the geometry of cropper.py *)

Module Geometry.

(** [min(a, b, c, d)] and [max(a, b, c, d)]. *)
Definition min4 (a b c d : Z) : Z := Z.min (Z.min (Z.min a b) c) d.
Definition max4 (a b c d : Z) : Z := Z.max (Z.max (Z.max a b) c) d.

(** The conversion of a quadrilateral [[x1, y1], ..., [x4, y4]] to the
    rectangle [x_min, y_min, width, height]. *)
Definition quadrilateral_to_rectangle (p1 p2 p3 p4 : Z * Z) : Z * Z * Z * Z :=
  let '(x1, y1) := p1 in
  let '(x2, y2) := p2 in
  let '(x3, y3) := p3 in
  let '(x4, y4) := p4 in
  let x_min := min4 x1 x2 x3 x4 in
  let y_min := min4 y1 y2 y3 y4 in
  let x_max := max4 x1 x2 x3 x4 in
  let y_max := max4 y1 y2 y3 y4 in
  let width := x_max - x_min in
  let height := y_max - y_min in
  (x_min, y_min, width, height).

(** The bounds of a padded crop that would extend beyond the image:
    [x_start, y_start, x_end, y_end]. *)
Definition crop_bounds (image_width image_height : Z) (x y w h padding : Z)
  : Z * Z * Z * Z :=
  let x_start := Z.max 0 (x - padding) in
  let y_start := Z.max 0 (y - padding) in
  let x_end := Z.min image_width (x + w + padding) in
  let y_end := Z.min image_height (y + h + padding) in
  (x_start, y_start, x_end, y_end).

End Geometry.

(** * SDK recognition: tesseract_recognizer.py *)

Module Tesseract.
Import Confidence.

(** The dictionary returned by [pytesseract.image_to_data]: the words and
    their confidences, -1 for an entry that is not a word. *)
Record Data := {
  data_text : list string;
  data_conf : list Q
}.

(** [TesseractRecognizer.recognize] once [image_to_data] has returned. *)
Definition recognize (data : Data) : RecognitionResult :=
  let text := String.concat " " (data_text data) in
  let confidences := List.filter (fun c => negb (Qeq_bool c (-1))) (data_conf data) in
  let avg_conf :=
    match confidences with
    | [] => 0%Q
    | _ => (Documents.py_sum confidences / inject_Z (Z.of_nat (length confidences)))%Q
    end in
  {| text := text; rec_confidence := (avg_conf / 100)%Q; char_confidences := [] |}.

End Tesseract.
(** ** Reference notions for the decoders *)

Module DecoderReference.
Import Decoders.

(** The list has one greatest element, at index [m]. *)
Definition unique_max (l : list Q) (m : nat) : Prop :=
  (m < length l)%nat
  /\ forall j, (j < length l)%nat -> j <> m -> (nth j l 0 < nth m l 0)%Q.

(** The end token occurs at the last place only. *)
Definition eos_only_last (EOS_TOKEN_ID : nat) (s : list nat) : Prop :=
  forall i, (S i < length s)%nat -> nth i s 0%nat <> EOS_TOKEN_ID.

(** The shape of a beam after at most [n] rounds: the start token, then at
    most [n] tokens, one probability per token, the end token last if at
    all. *)
Definition beam_shape (BOS_TOKEN_ID EOS_TOKEN_ID : nat) (n : nat) (b : beam) : Prop :=
  (exists tokens, sequence b = BOS_TOKEN_ID :: tokens)
  /\ length (sequence b) = S (length (probs b))
  /\ (length (probs b) <= n)%nat
  /\ eos_only_last EOS_TOKEN_ID (sequence b).

End DecoderReference.

(** * Reference formulas and sample inputs *)

Module Samples.
Import Schema Validators Confidence Orchestrator.

(** An entry of a ledger in naira, with a debit, a credit and the balance
    stated after it. *)
Definition entry (day : Z) (text : string) (dr cr bal : Q) : Transaction :=
  {| date := day; description := text; debit := dr; credit := cr;
     balance := Some bal; currency := "NGN"; transaction_type := None;
     category := None; confidence := 1 |}.

(** A detection, a recognition and a report without findings. *)
Definition box (c : Q) : BoundingBox := {| bbox := []; box_confidence := c |}.

Definition recognized (c : Q) : RecognitionResult :=
  {| text := ""; rec_confidence := c; char_confidences := [] |}.

Definition clean_report : ValidationResult :=
  {| valid := true; errors := []; warnings := [] |}.

(** The weighted sum with the recognition mean as its first term, for given
    balance-accuracy and completeness scores of the transactions. *)
Definition weighted_sum_on_recognition
    (balance_accuracy completeness_score : list Transaction -> Q)
    (recognition_results : list RecognitionResult)
    (transactions : list Transaction)
    (validation_result : ValidationResult) : Q :=
  (0.4 * (Qsum (map rec_confidence recognition_results)
          / inject_Z (Z.of_nat (length recognition_results)))
   + 0.3 * calculate_validation_score (length (errors validation_result))
                                      (length (warnings validation_result))
   + 0.2 * balance_accuracy transactions
   + 0.1 * completeness_score transactions)%Q.

(** Two registered backends that both stay below a threshold of 0.7 on every
    crop, the first one being the more confident; no other name is
    registered. *)
Definition two_weak_backends (recognizer_name : string)
  : option (Recognizer unit) :=
  if String.eqb recognizer_name "trocr"
  then Some (fun _ => Some {| text := "Salary"; rec_confidence := 0.6;
                              char_confidences := [] |})
  else if String.eqb recognizer_name "paddle"
  then Some (fun _ => Some {| text := "Solary"; rec_confidence := 0.3;
                              char_confidences := [] |})
  else None.

(** The same registry, the first backend failing on every crop. *)
Definition failing_primary (recognizer_name : string) : option (Recognizer unit) :=
  if String.eqb recognizer_name "trocr" then Some (fun _ => None)
  else two_weak_backends recognizer_name.

(** A ledger whose balances satisfy the balance equation exactly and whose
    running balance reaches zero. *)
Definition emptied_account : list Transaction :=
  [entry 19723 "Opening Balance" 0 0 100;
   entry 19724 "ATM Withdrawal" 100 0 0].

(** The ledger of the end-to-end scenario. *)
Definition three_rows : list Transaction :=
  [entry 19723 "Opening Balance" 0 0 50000;
   entry 19724 "Salary Credit" 0 10000 60000;
   entry 19725 "ATM Withdrawal" 2000 0 58000].

(** The stated balances satisfy
    [balance[i] = balance[i-1] + credit[i] - debit[i]] exactly, [prev] being
    the balance before the head of the list. *)
Fixpoint exact_balances_from (prev : Q) (rest : list Transaction) : Prop :=
  match rest with
  | [] => True
  | t :: rest' =>
      match balance t with
      | Some b => (b == prev + credit t - debit t)%Q /\ exact_balances_from b rest'
      | None => False
      end
  end.

Definition exact_balances (transactions : list Transaction) : Prop :=
  match transactions with
  | [] => True
  | t :: rest =>
      match balance t with
      | Some b => exact_balances_from b rest
      | None => False
      end
  end.

(** Every balance after the first differs from zero. *)
Definition nonzero_balances (transactions : list Transaction) : Prop :=
  Forall (fun t => match balance t with
                   | Some b => ~ (b == 0)%Q
                   | None => True
                   end) (tl transactions).

End Samples.
(** * Sample rows and hosts *)

Module ImportSamples.
Import Text JS JSString.

(** A host whose [Date] constructor rejects every text, whose case
    conversions leave texts outside ASCII alone, and which renders no large
    number. *)
Definition rejecting_Date_of_string : text -> Date := fun _ => None.
Definition plain_host_case : text -> text := fun s => s.
Definition no_large_number : Q -> text := fun _ => [].

(** A row of a file with a single amount column, the amount in accounting
    notation. *)
Definition parenthesized_row : CsvParser.Row :=
  <[utf8 "date" := utf8 "15/01/2024"]>
    (<[utf8 "description" := utf8 " POS  Purchase "]>
       (<[utf8 "amount" := utf8 "(500.00)"]> ∅)).

(** A row of a sheet with separate debit and credit columns. *)
Definition debit_row : CsvParser.Row :=
  <[utf8 "date" := utf8 "15/01/2024"]>
    (<[utf8 "description" := utf8 "ATM Withdrawal"]>
       (<[utf8 "debit" := utf8 "2,000.00"]>
          (<[utf8 "credit" := utf8 ""]> ∅))).

(** Three raw rows: the second repeats the first in another letter case, the
    third has no date. *)
Definition sample_rows : list CsvParser.RawTransaction :=
  [{| CsvParser.date := utf8 "15/01/2024"; CsvParser.description := utf8 "ATM Withdrawal";
      CsvParser.amount := utf8 "-2,000.00"; CsvParser.type := None;
      CsvParser.balance := Some (utf8 "58,000.00") |};
   {| CsvParser.date := utf8 "15/01/2024"; CsvParser.description := utf8 "atm  withdrawal";
      CsvParser.amount := utf8 "-2000"; CsvParser.type := Some (utf8 "DEBIT");
      CsvParser.balance := None |};
   {| CsvParser.date := utf8 "soon"; CsvParser.description := utf8 "Salary";
      CsvParser.amount := utf8 "10000"; CsvParser.type := None;
      CsvParser.balance := None |}].

(** The words of a line as Tesseract reports them, the first entry being no
    word. *)
Definition sample_words : Tesseract.Data :=
  {| Tesseract.data_text := [EmptyString; "Salary"; "Credit"];
     Tesseract.data_conf := [-1; 90; 80]%Q |}.

End ImportSamples.

(** * Stable insertion sort *)

Section SortingFacts.
Import Sorting.
Context {A : Type}.
Variable leb : A -> A -> bool.

Lemma insert_by_perm (x : A) (l : list A) :
  Permutation (insert_by leb x l) (x :: l).
Proof.
  induction l as [|y l IH]; simpl; [reflexivity|].
  destruct (leb x y); [reflexivity|].
  rewrite IH. apply perm_swap.
Qed.

Lemma sort_by_perm (l : list A) : Permutation (sort_by leb l) l.
Proof.
  induction l as [|x l IH]; simpl; [reflexivity|].
  rewrite insert_by_perm, IH. reflexivity.
Qed.

Lemma sort_by_In (l : list A) (x : A) : In x (sort_by leb l) <-> In x l.
Proof.
  split; apply Permutation_in; [|symmetry]; apply sort_by_perm.
Qed.

(** The order needs to be total and transitive only on the elements that
    satisfy [P]. *)
Variable P : A -> Prop.
Hypothesis leb_total : forall a b, P a -> P b -> leb a b = true \/ leb b a = true.
Hypothesis leb_trans :
  forall a b c, P a -> P b -> P c -> leb a b = true -> leb b c = true -> leb a c = true.

Lemma insert_by_sorted (x : A) (l : list A) :
  P x -> Forall P l -> sorted_by leb l -> sorted_by leb (insert_by leb x l).
Proof.
  intros Px Pl Hs. induction Hs as [|y l Hs IH Hy]; simpl.
  - repeat constructor.
  - inversion Pl as [|? ? Py Pl']; subst.
    destruct (leb x y) eqn:E.
    + constructor; [constructor; assumption|].
      constructor; [exact E|].
      rewrite Forall_forall in *. intros z Hz.
      apply (leb_trans x y z); auto.
    + constructor; [apply IH; assumption|].
      assert (Hyx : leb y x = true).
      { destruct (leb_total x y Px Py) as [H|H]; [congruence | exact H]. }
      rewrite Forall_forall in *. intros z Hz.
      apply list_elem_of_In in Hz.
      apply (Permutation_in _ (insert_by_perm x l)) in Hz.
      destruct Hz as [<-|Hz]; [exact Hyx | apply Hy, list_elem_of_In, Hz].
Qed.

Lemma sort_by_sorted (l : list A) : Forall P l -> sorted_by leb (sort_by leb l).
Proof.
  induction 1 as [|x l Px Pl IH]; simpl; [constructor|].
  apply insert_by_sorted; [exact Px | | exact IH].
  rewrite Forall_forall in *. intros z Hz.
  apply Pl, list_elem_of_In, sort_by_In, list_elem_of_In, Hz.
Qed.

Lemma sorted_by_skipn (n : nat) (l : list A) : sorted_by leb l -> sorted_by leb (skipn n l).
Proof.
  revert l. induction n as [|n IH]; intros l Hs; [exact Hs|].
  destruct l as [|x l]; [constructor|]. simpl.
  inversion Hs; subst. apply IH. assumption.
Qed.

Lemma sorted_by_py_last_k (k : nat) (l : list A) :
  sorted_by leb l -> sorted_by leb (py_last_k k l).
Proof. destruct k; [trivial | apply sorted_by_skipn]. Qed.

Lemma In_py_last_k (k : nat) (l : list A) (x : A) : In x (py_last_k k l) -> In x l.
Proof.
  destruct k; [trivial|]. unfold py_last_k.
  intros H. rewrite <- (firstn_skipn (length l - S k) l).
  apply in_or_app. right. exact H.
Qed.

Lemma py_last_In (l : list A) (x : A) : py_last l = Some x -> In x l.
Proof.
  induction l as [|y l IH]; [discriminate|].
  destruct l as [|z l]; simpl.
  - intros [= ->]. left. reflexivity.
  - intros H. right. apply IH. exact H.
Qed.

Lemma py_last_nonempty (l : list A) : l <> [] -> exists x, py_last l = Some x.
Proof.
  induction l as [|y l IH]; [contradiction|]. intros _.
  destruct l as [|z l]; [eauto|]. apply IH. discriminate.
Qed.

(** The last element of a sorted list is a maximum. *)
Lemma sorted_by_last_max (l : list A) (best : A) :
  Forall P l -> sorted_by leb l -> py_last l = Some best ->
  forall b, In b l -> leb b best = true.
Proof.
  intros Pl Hs. induction Hs as [|y l Hs IH Hy]; [discriminate|].
  inversion Pl as [|? ? Py Pl']; subst.
  destruct l as [|z l].
  - simpl. intros [= <-] b [Hb|[]]. subst b.
    destruct (leb_total y y Py Py); assumption.
  - intros Hl b [Hb|Hb].
    + subst b. rewrite Forall_forall in Hy.
      apply Hy, list_elem_of_In, py_last_In. exact Hl.
    + apply IH; assumption.
Qed.

End SortingFacts.

Section SortingOfLists.
Import Sorting.

Lemma Forall_py_last_k {A : Type} (P : A -> Prop) (k : nat) (l : list A) :
  Forall P l -> Forall P (py_last_k k l).
Proof.
  intros H. apply Forall_forall. intros x Hx. rewrite Forall_forall in H.
  apply H, list_elem_of_In, (In_py_last_k k), list_elem_of_In, Hx.
Qed.

Lemma Forall_sort_by {A : Type} (P : A -> Prop) (leb : A -> A -> bool) (l : list A) :
  Forall P l -> Forall P (sort_by leb l).
Proof.
  intros H. apply Forall_forall. intros x Hx. rewrite Forall_forall in H.
  apply H, list_elem_of_In, (sort_by_In leb), list_elem_of_In, Hx.
Qed.

Lemma py_last_k_nonempty {A : Type} (k : nat) (l : list A) :
  l <> [] -> py_last_k k l <> [].
Proof.
  intros Hl. destruct k as [|k]; [exact Hl|]. unfold py_last_k.
  intros E. apply (f_equal (@length A)) in E. rewrite length_skipn in E.
  destruct l; [contradiction|]. simpl in E. lia.
Qed.

Lemma sort_by_nonempty {A : Type} (leb : A -> A -> bool) (l : list A) :
  l <> [] -> sort_by leb l <> [].
Proof.
  intros Hl E. apply Hl. apply Permutation_nil.
  rewrite <- E. apply sort_by_perm.
Qed.

End SortingOfLists.

(** * Deduplication keeps first occurrences *)

Section Dedup.
Import Normalizer.

Lemma first_occurrence_b_spec whole i t :
  first_occurrence_b whole i t = negb (bool_decide (hash t ∈ hashes (take i whole))).
Proof.
  unfold first_occurrence_b, hashes.
  induction (take i whole) as [|a p IH]; simpl.
  - rewrite bool_decide_eq_false_2; [done | set_solver].
  - rewrite IH. destruct (String.eqb_spec (hash a) (hash t)) as [E|E]; simpl.
    + rewrite bool_decide_eq_true_2; [done | set_solver].
    + destruct (decide (hash t ∈ (list_to_set (hash <$> p) : gset string))) as [H|H].
      * rewrite !bool_decide_eq_true_2; [done | set_solver | set_solver].
      * rewrite !bool_decide_eq_false_2; [done | set_solver | set_solver].
Qed.

(** Loop invariant of [deduplicateTransactions], stated for an arbitrary
    split of the input into the part already read and the part to come. *)
Lemma dedup_fold_invariant (rest p : list NormalizedTransaction) (st : dedup_state) :
  seen st = hashes p ->
  let st' := fold_left dedup_step rest st in
  unique st' = unique st ++ first_occurrences_from (p ++ rest) (length p) rest
  /\ (length (unique st') + duplicates st'
      = length (unique st) + duplicates st + length rest)%nat
  /\ seen st' = hashes (p ++ rest).
Proof.
  revert p st. induction rest as [|t rest IH]; intros p st Hseen; simpl.
  - rewrite !app_nil_r. repeat split; [lia | done].
  - assert (Htake : take (length p) (p ++ t :: rest) = p)
      by (rewrite take_app_length; done).
    rewrite first_occurrence_b_spec, Htake.
    specialize (IH (p ++ [t]) (dedup_step st t)).
    rewrite <- app_assoc in IH. simpl in IH.
    rewrite length_app in IH. simpl in IH.
    replace (length p + 1)%nat with (S (length p)) in IH by lia.
    unfold dedup_step in *. rewrite Hseen in *.
    destruct (bool_decide (hash t ∈ hashes p)) eqn:E; simpl in *.
    + destruct IH as (IH1 & IH2 & IH3).
      { apply bool_decide_eq_true in E. unfold hashes in *.
        rewrite fmap_app, list_to_set_app_L. simpl. set_solver. }
      split; [done|]. split; [lia | done].
    + destruct IH as (IH1 & IH2 & IH3).
      { unfold hashes. rewrite fmap_app, list_to_set_app_L. simpl. set_solver. }
      rewrite length_app in IH2. simpl in IH2.
      split; [by rewrite IH1, <- app_assoc|]. split; [lia | done].
Qed.

Lemma first_occurrences_from_sublist whole i rest :
  sublist (first_occurrences_from whole i rest) rest.
Proof.
  revert i. induction rest as [|t rest IH]; intros i; simpl; [constructor|].
  destruct (first_occurrence_b whole i t); simpl.
  - apply sublist_skip, IH.
  - apply sublist_cons, IH.
Qed.

Lemma first_occurrences_from_hashes p rest :
  NoDup (hash <$> first_occurrences_from (p ++ rest) (length p) rest)
  /\ (forall h, h ∈ hash <$> first_occurrences_from (p ++ rest) (length p) rest ->
                h ∉ hashes p)
  /\ (forall t, t ∈ rest ->
        hash t ∈ hashes p \/
        hash t ∈ hash <$> first_occurrences_from (p ++ rest) (length p) rest).
Proof.
  revert p. induction rest as [|t rest IH]; intros p; simpl.
  - split; [constructor|]. split; [intros h Hh; inversion Hh|intros t Ht; inversion Ht].
  - specialize (IH (p ++ [t])).
    rewrite <- app_assoc, length_app in IH. simpl in IH.
    replace (length p + 1)%nat with (S (length p)) in IH by lia.
    destruct IH as (IH1 & IH2 & IH3).
    assert (Hp : hashes (p ++ [t]) = hashes p ∪ {[hash t]}).
    { unfold hashes. rewrite fmap_app, list_to_set_app_L. simpl. set_solver. }
    rewrite first_occurrence_b_spec, take_app_length.
    destruct (bool_decide (hash t ∈ hashes p)) eqn:E; simpl.
    + apply bool_decide_eq_true in E.
      split; [done|]. split.
      * intros h Hh Hin. apply (IH2 h Hh). rewrite Hp. set_solver.
      * intros t' Ht'. apply elem_of_cons in Ht' as [->|Ht']; [by left|].
        destruct (IH3 t' Ht') as [H|H]; [|by right].
        rewrite Hp in H. apply elem_of_union in H as [H|H]; [by left|].
        apply elem_of_singleton in H. left. by rewrite H.
    + apply bool_decide_eq_false in E.
      split; [|split].
      * constructor; [|done]. intros Hin. apply (IH2 _ Hin). rewrite Hp. set_solver.
      * intros h Hh Hin. apply elem_of_cons in Hh as [->|Hh]; [done|].
        apply (IH2 h Hh). rewrite Hp. set_solver.
      * intros t' Ht'. apply elem_of_cons in Ht' as [->|Ht']; [right; set_solver|].
        destruct (IH3 t' Ht') as [H|H]; [|right; set_solver].
        rewrite Hp in H. apply elem_of_union in H as [H|H]; [by left|].
        apply elem_of_singleton in H. right. rewrite H. set_solver.
Qed.

(** C10. [deduplicateTransactions] returns, in input order, exactly the
    elements that are the first occurrence of their hash: the result is the
    index-wise filter [first_occurrences], a sublist of the input whose hashes
    are pairwise distinct and cover every hash of the input, and the length of
    [unique] plus [duplicates] is the length of the input. *)
Theorem deduplicateTransactions_first_occurrences
    (transactions : list NormalizedTransaction) :
  let '(unique, duplicates) := deduplicateTransactions transactions in
  unique = first_occurrences transactions
  /\ sublist unique transactions
  /\ NoDup (hash <$> unique)
  /\ (forall t, t ∈ transactions -> hash t ∈ hash <$> unique)
  /\ (length unique + duplicates = length transactions)%nat.
Proof.
  unfold deduplicateTransactions.
  pose proof (dedup_fold_invariant transactions []
                {| seen := ∅; unique := []; duplicates := 0 |}) as H.
  simpl in H. destruct H as (H1 & H2 & _); [done|].
  fold (first_occurrences transactions) in H1.
  rewrite H1. split; [done|].
  split; [apply first_occurrences_from_sublist|].
  destruct (first_occurrences_from_hashes [] transactions) as (N1 & _ & N3).
  simpl in N1, N3. fold (first_occurrences transactions) in N1, N3.
  split; [done|]. split.
  - intros t Ht. destruct (N3 t Ht) as [H|H]; [|done].
    unfold hashes in H. simpl in H. set_solver.
  - rewrite <- H1. lia.
Qed.

End Dedup.

(** * The amount parsers *)

Section AmountParsers.
Import Text LedgerRules.

(** C2. On the representative values, [parse_amount] of the ledger rules
    strips the currency sign and the thousands separators and reads the
    parentheses as a negation, but it raises on ["1,234.56 Dr"] (only [DR] and
    [dr] are removed, so the text given to [Decimal] is ["-1234.56 Dr"]) and
    on the trailing minus of ["1234.56-"]. [parseAmount] of the normalizer
    gives NaN for the naira sign and drops the sign of the last two values. *)
Theorem parse_amount_representative_values :
  parse_amount (utf8 "₦1,234.56") = Some (Finite false 123456 (-2))
  /\ parse_amount (utf8 "(500.00)") = Some (Finite true 50000 (-2))
  /\ parse_amount (utf8 "1,234.56 Dr") = None
  /\ parse_amount (utf8 "1234.56-") = None
  /\ Normalizer.parseAmount (utf8 "₦1,234.56") = JS.NaN
  /\ JS.strict_eq (Normalizer.parseAmount (utf8 "(500.00)")) (JS.Num (-500)) = true
  /\ JS.strict_eq (Normalizer.parseAmount (utf8 "1,234.56 Dr")) (JS.Num 1234.56) = true
  /\ JS.strict_eq (Normalizer.parseAmount (utf8 "1234.56-")) (JS.Num 1234.56) = true.
Proof. repeat split; vm_compute; reflexivity. Qed.

(** The values of the two amounts that are parsed, and the forms of the debit
    suffix that [parse_amount] does handle. *)
Lemma parse_amount_values :
  (parse_amount (utf8 "₦1,234.56") ≫= Decimal_to_Q) = Some 1234.56%Q
  /\ (parse_amount (utf8 "(500.00)") ≫= Decimal_to_Q) = Some (-500.00)%Q
  /\ parse_amount (utf8 "1,234.56 DR") = Some (Finite true 123456 (-2))
  /\ parse_amount (utf8 "1,234.56 dr") = Some (Finite true 123456 (-2))
  /\ parse_amount (utf8 "-1234.56") = Some (Finite true 123456 (-2)).
Proof. repeat split; vm_compute; reflexivity. Qed.

End AmountParsers.

(** * The date parser of the normalizer *)

Section DateParser.
Import Text JS Normalizer DateFormats.

(** ** Numbers that are integers *)

Lemma truncate_inject_Z z : truncate (inject_Z z) = z.
Proof.
  unfold truncate. destruct (Qle_bool 0 (inject_Z z)).
  - apply Qfloor_Z.
  - apply Qceiling_Z.
Qed.

Lemma truncate_add_Z a b : truncate (inject_Z a + inject_Z b) = a + b.
Proof.
  assert (E : (inject_Z a + inject_Z b == inject_Z (a + b))%Q)
    by (rewrite inject_Z_plus; reflexivity).
  unfold truncate.
  rewrite E, (Qfloor_comp _ _ E), (Qceiling_comp _ _ E).
  apply truncate_inject_Z.
Qed.

Lemma truncate_sub_Z a b : truncate (inject_Z a + - inject_Z b) = a - b.
Proof.
  assert (E : (inject_Z a + - inject_Z b == inject_Z (a - b))%Q).
  { unfold Z.sub. rewrite inject_Z_plus, inject_Z_opp. reflexivity. }
  unfold truncate.
  rewrite E, (Qfloor_comp _ _ E), (Qceiling_comp _ _ E).
  apply truncate_inject_Z.
Qed.

Lemma lt_of_Z a b : lt (of_Z a) (of_Z b) = (a <? b).
Proof.
  unfold lt, of_Z, Qle_bool. simpl. rewrite !Z.mul_1_r.
  symmetry. apply Z.ltb_antisym.
Qed.

Lemma strict_eq_of_Z a b : strict_eq (of_Z a) (of_Z b) = (a =? b).
Proof.
  unfold strict_eq, of_Z, Qeq_bool. simpl. rewrite !Z.mul_1_r.
  destruct (Z.eqb_spec a b) as [->|E].
  - destruct (Z.eq_dec b b); try contradiction; reflexivity.
  - destruct (Z.eq_dec a b); try contradiction; reflexivity.
Qed.

(** [new Date(y, m - 1, d)] on integers, for a year outside 0..99. *)
Lemma Date_ymd_of_Z (base yy m d : Z) :
  (0 <=? base + yy) && (base + yy <=? 99) = false ->
  Date_ymd (add (of_Z base) (of_Z yy)) (sub (of_Z m) (of_Z 1)) (of_Z d) =
  let tv := (days_from_civil (base + yy + (m - 1) / 12) ((m - 1) mod 12 + 1) 1 + d - 1)
            * msPerDay in
  if Z.abs tv <=? 8640000000000000 then Some tv else None.
Proof.
  intros Hy. unfold Date_ymd, sub, of_Z. cbn [add neg].
  rewrite truncate_add_Z, truncate_sub_Z, truncate_inject_Z, Hy. reflexivity.
Qed.

Lemma days_from_civil_day y m d :
  days_from_civil y m 1 + d - 1 = days_from_civil y m d.
Proof. unfold days_from_civil. lia. Qed.

(** ** The calendar over the expanded years *)

Lemma In_Z_range lo n z :
  Z.of_nat lo <= z < Z.of_nat lo + Z.of_nat n -> In z (Z_range lo n).
Proof.
  intros H. unfold Z_range. apply in_map_iff. exists (Z.to_nat z).
  split; [lia|]. apply in_seq. lia.
Qed.

(** Exhaustive check over every two-digit year, month and day. *)
Lemma calendar_checked :
  forallb (fun yy =>
    forallb (fun mm => forallb (calendar_okb yy mm) (Z_range 1 31)) (Z_range 1 12))
    (Z_range 0 100) = true.
Proof. vm_compute. reflexivity. Qed.

Lemma calendar_two_digit_years dd mm yy :
  0 <= yy <= 99 -> 1 <= mm <= 12 -> 1 <= dd <= days_in_month (expand_year yy) mm ->
  snd (civil_from_days (days_from_civil (expand_year yy) mm dd)) = dd
  /\ Z.abs (days_from_civil (expand_year yy) mm dd * msPerDay) <= 8640000000000000.
Proof.
  intros Hyy Hmm Hdd.
  assert (Hd31 : dd <= 31).
  { destruct Hdd as [_ Hd]. unfold days_in_month in Hd.
    repeat match type of Hd with context [if ?c then _ else _] => destruct c end; lia. }
  assert (Iy : In yy (Z_range 0 100)) by (apply In_Z_range; simpl; lia).
  assert (Im : In mm (Z_range 1 12)) by (apply In_Z_range; simpl; lia).
  assert (Id : In dd (Z_range 1 31)) by (apply In_Z_range; simpl; lia).
  pose proof calendar_checked as C.
  rewrite forallb_forall in C. specialize (C yy Iy).
  rewrite forallb_forall in C. specialize (C mm Im).
  rewrite forallb_forall in C. specialize (C dd Id).
  unfold calendar_okb in C.
  apply orb_true_iff in C as [C|C].
  - apply negb_true_iff, Z.leb_gt in C. lia.
  - apply andb_true_iff in C as [C1 C2].
    apply Z.eqb_eq in C1. apply Z.leb_le in C2. auto.
Qed.

Lemma expand_year_range yy :
  0 <= yy <= 99 -> 1951 <= expand_year yy <= 2050.
Proof. unfold expand_year. destruct (Z.ltb_spec 50 yy); lia. Qed.

(** The day-first reading of three integers. *)
Lemma parseDate_numbers_day_first dd mm yy :
  0 <= yy <= 99 -> 1 <= mm <= 12 -> 1 <= dd <= days_in_month (expand_year yy) mm ->
  parseDate_numbers (of_Z dd) (of_Z mm) (of_Z yy)
  = Some (date_value (expand_year yy) mm dd).
Proof.
  intros Hyy Hmm Hdd.
  destruct (calendar_two_digit_years dd mm yy Hyy Hmm Hdd) as [Hday Hclip].
  pose proof (expand_year_range yy Hyy) as Hy.
  assert (Hdiv : (mm - 1) / 12 = 0) by (apply Z.div_small; lia).
  assert (Hmod : (mm - 1) mod 12 = mm - 1) by (apply Z.mod_small; lia).
  unfold parseDate_numbers. unfold gt. rewrite !lt_of_Z.
  assert (H100 : (yy <? 100) = true) by (apply Z.ltb_lt; lia).
  rewrite H100.
  assert (E : Date_ymd
                (if 50 <? yy then add (of_Z 1900) (of_Z yy) else add (of_Z 2000) (of_Z yy))
                (sub (of_Z mm) (of_Z 1)) (of_Z dd)
              = Some (date_value (expand_year yy) mm dd)).
  { unfold expand_year in *.
    destruct (50 <? yy) eqn:E50;
      (rewrite Date_ymd_of_Z by (apply andb_false_iff; right; apply Z.leb_gt; lia));
      cbv zeta; rewrite Hdiv, Hmod, Z.add_0_r;
      replace (mm - 1 + 1) with mm by lia;
      rewrite days_from_civil_day;
      match goal with
      | |- context [Z.abs ?t <=? ?b] => destruct (Z.leb_spec (Z.abs t) b)
      end; [reflexivity | lia | reflexivity | lia]. }
  rewrite E. simpl getTime. simpl isNaN. simpl negb.
  unfold getDate, date_value.
  rewrite Z.div_mul by (unfold msPerDay; lia).
  rewrite strict_eq_of_Z, Hday, Z.eqb_refl. reflexivity.
Qed.


(** ** The text [DD<sep>MM<sep>YY] *)

Lemma split_on_plain (p : N -> bool) (a : text) :
  forallb (fun c => negb (p c)) a = true -> split_on p a = [a].
Proof.
  induction a as [|c a IH]; simpl; [reflexivity|].
  intros H. apply andb_true_iff in H as [Hc Ha].
  apply negb_true_iff in Hc. rewrite Hc, (IH Ha). reflexivity.
Qed.

Lemma split_on_sep (p : N -> bool) (a : text) (c : N) (rest : text) :
  forallb (fun c => negb (p c)) a = true -> p c = true ->
  split_on p (a ++ c :: rest) = a :: split_on p rest.
Proof.
  intros Ha Hc. induction a as [|d a IH]; simpl.
  - rewrite Hc. reflexivity.
  - simpl in Ha. apply andb_true_iff in Ha as [Hd Ha].
    apply negb_true_iff in Hd. rewrite Hd, (IH Ha). reflexivity.
Qed.

Lemma number_same_eq a b : number_same a b = true -> a = b.
Proof.
  destruct a as [|[pn pd]|s], b as [|[qn qd]|t]; simpl; try discriminate; try reflexivity.
  - intros H. apply andb_true_iff in H as [H1 H2].
    apply Z.eqb_eq in H1. apply Pos.eqb_eq in H2. subst. reflexivity.
  - intros H. apply Bool.eqb_prop in H. subst. reflexivity.
Qed.

Lemma two_digits_checked : forallb two_digits_okb (Z_range 0 100) = true.
Proof. vm_compute. reflexivity. Qed.

(** Two-digit texts: neither separators nor spaces, and [Number] reads them
    back. *)
Lemma two_digits_spec n :
  0 <= n <= 99 ->
  forallb (fun c => negb (separator c)) (two_digits n) = true
  /\ forallb (fun c => negb (is_space c)) (two_digits n) = true
  /\ Number (two_digits n) = of_Z n.
Proof.
  intros H.
  assert (I : In n (Z_range 0 100)) by (apply In_Z_range; simpl; lia).
  pose proof two_digits_checked as C.
  rewrite forallb_forall in C. specialize (C n I).
  unfold two_digits_okb in C.
  apply andb_true_iff in C as [C C3]. apply andb_true_iff in C as [C1 C2].
  auto using number_same_eq.
Qed.

Lemma strip_with_plain (ws : N -> bool) (c d : N) (mid : text) :
  ws c = false -> ws d = false ->
  strip_with ws (c :: mid ++ [d]) = c :: mid ++ [d].
Proof.
  intros Hc Hd. unfold strip_with. simpl. rewrite Hc. simpl.
  rewrite rev_app_distr. simpl. rewrite Hd. simpl.
  rewrite rev_app_distr, rev_involutive. reflexivity.
Qed.

Lemma trim_dmy_text sep dd mm yy :
  0 <= dd <= 99 -> 0 <= yy <= 99 ->
  trim (dmy_text sep dd mm yy) = dmy_text sep dd mm yy.
Proof.
  intros Hdd Hyy.
  destruct (two_digits_spec dd Hdd) as (_ & Sd & _).
  destruct (two_digits_spec yy Hyy) as (_ & Sy & _).
  unfold dmy_text, two_digits in *. simpl in Sd, Sy.
  apply andb_true_iff in Sd as [Sd _]. apply negb_true_iff in Sd.
  apply andb_true_iff in Sy as [_ Sy]. apply andb_true_iff in Sy as [Sy _].
  apply negb_true_iff in Sy.
  unfold trim. simpl.
  change [?a; ?b; ?c; ?d; ?e; ?f; ?g; ?h] with (a :: [b; c; d; e; f; g] ++ [h]).
  apply strip_with_plain; assumption.
Qed.

Lemma parseDate_parts_dmy sep dd mm yy :
  separator sep = true ->
  0 <= yy <= 99 -> 1 <= mm <= 12 -> 1 <= dd <= days_in_month (expand_year yy) mm ->
  parseDate_parts (dmy_text sep dd mm yy) = Some (date_value (expand_year yy) mm dd).
Proof.
  intros Hsep Hyy Hmm Hdd.
  assert (Hd99 : 0 <= dd <= 99).
  { destruct Hdd as [? Hd]. unfold days_in_month in Hd.
    repeat match type of Hd with context [if ?c then _ else _] => destruct c end; lia. }
  destruct (two_digits_spec dd Hd99) as (Pd & _ & Nd).
  destruct (two_digits_spec mm ltac:(lia)) as (Pm & _ & Nm).
  destruct (two_digits_spec yy Hyy) as (Py & _ & Ny).
  unfold parseDate_parts. fold separator. unfold dmy_text. cbn [app].
  rewrite (split_on_sep separator _ sep _ Pd Hsep).
  rewrite (split_on_sep separator _ sep _ Pm Hsep).
  rewrite (split_on_plain separator _ Py).
  cbn [map]. rewrite Nd, Nm, Ny.
  apply parseDate_numbers_day_first; assumption.
Qed.

(** C7. In [parseDate], the result of the [Date] constructor on the text comes
    first; when it is an Invalid Date, a text [DD/MM/YY] (the separator may
    also be [-] or [.]) with a day that exists in its month is read day first,
    and the two-digit year is expanded to 19YY when YY > 50 and to 20YY
    otherwise, so that 50 gives 2050. *)
Theorem parseDate_two_digit_year (host : text -> JS.Date) (sep : N) (dd mm yy : Z) :
  sep = 47%N \/ sep = 45%N \/ sep = 46%N ->
  0 <= yy <= 99 -> 1 <= mm <= 12 -> 1 <= dd <= days_in_month (expand_year yy) mm ->
  parseDate host (dmy_text sep dd mm yy) =
    match host (dmy_text sep dd mm yy) with
    | Some tv => Some tv
    | None => Some (date_value (if 50 <? yy then 1900 + yy else 2000 + yy) mm dd)
    end.
Proof.
  intros Hsep Hyy Hmm Hdd.
  assert (Hd99 : 0 <= dd <= 99).
  { destruct Hdd as [? Hd]. unfold days_in_month in Hd.
    repeat match type of Hd with context [if ?c then _ else _] => destruct c end; lia. }
  unfold parseDate. rewrite (trim_dmy_text sep dd mm yy Hd99 Hyy).
  destruct (host (dmy_text sep dd mm yy)) as [tv|]; simpl; [reflexivity|].
  apply parseDate_parts_dmy; try assumption.
  destruct Hsep as [->|[->| ->]]; reflexivity.
Qed.

Lemma parseDate_two_digit_year_witness :
  1 <= 13 <= days_in_month (expand_year 50) 1
  /\ parseDate iso_date_host (utf8 "13/01/50") = Some (date_value 2050 1 13).
Proof.
  split; [change (1 <= 13 <= 31); lia|].
  apply (parseDate_two_digit_year iso_date_host 47%N 13 1 50);
    [left; reflexivity | lia | lia | change (1 <= 13 <= 31); lia].
Defined.

(** The year 50 is not read as 1950. *)
Lemma parseDate_year_50_is_not_1950 :
  parseDate iso_date_host (utf8 "13/01/50") <> Some (date_value 1950 1 13).
Proof. vm_compute. discriminate. Qed.

(** C6. Whatever the [Date] constructor makes of it, ["32/01/2024"] is never
    rejected by [parseDate]: when the constructor yields an Invalid Date, the
    day-first reading fails on the day of the month, and the month-first
    reading takes 32 as the month and returns the 1st of August 2026. *)
Theorem parseDate_day_32_not_rejected (host : text -> JS.Date) :
  parseDate host (utf8 "32/01/2024") =
    match host (utf8 "32/01/2024") with
    | Some tv => Some tv
    | None => Some (date_value 2026 8 1)
    end.
Proof.
  unfold parseDate.
  change (trim (utf8 "32/01/2024")) with (utf8 "32/01/2024").
  destruct (host (utf8 "32/01/2024")) as [tv|]; simpl; [reflexivity|].
  vm_compute. reflexivity.
Qed.

(** The other inputs of the date examples. The slash forms are read day first
    when the [Date] constructor rejects them; the month name of
    ["01-Jan-2024"] is only understood by the constructor. *)
Lemma parseDate_examples_any_host (host : text -> JS.Date) :
  parseDate host (utf8 "01/01/2024")
  = match host (utf8 "01/01/2024") with
    | Some tv => Some tv
    | None => Some (date_value 2024 1 1)
    end
  /\ parseDate host (utf8 "01/01/24")
     = match host (utf8 "01/01/24") with
       | Some tv => Some tv
       | None => Some (date_value 2024 1 1)
       end
  /\ parseDate host (utf8 "01-Jan-2024") = host (utf8 "01-Jan-2024").
Proof.
  unfold parseDate.
  change (trim (utf8 "01/01/2024")) with (utf8 "01/01/2024").
  change (trim (utf8 "01/01/24")) with (utf8 "01/01/24").
  change (trim (utf8 "01-Jan-2024")) with (utf8 "01-Jan-2024").
  repeat split.
  - destruct (host (utf8 "01/01/2024")); simpl; [reflexivity | vm_compute; reflexivity].
  - destruct (host (utf8 "01/01/24")); simpl; [reflexivity | vm_compute; reflexivity].
  - destruct (host (utf8 "01-Jan-2024")); simpl; [reflexivity | vm_compute; reflexivity].
Qed.

(** The same inputs on a host that only accepts the calendar-date form. *)
Lemma parseDate_examples_iso_host :
  parseDate iso_date_host (utf8 "2024-01-01") = Some (date_value 2024 1 1)
  /\ parseDate iso_date_host (utf8 "01/01/2024") = Some (date_value 2024 1 1)
  /\ parseDate iso_date_host (utf8 "01/01/24") = Some (date_value 2024 1 1)
  /\ parseDate iso_date_host (utf8 "01-Jan-2024") = None
  /\ parseDate iso_date_host (utf8 "32/01/2024") = Some (date_value 2026 8 1).
Proof. repeat split; vm_compute; reflexivity. Qed.

End DateParser.

(** * The validator and duplicate findings *)

Section DuplicateFindings.
Import Schema Validators Samples.

Variable validate_date : Transaction -> list ValidationError.
Variable validate_amount : Transaction -> list ValidationError.
Variable validate_balance_consistency : list Transaction -> list ValidationError.

Lemma first_match_found t a i earlier :
  In a earlier -> same_transaction a t = true ->
  exists k, first_match t i earlier = Some k.
Proof.
  revert i. induction earlier as [|e earlier IH]; intros i Hin Hs; [destruct Hin|].
  simpl. destruct (same_transaction e t) eqn:E; [eauto|].
  destruct Hin as [->|Hin]; [congruence|]. eauto.
Qed.

Lemma detect_duplicates_from_found rest : forall seen k a b,
  rest !! k = Some b -> In a (seen ++ take k rest) -> same_transaction a b = true ->
  detect_duplicates_from seen rest <> [].
Proof.
  induction rest as [|t rest IH]; intros seen k a b Hk Hin Hs; [discriminate|].
  destruct k as [|k]; simpl in *.
  - injection Hk as ->. rewrite app_nil_r in Hin.
    destruct (first_match_found b a 0 seen Hin Hs) as [i ->]. discriminate.
  - intros E. apply app_eq_nil in E as [_ E].
    apply (IH (seen ++ [t]) k a b Hk); [|assumption|assumption].
    rewrite <- app_assoc. exact Hin.
Qed.

Lemma detect_duplicates_from_warnings rest : forall seen,
  Forall (fun e => severity e = WARNING) (detect_duplicates_from seen rest).
Proof.
  induction rest as [|t rest IH]; intros seen; simpl; [constructor|].
  apply Forall_app. split; [|apply IH].
  destruct (first_match t 0 seen); repeat constructor.
Qed.

Lemma fold_checks_nil (txns : list Transaction) (acc : list ValidationError) :
  (forall t, In t txns -> validate_date t = []) ->
  (forall t, In t txns -> validate_amount t = []) ->
  fold_left (fun errors txn => (errors ++ validate_date txn) ++ validate_amount txn)
            txns acc = acc.
Proof.
  revert acc. induction txns as [|t txns IH]; intros acc Hd Ha; simpl; [reflexivity|].
  rewrite (Hd t), (Ha t) by (left; reflexivity). rewrite !app_nil_r.
  apply IH; intros; [apply Hd | apply Ha]; right; assumption.
Qed.

(** C3. When two transactions of the list have the same date, amount and
    description and every other check passes, [validate_transactions] files
    the duplicate findings (whose severity reads WARNING) under [errors]: the
    report has no warning and [valid] is false. *)
Theorem validate_transactions_duplicate_is_error
    (txns : list Transaction) (i j : nat) (a b : Transaction) :
  (forall t, In t txns -> validate_date t = []) ->
  (forall t, In t txns -> validate_amount t = []) ->
  validate_balance_consistency txns = [] ->
  (i < j)%nat -> txns !! i = Some a -> txns !! j = Some b ->
  same_transaction a b = true ->
  let report := validate_transactions validate_date validate_amount
                  validate_balance_consistency txns in
  valid report = false
  /\ warnings report = []
  /\ errors report = detect_duplicates txns
  /\ errors report <> []
  /\ Forall (fun e => severity e = WARNING) (errors report).
Proof.
  intros Hd Ha Hb Hij Hi Hj Hs. unfold validate_transactions. simpl.
  rewrite fold_checks_nil by assumption. rewrite Hb. simpl.
  assert (Hne : detect_duplicates txns <> []).
  { unfold detect_duplicates.
    apply (detect_duplicates_from_found txns [] j a b Hj); [|assumption].
    simpl. apply list_elem_of_In, list_elem_of_lookup. exists i.
    rewrite lookup_take_lt by lia. exact Hi. }
  repeat split; try assumption.
  - destruct (detect_duplicates txns); [contradiction|reflexivity].
  - apply detect_duplicates_from_warnings.
Qed.

End DuplicateFindings.

Section DuplicateFindingsWitness.
Import Schema Validators Samples.

Lemma validate_transactions_duplicate_is_error_witness :
  let t := entry 19723 "ATM Withdrawal" 1000 0 49000 in
  let report := validate_transactions (fun _ => []) (fun _ => []) (fun _ => []) [t; t] in
  same_transaction t t = true
  /\ valid report = false /\ warnings report = [] /\ errors report <> [].
Proof.
  intros t report. split; [reflexivity|].
  destruct (validate_transactions_duplicate_is_error
              (fun _ => []) (fun _ => []) (fun _ => []) [t; t] 0 1 t t
              (fun _ _ => eq_refl) (fun _ _ => eq_refl) eq_refl
              (le_n 1) eq_refl eq_refl eq_refl) as (H1 & H2 & _ & H4 & _).
  repeat split; assumption.
Defined.

End DuplicateFindingsWitness.

(** * Document confidence *)

Section DocumentConfidence.
Import Schema Validators Confidence Samples.

Local Open Scope Q_scope.

(** The score of [compute_document_confidence] moves with the detection
    confidences, which the weighted sum on the recognition mean does not
    read: no choice of balance-accuracy and completeness scores makes the two
    agree. *)
Lemma document_confidence_is_not_the_weighted_sum :
  ~ exists balance_accuracy completeness_score : list Transaction -> Q,
      forall detection_boxes recognition_results transactions validation_result c,
        compute_document_confidence detection_boxes recognition_results
          transactions validation_result = Some c ->
        c == weighted_sum_on_recognition balance_accuracy completeness_score
               recognition_results transactions validation_result.
Proof.
  intros (ba & cs & H).
  pose proof (H [box 0] [recognized 1] [] clean_report _ eq_refl) as H0.
  pose proof (H [box 1] [recognized 1] [] clean_report _ eq_refl) as H1.
  rewrite <- H1 in H0. vm_compute in H0. discriminate.
Qed.

Lemma mean_nonempty (l : list Q) :
  l <> [] -> mean l = Some (Qsum l / inject_Z (Z.of_nat (length l))).
Proof. destruct l; [contradiction | reflexivity]. Qed.

(** C4. With at least one detection and one recognition,
    [compute_document_confidence] returns
    0.2 x mean detection confidence + 0.4 x mean recognition confidence
    + 0.4 x (1 if the report is valid, else 0.5); the transactions and the
    numbers of errors and warnings do not enter. The four-term weighted sum is
    the formula of [calculate_document_confidence], whose first term is
    0.4 x the OCR confidence, the OCR confidence being the average of the mean
    detection and the mean recognition confidence, and whose validation score
    is max(0, 1 - 0.1 x errors - 0.05 x warnings). *)
Theorem compute_document_confidence_formula
    (detection_boxes : list BoundingBox)
    (recognition_results : list RecognitionResult)
    (transactions : list Transaction)
    (validation_result : ValidationResult) :
  detection_boxes <> [] -> recognition_results <> [] ->
  let det_mean := Qsum (map box_confidence detection_boxes)
                  / inject_Z (Z.of_nat (length detection_boxes)) in
  let rec_mean := Qsum (map rec_confidence recognition_results)
                  / inject_Z (Z.of_nat (length recognition_results)) in
  compute_document_confidence detection_boxes recognition_results transactions
    validation_result
  = Some (0.2 * det_mean + 0.4 * rec_mean
          + 0.4 * (if valid validation_result then 1.0 else 0.5))
  /\ forall balance_accuracy completeness_score : Q,
       exists ocr_confidence,
         calculate_ocr_confidence (map box_confidence detection_boxes)
                                  (map rec_confidence recognition_results)
         = Some ocr_confidence
         /\ calculate_document_confidence ocr_confidence
              (calculate_validation_score (length (errors validation_result))
                                          (length (warnings validation_result)))
              balance_accuracy completeness_score
            == 0.2 * det_mean + 0.2 * rec_mean
               + 0.3 * Qmax 0 (1 - 0.1 * inject_Z (Z.of_nat (length (errors validation_result)))
                                 - 0.05 * inject_Z (Z.of_nat (length (warnings validation_result))))
               + 0.2 * balance_accuracy + 0.1 * completeness_score.
Proof.
  intros Hd Hr det_mean rec_mean.
  assert (Hd' : map box_confidence detection_boxes <> [])
    by (destruct detection_boxes; [contradiction | discriminate]).
  assert (Hr' : map rec_confidence recognition_results <> [])
    by (destruct recognition_results; [contradiction | discriminate]).
  unfold compute_document_confidence, calculate_ocr_confidence.
  rewrite (mean_nonempty _ Hd'), (mean_nonempty _ Hr'), !length_map.
  fold det_mean rec_mean. split.
  - destruct (valid validation_result); reflexivity.
  - intros ba cs. eexists. split; [reflexivity|].
    unfold calculate_document_confidence, calculate_validation_score.
    set (e := inject_Z (Z.of_nat (length (errors validation_result)))).
    set (w := inject_Z (Z.of_nat (length (warnings validation_result)))).
    assert (E : 1.0 - e * 0.1 - w * 0.05 == 1 - 0.1 * e - 0.05 * w) by ring.
    assert (Z0 : 0.0 == 0) by reflexivity.
    rewrite E, Z0. set (v := Qmax 0 (1 - 0.1 * e - 0.05 * w)). field.
Qed.

Lemma compute_document_confidence_formula_witness :
  [box 1] <> [] /\ [recognized 1] <> []
  /\ compute_document_confidence [box 1] [recognized 1] [] clean_report
     = Some (0.2 * (Qsum [1] / inject_Z 1) + 0.4 * (Qsum [1] / inject_Z 1) + 0.4 * 1.0).
Proof.
  split; [discriminate|]. split; [discriminate|].
  apply (compute_document_confidence_formula [box 1] [recognized 1] [] clean_report);
    discriminate.
Defined.

(** Without a detection or without a recognition the mean divides by zero. *)
Lemma compute_document_confidence_empty
    (detection_boxes : list BoundingBox)
    (recognition_results : list RecognitionResult)
    (transactions : list Transaction)
    (validation_result : ValidationResult) :
  detection_boxes = [] \/ recognition_results = [] ->
  compute_document_confidence detection_boxes recognition_results transactions
    validation_result = None.
Proof.
  unfold compute_document_confidence. intros [-> | ->]; [reflexivity|].
  destruct (mean (map box_confidence detection_boxes)); reflexivity.
Qed.

End DocumentConfidence.

(** * The fallback chain *)

Section FallbackChain.
Import Confidence Orchestrator Samples.

Variable Crop : Type.
Variable get_recognizer : string -> option (Recognizer Crop).
Variable confidence_threshold : Q.

Abbreviation answers := (answers Crop get_recognizer).
Abbreviation reaches := (reaches Crop get_recognizer confidence_threshold).
Abbreviation below := (below Crop get_recognizer confidence_threshold).
Abbreviation raises := (raises Crop get_recognizer).
Abbreviation first_success := (first_success Crop get_recognizer confidence_threshold).
Abbreviation all_below := (all_below Crop get_recognizer confidence_threshold).
Abbreviation last_tried := (last_tried Crop get_recognizer confidence_threshold).
Abbreviation aborts := (aborts Crop get_recognizer confidence_threshold).
Abbreviation try_recognizers :=
  (try_recognizers Crop get_recognizer confidence_threshold).
Abbreviation process_crops := (process_crops Crop get_recognizer confidence_threshold).

Lemma last_tried_all_below (chain : list string) (crop : Crop) (res : RecognitionResult) :
  last_tried chain crop res -> all_below chain crop res.
Proof.
  intros (Hb & front & name & -> & Ha). split; [exact Hb|].
  exists name. split; [apply in_or_app; right; left; reflexivity | exact Ha].
Qed.

(** The inner loop: it leaves by [break] with the result of the first backend
    that reaches the threshold, or ends with the loop variable bound to the
    result of the last backend, or is left by the exception of the first
    backend that raises; it logs warnings only. *)
Lemma try_recognizers_spec (chain : list string) (crop : Crop) :
  forall (before : list string) (st : state),
    (forall n, In n before -> below n crop) ->
    match try_recognizers chain crop st with
    | Return (st', broke) =>
        (exists ws, log st' = log st ++ ws /\ ~ In log_error ws)
        /\ if broke then
             exists res, results st' = results st ++ [res]
                         /\ first_success (before ++ chain) crop res
           else
             results st' = results st
             /\ (forall n, In n (before ++ chain) -> below n crop)
             /\ match chain with
                | [] => result st' = result st
                | _ => exists front name res,
                         chain = front ++ [name]
                         /\ answers name crop res
                         /\ result st' = Some res
                end
    | Raise e logged =>
        aborts (before ++ chain) crop e
        /\ exists ws, logged = log st ++ ws /\ ~ In log_error ws
    end.
Proof.
  induction chain as [|name chain IH]; intros before st Hb; simpl.
  - rewrite app_nil_r. split; [exists []; rewrite app_nil_r; auto | auto].
  - destruct (get_recognizer name) as [recognizer|] eqn:G.
    2:{ split; [|exists []; rewrite app_nil_r; auto].
        exists before, name, chain. split; [reflexivity|]. split; [exact Hb|].
        left. auto. }
    destruct (recognizer crop) as [r|] eqn:Rc.
    2:{ split; [|exists []; rewrite app_nil_r; auto].
        exists before, name, chain. split; [reflexivity|]. split; [exact Hb|].
        right. exists recognizer. auto. }
    assert (Ha : answers name crop r) by (exists recognizer; auto).
    destruct (Qle_bool confidence_threshold (rec_confidence r)) eqn:E.
    + simpl. split; [exists []; rewrite app_nil_r; auto|].
      exists r. split; [reflexivity|].
      exists before, name, chain. auto.
    + specialize (IH (before ++ [name])
                     {| results := results st; result := Some r;
                        log := log st ++ [log_warning name (rec_confidence r)] |}).
      rewrite <- app_assoc in IH. simpl in IH.
      assert (Hb' : forall n, In n (before ++ [name]) -> below n crop).
      { intros n Hn. apply in_app_or in Hn as [Hn|[<-|[]]]; [auto|].
        exists r. auto. }
      specialize (IH Hb').
      destruct (try_recognizers chain crop _) as [[st' broke]|e logged].
      * destruct IH as ((ws & Hlog & Hws) & IH). split.
        -- eexists. rewrite Hlog, <- app_assoc. split; [reflexivity|].
           simpl. intros [C|C]; [discriminate | exact (Hws C)].
        -- destruct broke; [exact IH|].
           destruct IH as (IH1 & IH2 & IH3). split; [exact IH1|]. split; [exact IH2|].
           destruct chain as [|name' chain].
           ++ exists [], name, r. split; [reflexivity|]. split; [exact Ha | exact IH3].
           ++ destruct IH3 as (front & n & res & Hn & Hr & Hres).
              exists (name :: front), n, res.
              split; [simpl; rewrite Hn; reflexivity | auto].
      * destruct IH as (IH & ws & Hlog & Hws). split; [exact IH|].
        eexists. rewrite Hlog, <- app_assoc. split; [reflexivity|].
        simpl. intros [C|C]; [discriminate | exact (Hws C)].
Qed.

(** The backends that stay below the threshold answer, and an answer is the
    only one. *)
Lemma answers_functional (name : string) (crop : Crop) (r1 r2 : RecognitionResult) :
  answers name crop r1 -> answers name crop r2 -> r1 = r2.
Proof.
  intros (f1 & G1 & H1) (f2 & G2 & H2). congruence.
Qed.

Lemma below_not_reached (chain : list string) (crop : Crop) (res : RecognitionResult) :
  (forall n, In n chain -> below n crop) -> ~ first_success chain crop res.
Proof.
  intros Hb (before & name & after & -> & Ha & Hr & _).
  destruct (Hb name) as (r & Ha' & Hr'); [apply in_or_app; right; left; reflexivity|].
  rewrite (answers_functional _ _ _ _ Ha Ha') in Hr. congruence.
Qed.

(** When no backend that is tried raises, the outer loop appends one result
    per crop and logs an error exactly for the crops on which no backend
    reaches the threshold. *)
Lemma process_crops_spec (chain : list string) (crops : list Crop) :
  chain <> [] ->
  (forall crop, In crop crops -> forall e, ~ aborts chain crop e) ->
  forall st,
    exists st' added logged,
      process_crops chain st crops = Return st'
      /\ results st' = results st ++ added
      /\ log st' = log st ++ logged
      /\ Forall2 (fun crop res =>
                    first_success chain crop res \/ last_tried chain crop res)
                 crops added
      /\ (In log_error logged <->
          exists crop, In crop crops /\ forall n, In n chain -> below n crop).
Proof.
  intros Hne. induction crops as [|crop crops IH]; intros Hsafe st; simpl.
  - exists st, [], []. rewrite !app_nil_r. repeat split; try constructor.
    + intros [].
    + intros (crop & [] & _).
  - unfold process_crop.
    pose proof (try_recognizers_spec chain crop [] st (fun n H => match H with end)) as T.
    simpl in T.
    assert (Hsafe' : forall c, In c crops -> forall e, ~ aborts chain c e)
      by (intros c Hc; apply Hsafe; right; exact Hc).
    specialize (IH Hsafe').
    destruct (try_recognizers chain crop st) as [[st1 [|]]|e logged].
    + destruct T as ((ws & Hlog & Hws) & res & Hres & Hfirst).
      destruct (IH st1) as (st' & added & logged & Hp & Hr & Hl & Hall & Herr).
      exists st', (res :: added), (ws ++ logged). split; [exact Hp|].
      split; [rewrite Hr, Hres, <- app_assoc; reflexivity|].
      split; [rewrite Hl, Hlog, <- app_assoc; reflexivity|].
      split; [constructor; [left; exact Hfirst | exact Hall]|].
      rewrite in_app_iff, Herr. split.
      * intros [C|(c & Hc & Hb)]; [contradiction|]. exists c. auto.
      * intros (c & [<-|Hc] & Hb); [|right; exists c; auto].
        exfalso. exact (below_not_reached chain crop res Hb Hfirst).
    + destruct T as ((ws & Hlog & Hws) & Hres & Hbelow & Hlast).
      destruct chain as [|name chain]; [contradiction|].
      destruct Hlast as (front & n & res & Hn & Ha & Hlast). rewrite Hlast.
      match goal with
      | |- context [Orchestrator.process_crops _ _ _ _ ?s crops] =>
          destruct (IH s) as (st' & added & logged & Hp & Hr & Hl & Hall & Herr)
      end.
      exists st', (res :: added), (ws ++ log_error :: logged).
      split; [exact Hp|].
      split; [rewrite Hr; simpl; rewrite Hres, <- app_assoc; reflexivity|].
      split; [rewrite Hl; simpl; rewrite Hlog, <- !app_assoc; reflexivity|].
      split.
      * constructor; [|exact Hall]. right. split; [exact Hbelow|].
        exists front, n. auto.
      * split; [|intros _; apply in_or_app; right; left; reflexivity].
        intros _. exists crop. split; [left; reflexivity | exact Hbelow].
    + exfalso. destruct T as (T & _). exact (Hsafe crop (or_introl eq_refl) e T).
Qed.

(** When no backend reaches the threshold on a crop, the result returned for
    it is the one of the last backend of the chain. *)
Lemma execute_with_fallback_last_tried (fallback_chain : list string)
    (image_crops : list Crop) :
  fallback_chain <> [] ->
  (forall crop, In crop image_crops -> forall e, ~ aborts fallback_chain crop e) ->
  exists results log,
    execute_with_fallback Crop get_recognizer confidence_threshold fallback_chain
      image_crops
    = Return (results, log)
    /\ Forall2 (fun crop res =>
                  first_success fallback_chain crop res
                  \/ last_tried fallback_chain crop res)
               image_crops results.
Proof.
  intros Hne Hsafe. unfold execute_with_fallback.
  destruct (process_crops_spec fallback_chain image_crops Hne Hsafe
              {| results := []; result := None; log := [] |})
    as (st' & added & logged & Hp & Hr & Hl & Hall & Herr).
  rewrite Hp. exists (results st'), (log st'). split; [reflexivity|].
  simpl in Hr. rewrite Hr. exact Hall.
Qed.

(** The inner loop is left by the exception of the first backend that
    raises. *)
Lemma try_recognizers_raises (before : list string) :
  forall (name : string) (after : list string) (crop : Crop) (e : exception) (st : state),
    (forall n, In n before -> below n crop) ->
    raises name crop e ->
    exists logged, try_recognizers (before ++ name :: after) crop st = Raise e logged.
Proof.
  induction before as [|b before IH]; intros name after crop e st Hb Hr; simpl.
  - destruct Hr as [(G & ->)|(recognizer & G & Rc & ->)]; rewrite G.
    + eexists. reflexivity.
    + rewrite Rc. eexists. reflexivity.
  - destruct (Hb b (or_introl eq_refl)) as (r & (recognizer & G & Rc) & E).
    rewrite G, Rc, E. apply IH; [|exact Hr].
    intros n Hn. apply Hb. right. exact Hn.
Qed.

(** The loops have no handler: the first exception of a backend ends the
    whole execution, and the results of the crops before it are lost. *)
Lemma execute_with_fallback_raises (fallback_chain : list string)
    (done : list Crop) (crop : Crop) (rest : list Crop) (e : exception) :
  fallback_chain <> [] ->
  (forall c, In c done -> forall e', ~ aborts fallback_chain c e') ->
  aborts fallback_chain crop e ->
  exists logged,
    execute_with_fallback Crop get_recognizer confidence_threshold fallback_chain
      (done ++ crop :: rest)
    = Raise e logged.
Proof.
  intros Hne Hsafe (before & name & after & -> & Hb & Hr).
  unfold execute_with_fallback.
  generalize {| results := []; result := None; log := [] |}.
  induction done as [|c done IH]; intros st; simpl.
  - unfold process_crop.
    destruct (try_recognizers_raises before name after crop e st Hb Hr) as (logged & ->).
    exists logged. reflexivity.
  - assert (Hc : forall c', In c' [c] -> forall e', ~ aborts (before ++ name :: after) c' e').
    { intros c' [<-|[]]. apply Hsafe. left. reflexivity. }
    destruct (process_crops_spec (before ++ name :: after) [c] Hne Hc st)
      as (st' & added & logged & Hp & _).
    simpl in Hp.
    destruct (process_crop Crop get_recognizer confidence_threshold
                (before ++ name :: after) st c) as [st1|e1 l1]; [|discriminate].
    apply IH. intros c' Hc'. apply Hsafe. right. exact Hc'.
Qed.

(** C5. With a non-empty chain and as long as no backend that is tried
    raises, the fallback execution returns one result per crop, in the order
    of the crops. The result of a crop is that of the first backend, in the
    configured order, whose confidence reaches the threshold; when no backend
    reaches it, the crop is not dropped: the result of one of the backends is
    returned for it, and an error is logged. The log holds an error exactly
    when some crop has no backend reaching the threshold. *)
Theorem execute_with_fallback_spec (fallback_chain : list string)
    (image_crops : list Crop) :
  fallback_chain <> [] ->
  (forall crop, In crop image_crops -> forall e, ~ aborts fallback_chain crop e) ->
  exists results log,
    execute_with_fallback Crop get_recognizer confidence_threshold fallback_chain
      image_crops
    = Return (results, log)
    /\ Forall2 (fun crop res =>
                  first_success fallback_chain crop res
                  \/ all_below fallback_chain crop res)
               image_crops results
    /\ (In log_error log <->
        exists crop, In crop image_crops
                     /\ forall n, In n fallback_chain -> below n crop).
Proof.
  intros Hne Hsafe. unfold execute_with_fallback.
  destruct (process_crops_spec fallback_chain image_crops Hne Hsafe
              {| results := []; result := None; log := [] |})
    as (st' & added & logged & Hp & Hr & Hl & Hall & Herr).
  rewrite Hp. exists (results st'), (log st'). split; [reflexivity|].
  simpl in Hr, Hl. rewrite Hr, Hl. split; [|exact Herr].
  clear -Hall. induction Hall as [|crop res crops added H Hall IH]; constructor.
  - destruct H as [H|H]; [left; exact H | right; apply last_tried_all_below; exact H].
  - exact IH.
Qed.

End FallbackChain.

Section FallbackChainExamples.
Import Confidence Orchestrator Samples.

Lemma two_weak_backends_never_abort (crop : unit) (e : exception) :
  ~ aborts unit two_weak_backends 0.7 ["trocr"; "paddle"]%string crop e.
Proof.
  intros (before & name & after & Hc & _ & Hr).
  assert (Hn : name = "trocr"%string \/ name = "paddle"%string).
  { destruct before as [|b [|b' before]]; simpl in Hc; inversion Hc; subst; auto.
    destruct before; discriminate. }
  destruct Hn as [-> | ->];
    destruct Hr as [(G & _)|(recognizer & G & Rc & _)];
    vm_compute in G; try discriminate;
    injection G as <-; discriminate.
Qed.

Lemma execute_with_fallback_spec_witness :
  ["trocr"; "paddle"]%string <> []
  /\ (forall crop, In crop [tt] ->
        forall e, ~ aborts unit two_weak_backends 0.7 ["trocr"; "paddle"]%string crop e)
  /\ exists results log,
       execute_with_fallback unit two_weak_backends 0.7 ["trocr"; "paddle"]%string [tt]
       = Return (results, log)
       /\ Forall2 (fun crop res =>
                     first_success unit two_weak_backends 0.7
                       ["trocr"; "paddle"]%string crop res
                     \/ all_below unit two_weak_backends 0.7
                          ["trocr"; "paddle"]%string crop res)
                  [tt] results
       /\ (In log_error log <->
           exists crop, In crop [tt]
                        /\ forall n, In n ["trocr"; "paddle"]%string ->
                                     below unit two_weak_backends 0.7 n crop).
Proof.
  assert (Hne : ["trocr"; "paddle"]%string <> []) by discriminate.
  assert (Hsafe : forall crop, In crop [tt] ->
            forall e, ~ aborts unit two_weak_backends 0.7
                        ["trocr"; "paddle"]%string crop e)
    by (intros crop _ e; apply two_weak_backends_never_abort).
  split; [exact Hne|]. split; [exact Hsafe|].
  exact (execute_with_fallback_spec unit two_weak_backends 0.7
           ["trocr"; "paddle"]%string [tt] Hne Hsafe).
Defined.

(** When no backend reaches the threshold, the result returned is the one of
    the last backend tried, here the less confident of the two, and the only
    trace is in the log. *)
Lemma execute_with_fallback_returns_last_tried :
  execute_with_fallback unit two_weak_backends 0.7 ["trocr"; "paddle"]%string [tt]
  = Return ([{| text := "Solary"; rec_confidence := 0.3; char_confidences := [] |}],
            [log_warning "trocr" 0.6; log_warning "paddle" 0.3; log_error])
  /\ exists best,
       Orchestrator.answers unit two_weak_backends "trocr" tt best
       /\ Qlt 0.3 (rec_confidence best).
Proof.
  split; [vm_compute; reflexivity|].
  eexists. split; [eexists; split; reflexivity | reflexivity].
Qed.

(** With an empty chain the loop variable [result] is never bound. *)
Lemma execute_with_fallback_empty_chain :
  execute_with_fallback unit two_weak_backends 0.7 [] [tt] = Raise NameError [].
Proof. reflexivity. Qed.

(** A backend that raises, or a name that is not registered, ends the
    execution: the next backend is not tried. *)
Lemma execute_with_fallback_no_handler :
  execute_with_fallback unit failing_primary 0.7 ["trocr"; "paddle"]%string [tt]
  = Raise (RecognitionError "trocr") []
  /\ execute_with_fallback unit two_weak_backends 0.7 ["trocr"; "easyocr"]%string [tt]
     = Raise (ModelNotFoundError "easyocr") [log_warning "trocr" 0.6].
Proof. split; vm_compute; reflexivity. Qed.

End FallbackChainExamples.

(** * The balance equation *)

Section BalanceEquation.
Import Schema Validators Confidence Samples.

Local Open Scope Q_scope.

Lemma validate_balance_equation_from_exact rest : forall prev i,
  exact_balances_from prev rest ->
  validate_balance_equation_from (Some prev) i rest = [].
Proof.
  induction rest as [|t rest IH]; intros prev i H; [reflexivity|].
  cbn [validate_balance_equation_from exact_balances_from] in *.
  destruct (balance t) as [b|]; [|contradiction].
  destruct H as [Hb H]. rewrite (IH b (S i) H), app_nil_r.
  assert (E : Qabs (b - (prev + credit t - debit t)) == 0).
  { rewrite Hb.
    assert (Z : prev + credit t - debit t - (prev + credit t - debit t) == 0) by ring.
    rewrite Z. reflexivity. }
  assert (L : Qle_bool (Qabs (b - (prev + credit t - debit t))) 0.01 = true).
  { apply Qle_bool_iff. rewrite E. discriminate. }
  rewrite L. reflexivity.
Qed.

(** The validator reports no balance error on a ledger whose balances satisfy
    the equation exactly. *)
Lemma validate_balance_equation_exact (transactions : list Transaction) :
  exact_balances transactions -> validate_balance_equation transactions = [].
Proof.
  destruct transactions as [|t rest]; simpl; [reflexivity|].
  destruct (balance t) as [b|]; [|contradiction].
  apply validate_balance_equation_from_exact.
Qed.

Section Accuracy.

(** The value of the accuracy where the documented formula has none. *)
Variable accuracy_of_zero_expected : Q -> option Q.
Variable average_of_none : option Q.

Abbreviation transaction_accuracy := (transaction_accuracy accuracy_of_zero_expected).
Abbreviation balance_accuracies := (balance_accuracies accuracy_of_zero_expected).
Abbreviation calculate_balance_accuracy :=
  (calculate_balance_accuracy accuracy_of_zero_expected average_of_none).

Abbreviation exact_zero_is_accurate :=
  (exact_zero_is_accurate accuracy_of_zero_expected).

(** The accuracy of a transaction that meets its expected balance is 1
    wherever the formula has a value. *)
Lemma transaction_accuracy_exact (expected actual : Q) :
  actual == expected ->
  ~ expected == 0 \/ exact_zero_is_accurate ->
  exists a, transaction_accuracy expected actual = Some a /\ a == 1.
Proof.
  intros E H. unfold Confidence.transaction_accuracy.
  destruct (Qeq_bool expected 0) eqn:Z.
  - apply Qeq_bool_iff in Z. destruct H as [H|H]; [contradiction|].
    apply H. rewrite E. exact Z.
  - assert (N : ~ expected == 0).
    { intros C. apply Qeq_bool_iff in C. congruence. }
    eexists. split; [reflexivity|].
    assert (D : Qabs (expected - actual) == 0).
    { rewrite E. assert (Z0 : expected - expected == 0) by ring.
      rewrite Z0. reflexivity. }
    rewrite D. field. exact N.
Qed.

Lemma balance_accuracies_exact rest : forall prev,
  exact_balances_from prev rest ->
  Forall (fun t => match balance t with
                   | Some b => ~ b == 0
                   | None => True
                   end) rest
  \/ exact_zero_is_accurate ->
  exists accs, balance_accuracies (Some prev) rest = Some accs
               /\ length accs = length rest
               /\ Forall (fun a => a == 1) accs.
Proof.
  induction rest as [|t rest IH]; intros prev H N;
    cbn [Confidence.balance_accuracies exact_balances_from] in *.
  - exists []. repeat split. constructor.
  - destruct (balance t) as [b|] eqn:Eb; [|contradiction].
    destruct H as [Hb H].
    assert (N' : Forall (fun t => match balance t with
                                  | Some b => ~ b == 0
                                  | None => True
                                  end) rest
                 \/ exact_zero_is_accurate).
    { destruct N as [N|N]; [left; inversion N; assumption | right; exact N]. }
    destruct (IH b H N') as (accs & -> & Hlen & Hall).
    assert (Nt : ~ prev + credit t - debit t == 0 \/ exact_zero_is_accurate).
    { destruct N as [N|N]; [left | right; exact N].
      inversion N as [|? ? Nt _]; subst. rewrite Eb in Nt.
      intros C. apply Nt. rewrite Hb. exact C. }
    destruct (transaction_accuracy_exact _ _ Hb Nt) as (a & -> & Ha).
    eexists. split; [reflexivity|]. split; [simpl; lia|].
    constructor; assumption.
Qed.

Lemma Qsum_ones (l : list Q) :
  Forall (fun a => a == 1) l -> Qsum l == inject_Z (Z.of_nat (length l)).
Proof.
  induction 1 as [|a l Ha Hl IH]; [reflexivity|].
  cbn [Qsum fold_right length]. fold (Qsum l).
  rewrite Ha, IH, Nat2Z.inj_succ, <- Z.add_1_l, inject_Z_plus. reflexivity.
Qed.

Lemma mean_ones (a : Q) (accs : list Q) :
  Forall (fun a => a == 1) (a :: accs) ->
  exists m, mean (a :: accs) = Some m /\ m == 1.
Proof.
  intros Hall. eexists. split; [reflexivity|].
  rewrite (Qsum_ones _ Hall). field.
  simpl length. rewrite Nat2Z.inj_succ. unfold Z.succ.
  intros C. unfold Qeq in C. simpl in C. lia.
Qed.

(** On an exact ledger with a transaction to average and no zero balance to
    divide by, the accuracy is 1 whatever the function does elsewhere. *)
Lemma calculate_balance_accuracy_exact (transactions : list Transaction) :
  (2 <= length transactions)%nat ->
  exact_balances transactions -> nonzero_balances transactions ->
  exists a, calculate_balance_accuracy transactions = Some a /\ a == 1.
Proof.
  destruct transactions as [|t rest]; simpl; [lia|]. intros Hlen H N.
  unfold nonzero_balances in N. simpl in N.
  destruct (balance t) as [b|]; [|contradiction].
  destruct (balance_accuracies_exact rest b H (or_introl N)) as (accs & -> & Hl & Hall).
  destruct accs as [|a accs]; [simpl in Hl; lia|].
  apply mean_ones. exact Hall.
Qed.

(** When the two open cases count as accurate, the accuracy of every exact
    ledger is 1. *)
Lemma calculate_balance_accuracy_exact_all (transactions : list Transaction) :
  exact_zero_is_accurate ->
  (exists a, average_of_none = Some a /\ a == 1) ->
  exact_balances transactions ->
  exists a, calculate_balance_accuracy transactions = Some a /\ a == 1.
Proof.
  intros Hz Ha. destruct transactions as [|t rest]; simpl; [intros _; exact Ha|].
  intros H. destruct (balance t) as [b|]; [|contradiction].
  destruct (balance_accuracies_exact rest b H (or_intror Hz)) as (accs & -> & Hl & Hall).
  destruct accs as [|a accs]; [exact Ha|].
  apply mean_ones. exact Hall.
Qed.


End Accuracy.


(** On the ledger [emptied_account], whose balances satisfy the equation
    exactly, the validator reports no balance error, and the accuracy is what
    the function gives for an expected balance of 0. *)
Lemma balance_accuracy_zero_expected (accuracy_of_zero_expected : Q -> option Q)
    (average_of_none : option Q) :
  exact_balances emptied_account
  /\ validate_balance_equation emptied_account = []
  /\ Confidence.calculate_balance_accuracy accuracy_of_zero_expected average_of_none
       emptied_account
     = match accuracy_of_zero_expected 0 with
       | Some a => Some (Qsum [a] / 1)
       | None => None
       end.
Proof.
  split; [|split].
  - simpl. split; [reflexivity | exact I].
  - vm_compute. reflexivity.
  - cbn. unfold Confidence.transaction_accuracy. cbn.
    destruct (accuracy_of_zero_expected 0); reflexivity.
Qed.

End BalanceEquation.

(** * Greedy and beam-search decoding *)

Section Powers.
Import Decoders.
Local Open Scope Q_scope.

#[export] Instance Qpow_comp : Proper (Qeq ==> eq ==> Qeq) Qpow.
Proof.
  intros a b E n ? <-. induction n as [|n IH]; cbn [Qpow]; [reflexivity|].
  apply Qmult_comp; assumption.
Qed.

Lemma Qpow_nonneg (q : Q) (n : nat) : 0 <= q -> 0 <= Qpow q n.
Proof.
  intros H. induction n as [|n IH]; cbn [Qpow]; [discriminate|].
  apply Qmult_le_0_compat; assumption.
Qed.

Lemma Qpow_pos (q : Q) (n : nat) : 0 < q -> 0 < Qpow q n.
Proof.
  intros H. induction n as [|n IH]; cbn [Qpow]; [reflexivity|].
  apply Qmult_lt_0_compat; assumption.
Qed.

Lemma Qpow_le_mono (a b : Q) (n : nat) : 0 <= a -> a <= b -> Qpow a n <= Qpow b n.
Proof.
  intros Ha Hab. induction n as [|n IH]; cbn [Qpow]; [apply Qle_refl|].
  apply Qmult_le_compat_nonneg; split; try assumption.
  apply Qpow_nonneg; assumption.
Qed.

Lemma Qpow_lt_mono (a b : Q) (n : nat) :
  0 <= a -> a < b -> (0 < n)%nat -> Qpow a n < Qpow b n.
Proof.
  intros Ha Hab Hn. destruct n as [|n]; [lia|]. clear Hn. cbn [Qpow].
  assert (Hb : 0 < b) by (apply Qle_lt_trans with a; assumption).
  apply Qle_lt_trans with (a * Qpow b n).
  - apply Qmult_le_compat_nonneg; split;
      [assumption | apply Qle_refl | apply Qpow_nonneg; assumption|].
    apply Qpow_le_mono; [assumption | apply Qlt_le_weak; assumption].
  - apply Qmult_lt_compat_r; [apply Qpow_pos|]; assumption.
Qed.

Lemma Qpow_le_inv (a b : Q) (n : nat) :
  0 <= a -> 0 <= b -> (0 < n)%nat -> Qpow a n <= Qpow b n -> a <= b.
Proof.
  intros Ha Hb Hn H. destruct (Qlt_le_dec b a) as [L|L]; [|exact L].
  exfalso. apply (Qlt_not_le _ _ (Qpow_lt_mono b a n Hb L Hn)). exact H.
Qed.

Lemma Qpow_add (q : Q) (m n : nat) : Qpow q (m + n) == Qpow q m * Qpow q n.
Proof.
  induction m as [|m IH]; cbn [Qpow Nat.add]; [ring|]. rewrite IH. ring.
Qed.

Lemma Qpow_mul (q : Q) (m n : nat) : Qpow (Qpow q m) n == Qpow q (m * n).
Proof.
  induction n as [|n IH]; cbn [Qpow].
  - rewrite Nat.mul_0_r. reflexivity.
  - rewrite IH, Nat.mul_succ_r, Nat.add_comm, Qpow_add. reflexivity.
Qed.

Lemma Qpow_swap (q : Q) (m n : nat) : Qpow (Qpow q m) n == Qpow (Qpow q n) m.
Proof. rewrite !Qpow_mul, Nat.mul_comm. reflexivity. Qed.

Lemma Qprod_snoc (l : list Q) (p : Q) : Qprod (l ++ [p]) == Qprod l * p.
Proof.
  induction l as [|a l IH]; cbn [Qprod fold_right app]; [ring|].
  fold (Qprod (l ++ [p])) (Qprod l). rewrite IH. ring.
Qed.

End Powers.

(** ** Scores as logarithms, confidences as roots *)

Section LogarithmicScores.
Import Sorting Decoders.

Lemma Q2R_Qpow (q : Q) (n : nat) : Q2R (Qpow q n) = (Q2R q ^ n)%R.
Proof.
  induction n as [|n IH]; simpl.
  - unfold Q2R. simpl. lra.
  - rewrite Q2R_mult, IH. reflexivity.
Qed.

Lemma Q2R_pos (q : Q) : (0 < q)%Q -> (0 < Q2R q)%R.
Proof. intros H. rewrite <- RMicromega.Q2R_0. apply Qlt_Rlt. exact H. Qed.

(** Quotients of logarithms are ordered as the cross powers are. *)
Lemma ln_quotient_le (w1 w2 : Q) (n1 n2 : nat) :
  (0 < w1)%Q -> (0 < w2)%Q -> (0 < n1)%nat -> (0 < n2)%nat ->
  (Qpow w1 n2 <= Qpow w2 n1)%Q
  <-> (ln (Q2R w1) / INR n1 <= ln (Q2R w2) / INR n2)%R.
Proof.
  intros H1 H2 N1 N2.
  pose proof (Q2R_pos w1 H1) as R1. pose proof (Q2R_pos w2 H2) as R2.
  assert (I1 : (0 < INR n1)%R) by (apply lt_0_INR; exact N1).
  assert (I2 : (0 < INR n2)%R) by (apply lt_0_INR; exact N2).
  assert (P1 : (0 < Q2R w1 ^ n2)%R) by (apply pow_lt; exact R1).
  assert (P2 : (0 < Q2R w2 ^ n1)%R) by (apply pow_lt; exact R2).
  assert (E : (ln (Q2R w1) / INR n1 <= ln (Q2R w2) / INR n2
               <-> ln (Q2R w1 ^ n2) <= ln (Q2R w2 ^ n1))%R).
  { rewrite !ln_pow by assumption.
    assert (L : (ln (Q2R w1) / INR n1 * (INR n1 * INR n2) = INR n2 * ln (Q2R w1))%R)
      by (field; lra).
    assert (R : (ln (Q2R w2) / INR n2 * (INR n1 * INR n2) = INR n1 * ln (Q2R w2))%R)
      by (field; lra).
    rewrite <- L, <- R. split; intros H.
    - apply Rmult_le_compat_r; [nra | exact H].
    - apply (Rmult_le_reg_r (INR n1 * INR n2)); [nra | exact H]. }
  rewrite E. split; intros H.
  - apply Qle_Rle in H. rewrite !Q2R_Qpow in H.
    destruct H as [H|H]; [left; apply ln_increasing; assumption | right; rewrite H; reflexivity].
  - apply Rle_Qle. rewrite !Q2R_Qpow.
    destruct H as [H|H]; [left; apply ln_lt_inv; assumption | right; apply ln_inv; assumption].
Qed.

Lemma norm_pos (length_penalty : Q) (b : beam) : (0 < norm length_penalty b)%R.
Proof. unfold norm, Rpower. apply exp_pos. Qed.

(** For a penalty that is a natural number the power is a power of
    integers. *)
Lemma norm_integer (k : nat) (b : beam) :
  (0 < length (sequence b))%nat ->
  norm (inject_Z (Z.of_nat k)) b = INR (length (sequence b) ^ k).
Proof.
  intros H. unfold norm.
  assert (E : Q2R (inject_Z (Z.of_nat k)) = INR k).
  { unfold Q2R, inject_Z. simpl. rewrite INR_IZR_INZ. lra. }
  rewrite E, Rpower_pow by (apply lt_0_INR; exact H).
  rewrite pow_INR. reflexivity.
Qed.

(** [key_leb] orders the beams by their sort keys, a beam of weight 0 being
    below every beam. *)
Lemma key_leb_spec (length_penalty : Q) (a b : beam) :
  key_leb length_penalty a b = true
  <-> (weight a <= 0)%Q
      \/ ((0 < weight a)%Q /\ (0 < weight b)%Q
          /\ (sort_key length_penalty a <= sort_key length_penalty b)%R).
Proof.
  unfold key_leb.
  destruct (Qle_bool (weight a) 0) eqn:Ea.
  { apply Qle_bool_iff in Ea. split; [left; exact Ea | reflexivity]. }
  assert (Pa : (0 < weight a)%Q).
  { apply Qnot_le_lt. intros C. apply Qle_bool_iff in C. congruence. }
  destruct (Qle_bool (weight b) 0) eqn:Eb.
  { apply Qle_bool_iff in Eb. split; [discriminate|].
    intros [C|(_ & C & _)]; exfalso.
    - exact (Qlt_not_le _ _ Pa C).
    - exact (Qlt_not_le _ _ C Eb). }
  assert (Pb : (0 < weight b)%Q).
  { apply Qnot_le_lt. intros C. apply Qle_bool_iff in C. congruence. }
  destruct (Rle_dec (sort_key length_penalty a) (sort_key length_penalty b)) as [L|L].
  - split; [right; auto | reflexivity].
  - split; [discriminate|]. intros [C|(_ & _ & C)]; exfalso.
    + exact (Qlt_not_le _ _ Pa C).
    + exact (L C).
Qed.

(** For a penalty that is a natural number, the order of the sort keys is
    decided by the cross powers of the weights. *)
Lemma key_leb_integer (k : nat) (a b : beam) :
  well_formed a -> well_formed b ->
  key_leb (inject_Z (Z.of_nat k)) a b = integer_key_leb k a b.
Proof.
  intros (_ & Na & La) (_ & Nb & Lb).
  assert (Pa : (0 < length (sequence a) ^ k)%nat).
  { rewrite La. clear. induction k as [|k IH]; simpl; lia. }
  assert (Pb : (0 < length (sequence b) ^ k)%nat).
  { rewrite Lb. clear. induction k as [|k IH]; simpl; lia. }
  apply eq_true_iff_eq. rewrite key_leb_spec. unfold integer_key_leb.
  rewrite Qle_bool_iff.
  destruct (Qle_lt_or_eq _ _ Na) as [Wa|Za].
  - destruct (Qle_lt_or_eq _ _ Nb) as [Wb|Zb].
    + rewrite (ln_quotient_le _ _ _ _ Wa Wb Pa Pb). unfold sort_key.
      rewrite !norm_integer by lia. split.
      * intros [C|(_ & _ & C)]; [exfalso; exact (Qlt_not_le _ _ Wa C) | exact C].
      * intros C. right. auto.
    + split.
      * intros [C|(_ & C & _)]; exfalso.
        -- exact (Qlt_not_le _ _ Wa C).
        -- rewrite <- Zb in C. discriminate.
      * intros C. exfalso. rewrite <- Zb in C.
        assert (Z0 : (Qpow 0 (length (sequence a) ^ k) == 0)%Q).
        { destruct (length (sequence a) ^ k)%nat; [lia|]. simpl. ring. }
        rewrite Z0 in C. apply (Qlt_not_le _ _ (Qpow_pos _ (length (sequence b) ^ k) Wa)).
        exact C.
  - split; intros _.
    + rewrite <- Za.
      assert (Z0 : (Qpow 0 (length (sequence b) ^ k) == 0)%Q).
      { destruct (length (sequence b) ^ k)%nat; [lia|]. simpl. ring. }
      rewrite Z0. apply Qpow_nonneg. exact Nb.
    + left. rewrite <- Za. apply Qle_refl.
Qed.

Lemma Qprod_nonneg (l : list Q) : Forall (fun p => (0 <= p)%Q) l -> (0 <= Qprod l)%Q.
Proof.
  induction 1 as [|p l Hp Hl IH]; simpl; [discriminate|].
  apply Qmult_le_0_compat; assumption.
Qed.

Lemma calculate_confidence_nonneg (l : list Q) : (0 <= calculate_confidence l)%R.
Proof.
  unfold calculate_confidence. destruct (Qeq_bool (Qprod l) 0); [lra|].
  left. apply exp_pos.
Qed.

Lemma calculate_confidence_pos (l : list Q) :
  (0 < Qprod l)%Q ->
  calculate_confidence l = exp (ln (Q2R (Qprod l)) / INR (length l)).
Proof.
  intros H. unfold calculate_confidence.
  assert (E : Qeq_bool (Qprod l) 0 = false).
  { apply not_true_is_false. intros C. apply Qeq_bool_iff in C.
    rewrite C in H. discriminate. }
  rewrite E. unfold Rpower. f_equal. unfold Rdiv. ring.
Qed.

(** The comparison without roots decides the order of the geometric means. *)
Lemma geometric_mean_leb_spec (a b : list Q) :
  a <> [] -> b <> [] ->
  Forall (fun p => (0 <= p)%Q) a -> Forall (fun p => (0 <= p)%Q) b ->
  geometric_mean_leb a b = true
  <-> (calculate_confidence a <= calculate_confidence b)%R.
Proof.
  intros Na Nb Ha Hb. unfold geometric_mean_leb. rewrite Qle_bool_iff.
  assert (La : (0 < length a)%nat) by (destruct a; [contradiction | simpl; lia]).
  assert (Lb : (0 < length b)%nat) by (destruct b; [contradiction | simpl; lia]).
  pose proof (Qprod_nonneg a Ha) as Pa. pose proof (Qprod_nonneg b Hb) as Pb.
  destruct (Qle_lt_or_eq _ _ Pa) as [Pa'|Za]; destruct (Qle_lt_or_eq _ _ Pb) as [Pb'|Zb].
  - rewrite (calculate_confidence_pos a Pa'), (calculate_confidence_pos b Pb').
    rewrite (ln_quotient_le _ _ _ _ Pa' Pb' La Lb). split; intros H.
    + destruct H as [H|H]; [left; apply exp_increasing; exact H | right; rewrite H; reflexivity].
    + destruct H as [H|H]; [left; apply exp_lt_inv; exact H | right; apply exp_inv; exact H].
  - assert (Eb : calculate_confidence b = 0%R).
    { unfold calculate_confidence.
      rewrite (proj2 (Qeq_bool_iff _ _) (Qeq_sym _ _ Zb)). reflexivity. }
    rewrite Eb, (calculate_confidence_pos a Pa'). split; intros H.
    + exfalso. rewrite <- Zb in H.
      assert (Z0 : (Qpow 0 (length a) == 0)%Q).
      { destruct (length a); [lia|]. simpl. ring. }
      rewrite Z0 in H. apply (Qlt_not_le _ _ (Qpow_pos _ (length b) Pa')). exact H.
    + exfalso. pose proof (exp_pos (ln (Q2R (Qprod a)) / INR (length a))). lra.
  - assert (Ea : calculate_confidence a = 0%R).
    { unfold calculate_confidence.
      rewrite (proj2 (Qeq_bool_iff _ _) (Qeq_sym _ _ Za)). reflexivity. }
    rewrite Ea. split; intros _; [apply calculate_confidence_nonneg|].
    rewrite <- Za.
    assert (Z0 : (Qpow 0 (length b) == 0)%Q).
    { destruct (length b); [lia|]. simpl. ring. }
    rewrite Z0. apply Qpow_nonneg. exact Pb.
  - assert (Ea : calculate_confidence a = 0%R).
    { unfold calculate_confidence.
      rewrite (proj2 (Qeq_bool_iff _ _) (Qeq_sym _ _ Za)). reflexivity. }
    rewrite Ea. split; intros _; [apply calculate_confidence_nonneg|].
    rewrite <- Za.
    assert (Z0 : (Qpow 0 (length b) == 0)%Q).
    { destruct (length b); [lia|]. simpl. ring. }
    rewrite Z0. apply Qpow_nonneg. exact Pb.
Qed.

End LogarithmicScores.

Section BeamSearch.
Import Sorting Decoders.
Local Open Scope Q_scope.

Variable decoder : list nat -> list Q.
Variable BOS_TOKEN_ID EOS_TOKEN_ID : nat.
Variable beam_width : nat.

(** The decoder yields probabilities over a non-empty vocabulary. *)
Hypothesis decoder_nonneg : forall sequence i, 0 <= nth i (decoder sequence) 0.
Hypothesis decoder_nonempty : forall sequence, decoder sequence <> [].

Abbreviation expand := (expand decoder EOS_TOKEN_ID beam_width).

Lemma expand_well_formed (b : beam) : well_formed b -> Forall well_formed (expand b).
Proof.
  intros W. unfold Decoders.expand. destruct (finished EOS_TOKEN_ID b).
  - constructor; [exact W | constructor].
  - apply Forall_forall. intros c Hc. apply list_elem_of_In, in_map_iff in Hc.
    destruct Hc as (token_id & <- & _). destruct W as (Hw & Hn & Hl).
    unfold well_formed. cbn [weight probs sequence]. split; [|split].
    + rewrite Qprod_snoc, Hw. reflexivity.
    + apply Qmult_le_0_compat; [assumption | apply decoder_nonneg].
    + rewrite !length_app. simpl. lia.
Qed.

Lemma candidates_well_formed (beams : list beam) :
  Forall well_formed beams -> Forall well_formed (flat_map expand beams).
Proof.
  induction 1 as [|b beams Wb _ IH]; simpl; [constructor|].
  apply Forall_app. split; [apply expand_well_formed; assumption | exact IH].
Qed.

Lemma expand_nonempty (b : beam) : expand b <> [].
Proof.
  unfold Decoders.expand. destruct (finished EOS_TOKEN_ID b); [discriminate|].
  intros E. apply map_eq_nil in E. revert E.
  apply py_last_k_nonempty. unfold argsort. apply sort_by_nonempty.
  specialize (decoder_nonempty (sequence b)).
  destruct (decoder (sequence b)); [contradiction | discriminate].
Qed.

Section AnyOrder.

Variable leb : beam -> beam -> bool.

Abbreviation beam_step_by := (beam_step_by decoder EOS_TOKEN_ID beam_width leb).
Abbreviation beam_loop_by := (beam_loop_by decoder EOS_TOKEN_ID beam_width leb).

Lemma beam_step_well_formed (beams : list beam) :
  Forall well_formed beams -> Forall well_formed (beam_step_by beams).
Proof.
  intros H. unfold Decoders.beam_step_by.
  apply Forall_py_last_k, Forall_sort_by, candidates_well_formed, H.
Qed.

Lemma beam_step_nonempty (beams : list beam) : beams <> [] -> beam_step_by beams <> [].
Proof.
  intros Hb. unfold Decoders.beam_step_by.
  apply py_last_k_nonempty, sort_by_nonempty.
  destruct beams as [|b beams]; [contradiction|]. simpl.
  intros E. apply app_eq_nil in E as [E _]. exact (expand_nonempty b E).
Qed.

Hypothesis leb_total : forall a b,
  well_formed a -> well_formed b -> leb a b = true \/ leb b a = true.
Hypothesis leb_trans : forall a b c,
  well_formed a -> well_formed b -> well_formed c ->
  leb a b = true -> leb b c = true -> leb a c = true.

Lemma beam_step_sorted (beams : list beam) :
  Forall well_formed beams -> sorted_by leb (beam_step_by beams).
Proof.
  intros H. unfold Decoders.beam_step_by. apply sorted_by_py_last_k.
  apply (sort_by_sorted leb well_formed leb_total leb_trans).
  apply candidates_well_formed, H.
Qed.

(** The beams stay well formed, sorted by their key and non-empty throughout
    the loop. *)
Lemma beam_loop_invariant (fuel : nat) : forall beams,
  Forall well_formed beams -> sorted_by leb beams -> beams <> [] ->
  Forall well_formed (beam_loop_by fuel beams)
  /\ sorted_by leb (beam_loop_by fuel beams)
  /\ beam_loop_by fuel beams <> [].
Proof.
  induction fuel as [|fuel IH]; intros beams W S N; simpl; [auto|].
  pose proof (beam_step_well_formed beams W) as W'.
  pose proof (beam_step_sorted beams W) as S'.
  pose proof (beam_step_nonempty beams N) as N'.
  destruct (forallb (finished EOS_TOKEN_ID) (beam_step_by beams)); [auto|].
  apply IH; assumption.
Qed.

End AnyOrder.

(** Two orders that agree on well-formed beams give the same search. *)
Lemma insert_by_agree (leb1 leb2 : beam -> beam -> bool) (x : beam) (l : list beam) :
  (forall a b, well_formed a -> well_formed b -> leb1 a b = leb2 a b) ->
  well_formed x -> Forall well_formed l ->
  insert_by leb1 x l = insert_by leb2 x l.
Proof.
  intros H Wx Wl. induction Wl as [|y l Wy Wl IH]; simpl; [reflexivity|].
  rewrite (H x y Wx Wy), IH. reflexivity.
Qed.

Lemma sort_by_agree (leb1 leb2 : beam -> beam -> bool) (l : list beam) :
  (forall a b, well_formed a -> well_formed b -> leb1 a b = leb2 a b) ->
  Forall well_formed l ->
  sort_by leb1 l = sort_by leb2 l.
Proof.
  intros H Wl. induction Wl as [|x l Wx Wl IH]; simpl; [reflexivity|].
  rewrite IH. apply insert_by_agree; [exact H | exact Wx |].
  apply Forall_sort_by. exact Wl.
Qed.

Lemma beam_loop_agree (leb1 leb2 : beam -> beam -> bool) (fuel : nat) :
  (forall a b, well_formed a -> well_formed b -> leb1 a b = leb2 a b) ->
  forall beams, Forall well_formed beams ->
  Decoders.beam_loop_by decoder EOS_TOKEN_ID beam_width leb1 fuel beams
  = Decoders.beam_loop_by decoder EOS_TOKEN_ID beam_width leb2 fuel beams.
Proof.
  intros H. induction fuel as [|fuel IH]; intros beams W; simpl; [reflexivity|].
  assert (E : Decoders.beam_step_by decoder EOS_TOKEN_ID beam_width leb1 beams
              = Decoders.beam_step_by decoder EOS_TOKEN_ID beam_width leb2 beams).
  { unfold Decoders.beam_step_by. f_equal.
    apply sort_by_agree; [exact H | apply candidates_well_formed, W]. }
  rewrite E. destruct (forallb _ _); [reflexivity|].
  apply IH. apply beam_step_well_formed. exact W.
Qed.

Lemma start_well_formed :
  Forall well_formed [{| sequence := [BOS_TOKEN_ID]; weight := 1; probs := [] |}].
Proof.
  constructor; [|constructor]. repeat split; simpl; try reflexivity. discriminate.
Qed.

(** For a length penalty that is a natural number, beam search is the search
    that orders the candidates in rational arithmetic. *)
Lemma beam_search_decode_integer (k max_length : nat) :
  beam_search_decode decoder BOS_TOKEN_ID EOS_TOKEN_ID beam_width
                     (inject_Z (Z.of_nat k)) max_length
  = beam_search_decode_by decoder BOS_TOKEN_ID EOS_TOKEN_ID beam_width
                          (integer_key_leb k) max_length.
Proof.
  unfold beam_search_decode, beam_search_decode_by, final_beams_by.
  rewrite (beam_loop_agree _ (integer_key_leb k));
    [reflexivity | apply key_leb_integer | apply start_well_formed].
Qed.

Variable length_penalty : Q.

Abbreviation key_leb := (key_leb length_penalty).
Abbreviation sort_key := (sort_key length_penalty).

Lemma key_leb_total (a b : beam) :
  well_formed a -> well_formed b -> key_leb a b = true \/ key_leb b a = true.
Proof.
  intros _ _. rewrite !key_leb_spec.
  destruct (Qlt_le_dec 0 (weight a)) as [Pa|Za]; [|left; left; exact Za].
  destruct (Qlt_le_dec 0 (weight b)) as [Pb|Zb]; [|right; left; exact Zb].
  destruct (Rle_or_lt (sort_key a) (sort_key b)) as [L|L].
  - left. right. auto.
  - right. right. repeat split; try assumption. apply Rlt_le. exact L.
Qed.

Lemma key_leb_trans (a b c : beam) :
  well_formed a -> well_formed b -> well_formed c ->
  key_leb a b = true -> key_leb b c = true -> key_leb a c = true.
Proof.
  intros _ _ _. rewrite !key_leb_spec.
  intros [Za|(Pa & Pb & Lab)]; [left; exact Za|].
  intros [Zb|(_ & Pc & Lbc)]; [exfalso; exact (Qlt_not_le _ _ Pb Zb)|].
  right. repeat split; try assumption. apply Rle_trans with (sort_key b); assumption.
Qed.

(** Among beams of the same length, the order of the keys is the order of
    the weights. *)
Lemma key_leb_same_length (a b : beam) :
  well_formed a -> well_formed b ->
  length (sequence a) = length (sequence b) ->
  key_leb a b = true -> weight a <= weight b.
Proof.
  intros (_ & Na & _) (_ & Nb & _) Hlen H. apply key_leb_spec in H.
  destruct H as [Za|(Pa & Pb & L)]; [apply Qle_trans with 0; assumption|].
  unfold Decoders.sort_key in L.
  assert (En : norm length_penalty a = norm length_penalty b)
    by (unfold norm; rewrite Hlen; reflexivity).
  rewrite En in L. pose proof (norm_pos length_penalty b) as Pn.
  assert (Ll : (ln (Q2R (weight a)) <= ln (Q2R (weight b)))%R).
  { apply (Rmult_le_reg_r (/ norm length_penalty b)).
    - apply Rinv_0_lt_compat. exact Pn.
    - exact L. }
  apply Rle_Qle.
  destruct Ll as [Ll|Ll].
  - left. apply ln_lt_inv; [apply Q2R_pos | apply Q2R_pos |]; assumption.
  - right. apply ln_inv; [apply Q2R_pos | apply Q2R_pos |]; assumption.
Qed.

(** C8. Beam search returns the last of the beams it holds when the loop
    ends, and that beam has the greatest length-penalised score among them,
    whatever the length penalty; its geometric-mean confidence is therefore
    not lower than that of any of these beams that has the same length. *)
Theorem beam_search_returns_best_final_beam (max_length : nat) :
  exists best,
    py_last (final_beams decoder BOS_TOKEN_ID EOS_TOKEN_ID beam_width length_penalty
                         max_length) = Some best
    /\ beam_search_decode decoder BOS_TOKEN_ID EOS_TOKEN_ID beam_width length_penalty
                          max_length = Some (sequence best, probs best)
    /\ forall b,
         In b (final_beams decoder BOS_TOKEN_ID EOS_TOKEN_ID beam_width length_penalty
                           max_length) ->
         well_formed b
         /\ key_leb b best = true
         /\ (0 < weight b -> 0 < weight best /\ (sort_key b <= sort_key best)%R)
         /\ (length (sequence b) = length (sequence best) ->
             geometric_mean_leb (probs b) (probs best) = true).
Proof.
  unfold beam_search_decode, beam_search_decode_by, final_beams, final_beams_by.
  set (start := {| sequence := [BOS_TOKEN_ID]; weight := 1; probs := [] |}).
  assert (S0 : sorted_by key_leb [start]) by (repeat constructor).
  destruct (beam_loop_invariant key_leb key_leb_total key_leb_trans max_length [start]
              start_well_formed S0 ltac:(discriminate))
    as (W & S & N).
  destruct (py_last_nonempty _ N) as [best Hbest]. exists best.
  rewrite Hbest. split; [reflexivity|]. split; [reflexivity|].
  intros b Hb.
  pose proof (sorted_by_last_max key_leb well_formed key_leb_total _ best W S Hbest b Hb)
    as Hkey.
  rewrite Forall_forall in W.
  pose proof (W b (proj2 (list_elem_of_In _ _) Hb)) as Wb.
  pose proof (W best (proj2 (list_elem_of_In _ _) (py_last_In _ _ Hbest))) as Wbest.
  split; [exact Wb|]. split; [exact Hkey|]. split.
  - intros Pb. pose proof Hkey as K. apply key_leb_spec in K.
    destruct K as [Zb|(_ & Pbest & L)]; [exfalso; exact (Qlt_not_le _ _ Pb Zb)|].
    split; assumption.
  - intros Hlen.
    pose proof (key_leb_same_length b best Wb Wbest Hlen Hkey) as Hw.
    destruct Wb as (Eb & Nb & Lb). destruct Wbest as (Ebest & Nbest & Lbest).
    unfold geometric_mean_leb. apply Qle_bool_iff.
    assert (Hp : length (probs b) = length (probs best)) by lia.
    rewrite Hp, <- Eb, <- Ebest.
    apply Qpow_le_mono; assumption.
Qed.

End BeamSearch.

Section BeamSearchExamples.
Import Sorting Decoders.
Local Open Scope Q_scope.

Lemma two_readings_decoder_nonneg (sequence : list nat) (i : nat) :
  0 <= nth i (two_readings_decoder sequence) 0.
Proof.
  destruct sequence as [|t [|u s]]; simpl;
    repeat (destruct i as [|i]; simpl; try discriminate).
Qed.

Lemma beam_search_returns_best_final_beam_witness :
  (forall sequence i, 0 <= nth i (two_readings_decoder sequence) 0)
  /\ (forall sequence, two_readings_decoder sequence <> [])
  /\ exists best,
       py_last (final_beams two_readings_decoder 0 2 3 0.8 10) = Some best
       /\ beam_search_decode two_readings_decoder 0 2 3 0.8 10
          = Some (sequence best, probs best)
       /\ forall b,
            In b (final_beams two_readings_decoder 0 2 3 0.8 10) ->
            well_formed b
            /\ key_leb 0.8 b best = true
            /\ (0 < weight b -> 0 < weight best /\ (sort_key 0.8 b <= sort_key 0.8 best)%R)
            /\ (length (sequence b) = length (sequence best) ->
                geometric_mean_leb (probs b) (probs best) = true).
Proof.
  split; [exact two_readings_decoder_nonneg|].
  split; [intros [|t [|u s]]; discriminate|].
  apply (beam_search_returns_best_final_beam two_readings_decoder 0 2 3).
  - exact two_readings_decoder_nonneg.
  - intros [|t [|u s]]; discriminate.
Defined.

(** On the decoder with two readings and the default length penalty 1.0,
    greedy decoding follows the likelier first token and ends with a
    geometric-mean confidence of 0.5; beam search of width 3, 4 or 5 returns
    the reading that stops at once, whose confidence is 0.45. *)
Lemma beam_search_below_greedy :
  greedy_decode two_readings_decoder 0 2 10 = ([0; 3; 2]%nat, [0.50; 0.50])
  /\ beam_search_decode two_readings_decoder 0 2 3 1 10 = Some ([0; 2]%nat, [0.45])
  /\ beam_search_decode two_readings_decoder 0 2 4 1 10 = Some ([0; 2]%nat, [0.45])
  /\ beam_search_decode two_readings_decoder 0 2 5 1 10 = Some ([0; 2]%nat, [0.45])
  /\ geometric_mean_leb [0.50; 0.50] [0.45] = false.
Proof.
  split; [vm_compute; reflexivity|].
  repeat split;
    try (change 1 with (inject_Z (Z.of_nat 1));
         rewrite beam_search_decode_integer by exact two_readings_decoder_nonneg);
    vm_compute; reflexivity.
Qed.

(** The confidence of the reading returned by beam search, 0.45, is below
    the confidence of the reading of the greedy decoder. *)
Lemma beam_search_confidence_below_greedy :
  (calculate_confidence [0.45%Q] < calculate_confidence [0.50%Q; 0.50%Q])%R.
Proof.
  apply Rnot_le_lt. intros H.
  apply geometric_mean_leb_spec in H;
    [vm_compute in H; discriminate | discriminate | discriminate | |];
    repeat constructor; discriminate.
Qed.

End BeamSearchExamples.

(** * The reading order of detected regions *)

Section ReadingOrder.
Import Sorting Cropper.

Lemma Zleb_total (f : BoundingRegion -> Z) (a b : BoundingRegion) :
  True -> True -> (f a <=? f b) = true \/ (f b <=? f a) = true.
Proof. intros _ _. destruct (Z.leb_spec (f a) (f b)); [left | right; apply Z.leb_le]; lia. Qed.

Lemma Zleb_trans (f : BoundingRegion -> Z) (a b c : BoundingRegion) :
  True -> True -> True ->
  (f a <=? f b) = true -> (f b <=? f c) = true -> (f a <=? f c) = true.
Proof. intros _ _ _ H1 H2. apply Z.leb_le in H1, H2. apply Z.leb_le. lia. Qed.

Lemma Forall_True {A : Type} (l : list A) : Forall (fun _ => True) l.
Proof. induction l; constructor; auto. Qed.

(** ** Rows of a list *)

Section Rows.
Variable close : BoundingRegion -> BoundingRegion -> bool.

Lemma split_rows_head (a : BoundingRegion) (t : list BoundingRegion) :
  exists r rows, split_rows close (a :: t) = (a :: r) :: rows.
Proof.
  simpl. destruct (split_rows close t) as [|[|b row] rows]; eauto.
  destruct (close a b); eauto.
Qed.

Lemma concat_split_rows (l : list BoundingRegion) : concat (split_rows close l) = l.
Proof.
  induction l as [|a t IH]; [reflexivity|]. simpl.
  destruct (split_rows close t) as [|[|b row] rows]; simpl in *; try congruence.
  destruct (close a b); simpl; congruence.
Qed.

Lemma split_rows_nonempty (l : list BoundingRegion) (row : list BoundingRegion) :
  In row (split_rows close l) -> row <> [].
Proof.
  revert row. induction l as [|a t IH]; intros row H; [destruct H|].
  simpl in H. destruct (split_rows close t) as [|[|b r] rows].
  - destruct H as [<-|[]]. discriminate.
  - destruct H as [<-|H]; [discriminate | apply IH; exact H].
  - destruct (close a b).
    + destruct H as [<-|H]; [discriminate | apply IH; right; exact H].
    + destruct H as [<-|H]; [discriminate | apply IH; exact H].
Qed.

(** A row of the tail is contained in a row of the whole list. *)
Lemma split_rows_tail (a : BoundingRegion) (t row : list BoundingRegion) :
  In row (split_rows close t) ->
  exists row', In row' (split_rows close (a :: t)) /\ forall z, In z row -> In z row'.
Proof.
  intros H. simpl. destruct (split_rows close t) as [|[|b r] rows].
  - destruct H.
  - exists row. split; [right; exact H | auto].
  - destruct (close a b).
    + destruct H as [<-|H].
      * exists (a :: b :: r). split; [left; reflexivity | intros z Hz; right; exact Hz].
      * exists row. split; [right; exact H | auto].
    + exists row. split; [right; exact H | auto].
Qed.

End Rows.

(** ** Closeness on a list ordered by vertical center *)

Section Close.
Variable boxes : list BoundingRegion.

Abbreviation close := (same_row_b boxes).
Abbreviation center_leb := (fun a b : BoundingRegion => center2 a <=? center2 b).

Lemma close_sym (a b : BoundingRegion) : close a b = close b a.
Proof.
  unfold same_row_b. replace (center2 b - center2 a) with (- (center2 a - center2 b)) by lia.
  rewrite Z.abs_opp. reflexivity.
Qed.

Lemma close_between (a c b : BoundingRegion) :
  center2 a <= center2 c <= center2 b -> close a b = true ->
  close a c = true /\ close c b = true.
Proof.
  unfold same_row_b. intros H Hab. apply Z.ltb_lt in Hab.
  split; apply Z.ltb_lt; nia.
Qed.

Lemma first_row_close (t : list BoundingRegion) : forall a b,
  sorted_by center_leb (a :: t) -> In b t -> close a b = true ->
  exists r rows, split_rows close (a :: t) = (a :: r) :: rows /\ In b r.
Proof.
  induction t as [|c t IH]; intros a b Hs Hb Hab; [destruct Hb|].
  inversion Hs as [|? ? Hs' Ha]; subst.
  assert (Hac : center2 a <= center2 c).
  { inversion Ha; subst. apply Z.leb_le. assumption. }
  assert (Hcb : center2 c <= center2 b).
  { destruct Hb as [<-|Hb]; [lia|].
    inversion Hs' as [|? ? _ Hc]; subst. rewrite Forall_forall in Hc.
    apply Z.leb_le. apply Hc, list_elem_of_In, Hb. }
  assert (Hab' : center2 a <= center2 b) by lia.
  destruct (close_between a c b (conj Hac Hcb) Hab) as [Cac Ccb].
  destruct Hb as [<-|Hb].
  - destruct (split_rows_head close c t) as (r & rows & E).
    change (split_rows close (a :: c :: t))
      with (match split_rows close (c :: t) with
            | (b :: row) :: rows =>
                if close a b then (a :: b :: row) :: rows else [a] :: (b :: row) :: rows
            | rows => [a] :: rows
            end).
    rewrite E, Cac. exists (c :: r), rows. split; [reflexivity | left; reflexivity].
  - destruct (IH c b Hs' Hb Ccb) as (r & rows & E & Hr).
    change (split_rows close (a :: c :: t))
      with (match split_rows close (c :: t) with
            | (b :: row) :: rows =>
                if close a b then (a :: b :: row) :: rows else [a] :: (b :: row) :: rows
            | rows => [a] :: rows
            end).
    rewrite E, Cac. exists (c :: r), rows. split; [reflexivity | right; exact Hr].
Qed.

(** Two regions within the threshold of each other lie in one row. *)
Lemma split_rows_close (l : list BoundingRegion) : forall a b,
  sorted_by center_leb l -> In a l -> In b l -> close a b = true ->
  exists row, In row (split_rows close l) /\ In a row /\ In b row.
Proof.
  induction l as [|h t IH]; intros a b Hs Ha Hb Hab; [destruct Ha|].
  assert (Hs' : sorted_by center_leb t) by (inversion Hs; assumption).
  destruct Ha as [<-|Ha], Hb as [<-|Hb].
  - destruct (split_rows_head close h t) as (r & rows & E).
    exists (h :: r). rewrite E. repeat split; left; reflexivity.
  - destruct (first_row_close t h b Hs Hb Hab) as (r & rows & E & Hr).
    exists (h :: r). rewrite E.
    split; [left; reflexivity|]. split; [left; reflexivity | right; exact Hr].
  - rewrite close_sym in Hab.
    destruct (first_row_close t h a Hs Ha Hab) as (r & rows & E & Hr).
    exists (h :: r). rewrite E.
    split; [left; reflexivity|]. split; [right; exact Hr | left; reflexivity].
  - destruct (IH a b Hs' Ha Hb Hab) as (row & Hrow & Har & Hbr).
    destruct (split_rows_tail close h t row Hrow) as (row' & Hrow' & Hsub).
    exists row'. auto.
Qed.

(** When closeness is transitive on the list, the members of a row are
    pairwise within the threshold. *)
Lemma split_rows_pairwise (l : list BoundingRegion) :
  (forall a, In a l -> close a a = true) ->
  (forall a b c, In a l -> In b l -> In c l ->
                 close a b = true -> close b c = true -> close a c = true) ->
  forall row a b, In row (split_rows close l) -> In a row -> In b row ->
                  close a b = true.
Proof.
  induction l as [|h t IH]; intros Hrefl Htrans row a b Hrow Ha Hb; [destruct Hrow|].
  assert (IH' : forall row a b, In row (split_rows close t) -> In a row -> In b row ->
                                close a b = true).
  { apply IH.
    - intros z Hz. apply Hrefl. right. exact Hz.
    - intros x y z Hx Hy Hz. apply Htrans; right; assumption. }
  assert (Hsub : forall row z, In row (split_rows close t) -> In z row -> In z t).
  { intros r z Hr Hz. rewrite <- (concat_split_rows close t).
    apply in_concat. eauto. }
  simpl in Hrow. destruct (split_rows close t) as [|[|c r] rows] eqn:E.
  - destruct Hrow as [<-|[]]. destruct Ha as [<-|[]], Hb as [<-|[]].
    apply Hrefl. left. reflexivity.
  - destruct Hrow as [<-|Hrow].
    + destruct Ha as [<-|[]], Hb as [<-|[]]. apply Hrefl. left. reflexivity.
    + apply (IH' row); assumption.
  - destruct (close h c) eqn:Chc.
    + destruct Hrow as [<-|Hrow]; [|apply (IH' row); [right|..]; assumption].
      assert (Hc : forall z, In z (c :: r) -> close h z = true).
      { intros z Hz. apply (Htrans h c z);
          [left; reflexivity | right; apply (Hsub (c :: r)); [left|left]; reflexivity
          | right; apply (Hsub (c :: r)); [left; reflexivity | exact Hz]
          | exact Chc |].
        apply (IH' (c :: r)); [left; reflexivity | left; reflexivity | exact Hz]. }
      destruct Ha as [<-|Ha], Hb as [<-|Hb].
      * apply Hrefl. left. reflexivity.
      * apply Hc. exact Hb.
      * rewrite close_sym. apply Hc. exact Ha.
      * apply (IH' (c :: r)); [left; reflexivity | assumption | assumption].
    + destruct Hrow as [<-|Hrow]; [|apply (IH' row); assumption].
      destruct Ha as [<-|[]], Hb as [<-|[]]. apply Hrefl. left. reflexivity.
Qed.

Lemma total_height_pos (l : list BoundingRegion) :
  l <> [] -> Forall (fun b => 0 < height b) l -> 0 < total_height l.
Proof.
  intros Hne H. induction H as [|b l Hb Hl IH]; [contradiction|]. simpl.
  destruct l as [|c l]; [simpl; lia|].
  specialize (IH ltac:(discriminate)). lia.
Qed.

Lemma close_refl (a : BoundingRegion) :
  boxes <> [] -> Forall (fun b => 0 < height b) boxes -> close a a = true.
Proof.
  intros Hne H. unfold same_row_b. rewrite Z.sub_diag. simpl.
  rewrite Z.mul_0_r. apply Z.ltb_lt, total_height_pos; assumption.
Qed.

End Close.


(** ** The threshold on the vertical centers *)

Lemma vertical_center_diff (a b : BoundingRegion) :
  (vertical_center a - vertical_center b == inject_Z (center2 a - center2 b) / 2)%Q.
Proof.
  unfold vertical_center, center2.
  rewrite <- Z.add_opp_r, inject_Z_plus, inject_Z_opp, !inject_Z_plus, !inject_Z_mult.
  change (inject_Z 2) with 2%Q. field.
Qed.

Lemma Qabs_inject_Z (z : Z) : (Qabs (inject_Z z) == inject_Z (Z.abs z))%Q.
Proof. reflexivity. Qed.

(** The integer test decides the threshold on the vertical centers. *)
Lemma same_row_b_spec (boxes : list BoundingRegion) (a b : BoundingRegion) :
  boxes <> [] -> same_row_b boxes a b = true <-> within_threshold boxes a b.
Proof.
  intros Hne. unfold within_threshold, row_threshold, same_row_b.
  set (n := Z.of_nat (length boxes)).
  assert (Hn : (0 < n)%Z) by (subst n; destruct boxes; [contradiction | simpl; lia]).
  set (d := (center2 a - center2 b)%Z). set (t := total_height boxes).
  rewrite vertical_center_diff. fold d.
  assert (E1 : (Qabs (inject_Z d / 2) == inject_Z (Z.abs d) / 2)%Q).
  { unfold Qdiv. rewrite Qabs_Qmult, Qabs_inject_Z. reflexivity. }
  rewrite E1, Z.ltb_lt.
  assert (Hq : (0 < inject_Z n)%Q) by (rewrite <- (Zlt_Qlt 0%Z); exact Hn).
  split; intros H.
  - apply Qmult_lt_r with (z := (2 * inject_Z n)%Q); [apply Qmult_lt_0_compat; [reflexivity | exact Hq]|].
    assert (L : (inject_Z (Z.abs d) / 2 * (2 * inject_Z n) == inject_Z (n * Z.abs d))%Q).
    { rewrite inject_Z_mult. field. }
    assert (R : (inject_Z t / inject_Z n / 2 * (2 * inject_Z n) == inject_Z t)%Q).
    { field. intros C. rewrite C in Hq. discriminate. }
    rewrite L, R. rewrite <- Zlt_Qlt. exact H.
  - apply (Qmult_lt_r _ _ (2 * inject_Z n)%Q) in H; [|apply Qmult_lt_0_compat; [reflexivity | exact Hq]].
    assert (L : (inject_Z (Z.abs d) / 2 * (2 * inject_Z n) == inject_Z (n * Z.abs d))%Q).
    { rewrite inject_Z_mult. field. }
    assert (R : (inject_Z t / inject_Z n / 2 * (2 * inject_Z n) == inject_Z t)%Q).
    { field. intros C. rewrite C in Hq. discriminate. }
    rewrite L, R in H. rewrite <- Zlt_Qlt in H. exact H.
Qed.

Lemma In_nonempty {A : Type} (a : A) (l : list A) : In a l -> l <> [].
Proof. intros H ->. exact H. Qed.

(** ** The ordered rows *)

Abbreviation x_leb := (fun a b : BoundingRegion => x a <=? x b).
Abbreviation min_y_leb :=
  (fun r1 r2 : list BoundingRegion => row_min_y r1 <=? row_min_y r2).

Lemma group_rows_sorted (boxes : list BoundingRegion) :
  sorted_by (fun a b => center2 a <=? center2 b)
            (sort_by (fun a b => center2 a <=? center2 b) boxes).
Proof.
  apply (sort_by_sorted _ (fun _ => True)).
  - intros a b. apply (Zleb_total center2).
  - intros a b c. apply (Zleb_trans center2).
  - apply Forall_True.
Qed.

Lemma ordered_rows_In (boxes : list BoundingRegion) (row : list BoundingRegion) :
  In row (ordered_rows boxes) <->
  exists row0, In row0 (group_rows boxes) /\ row = sort_by x_leb row0.
Proof.
  unfold ordered_rows. rewrite sort_by_In, in_map_iff.
  split; intros (row0 & H1 & H2); exists row0; auto.
Qed.

Lemma Permutation_concat_map {A : Type} (f : list A -> list A) (rows : list (list A)) :
  (forall row, Permutation (f row) row) ->
  Permutation (concat (map f rows)) (concat rows).
Proof.
  intros Hf. induction rows as [|row rows IH]; simpl; [reflexivity|].
  rewrite Hf, IH. reflexivity.
Qed.

Lemma Permutation_concat_rows {A : Type} (rows rows' : list (list A)) :
  Permutation rows rows' -> Permutation (concat rows) (concat rows').
Proof.
  induction 1 as [|row ? ? ? IH|r1 r2 ?|? ? ? ? IH1 ? IH2]; simpl.
  - reflexivity.
  - rewrite IH. reflexivity.
  - rewrite !app_assoc. apply Permutation_app_tail, Permutation_app_comm.
  - etransitivity; eassumption.
Qed.

Lemma sort_boxes_spatial_perm (boxes : list BoundingRegion) :
  Permutation boxes (sort_boxes_spatial boxes).
Proof.
  unfold sort_boxes_spatial, ordered_rows. symmetry.
  rewrite (Permutation_concat_rows _ _ (sort_by_perm _ _)).
  rewrite (Permutation_concat_map _ _ (sort_by_perm x_leb)).
  unfold group_rows. rewrite concat_split_rows. apply sort_by_perm.
Qed.

Lemma order_and_crop_regions (padding : Z) (min_size : Z * Z) (max_aspect : Q)
    (l : list BoundingRegion) (g : nat -> BoundingRegion -> Crop) :
  (forall i r, region (g i r) = r) ->
  (forall i r, crop_ok min_size max_aspect (g i r)
               = region_ok padding min_size max_aspect r) ->
  map region (List.filter (crop_ok min_size max_aspect) (imap g l))
  = List.filter (region_ok padding min_size max_aspect) l.
Proof.
  revert g. induction l as [|r l IH]; intros g Hr Hg; [reflexivity|].
  rewrite imap_cons. cbn [List.filter].
  rewrite <- (IH (g ∘ S) (fun i r' => Hr (S i) r') (fun i r' => Hg (S i) r')).
  rewrite Hg. destruct (region_ok padding min_size max_aspect r); [|reflexivity].
  cbn [map]. rewrite Hr. reflexivity.
Qed.

(** [row_min_y] is the least y-coordinate of the regions of a row. *)
Lemma row_min_y_spec (row : list BoundingRegion) :
  row <> [] ->
  (exists r, In r row /\ y r = row_min_y row)
  /\ forall r, In r row -> row_min_y row <= y r.
Proof.
  destruct row as [|r0 row]; [contradiction|]. intros _. unfold row_min_y.
  induction row as [|b row IH]; simpl.
  - split; [exists r0; auto|]. intros r [E|[]]. subst r. lia.
  - destruct IH as ((r & Hr & Er) & Hmin). split.
    + destruct (Z.min_spec (y b)
                  (fold_right (fun b acc => Z.min (y b) acc) (y r0) row)) as [[_ E]|[_ E]];
        rewrite E.
      * exists b. auto.
      * exists r. split; [|exact Er]. destruct Hr as [<-|Hr]; [left | right; right]; auto.
    + intros r' [E|[E|Hr']].
      * specialize (Hmin r' (or_introl E)). lia.
      * subst r'. lia.
      * specialize (Hmin r' (or_intror Hr')). lia.
Qed.

(** Rows sorted by [row_min_y] go from top to bottom: a row holds a region
    that is not below any region of a later row. *)
Lemma rows_top_to_bottom (rows : list (list BoundingRegion)) :
  (forall row, In row rows -> row <> []) ->
  sorted_by min_y_leb rows ->
  StronglySorted (fun r1 r2 => exists a, In a r1 /\ forall b, In b r2 -> y a <= y b) rows.
Proof.
  intros Hne Hs. induction Hs as [|r1 rows Hs IH Hall]; constructor.
  - apply IH. intros row Hrow. apply Hne. right. exact Hrow.
  - rewrite Forall_forall in Hall. apply Forall_forall. intros r2 Hr2.
    destruct (row_min_y_spec r1 (Hne r1 (or_introl eq_refl))) as ((a & Ha & Ea) & _).
    exists a. split; [exact Ha|]. intros b Hb.
    apply list_elem_of_In in Hr2.
    destruct (row_min_y_spec r2 (Hne r2 (or_intror Hr2))) as (_ & Hmin).
    specialize (Hall r2 (proj2 (list_elem_of_In _ _) Hr2)). apply Z.leb_le in Hall.
    specialize (Hmin b Hb). lia.
Qed.

(** C1. The order of [sort_boxes_spatial], which is the order of the crops of
    [order_and_crop], is row-major: it is the concatenation of rows that
    partition the regions; two regions whose vertical centers differ by less
    than half the mean region height lie in one row; every row is sorted from
    left to right by the x-coordinate of the top-left corner and the rows are
    sorted from top to bottom by their minimum y-coordinate, the least
    y-coordinate of the regions of the row, so that a row holds a region that
    is not below any region of a later row; and when the row
    bands are distinct (differing by less than the threshold is transitive),
    the regions of a row are exactly the regions within the threshold of each
    other. The regions at (100,50), (300,50) and (100,100) come out in that
    order. *)
Theorem sort_boxes_spatial_row_major :
  (forall boxes : list BoundingRegion,
     let rows := ordered_rows boxes in
     sort_boxes_spatial boxes = concat rows
     /\ Permutation boxes (sort_boxes_spatial boxes)
     /\ (forall padding min_size max_aspect,
           map region (order_and_crop boxes padding min_size max_aspect)
           = List.filter (region_ok padding min_size max_aspect)
                         (sort_boxes_spatial boxes))
     /\ (forall a b, In a boxes -> In b boxes -> within_threshold boxes a b ->
           exists row, In row rows /\ In a row /\ In b row)
     /\ (forall row, In row rows -> row <> [] /\ sorted_by x_leb row)
     /\ sorted_by min_y_leb rows
     /\ (forall row, In row rows ->
           (exists r, In r row /\ y r = row_min_y row)
           /\ forall r, In r row -> row_min_y row <= y r)
     /\ StronglySorted
          (fun r1 r2 => exists a, In a r1 /\ forall b, In b r2 -> y a <= y b) rows
     /\ (Forall (fun b => 0 < height b) boxes ->
         (forall a b c, In a boxes -> In b boxes -> In c boxes ->
            within_threshold boxes a b -> within_threshold boxes b c ->
            within_threshold boxes a c) ->
         forall row a b, In row rows -> In a row -> In b row ->
                         within_threshold boxes a b))
  /\ sort_boxes_spatial
       [example_region 100 100; example_region 300 50; example_region 100 50]
     = [example_region 100 50; example_region 300 50; example_region 100 100].
Proof.
  split; [|vm_compute; reflexivity].
  intros boxes rows.
  assert (Hin : forall z, In z (sort_by (fun a b => center2 a <=? center2 b) boxes)
                          <-> In z boxes) by (intros z; apply sort_by_In).
  split; [reflexivity|]. split; [apply sort_boxes_spatial_perm|].
  split; [intros; apply order_and_crop_regions; reflexivity|].
  assert (Hrows : forall row, In row rows -> row <> [] /\ sorted_by x_leb row).
  { intros row Hrow. apply ordered_rows_In in Hrow as (row0 & Hrow0 & ->). split.
    + apply sort_by_nonempty. apply (split_rows_nonempty _ _ _ Hrow0).
    + apply (sort_by_sorted _ (fun _ => True)).
      * intros a b. apply (Zleb_total x).
      * intros a b c. apply (Zleb_trans x).
      * apply Forall_True. }
  assert (Hsorted : sorted_by min_y_leb rows).
  { apply (sort_by_sorted _ (fun _ => True)).
    + intros r1 r2 _ _.
      destruct (Z.leb_spec (row_min_y r1) (row_min_y r2)); [left | right; apply Z.leb_le]; lia.
    + intros r1 r2 r3 _ _ _ H1 H2. apply Z.leb_le in H1, H2. apply Z.leb_le. lia.
    + apply Forall_True. }
  split; [|split; [exact Hrows|split; [exact Hsorted|split; [|split]]]].
  - intros a b Ha Hb Hab.
    apply (same_row_b_spec boxes a b (In_nonempty _ _ Ha)) in Hab.
    destruct (split_rows_close boxes _ a b (group_rows_sorted boxes)
                (proj2 (Hin a) Ha) (proj2 (Hin b) Hb) Hab) as (row0 & Hrow0 & Ha0 & Hb0).
    exists (sort_by x_leb row0). split; [|split].
    + apply ordered_rows_In. exists row0. auto.
    + apply sort_by_In. exact Ha0.
    + apply sort_by_In. exact Hb0.
  - intros row Hrow. apply row_min_y_spec. apply (Hrows row Hrow).
  - apply rows_top_to_bottom; [|exact Hsorted].
    intros row Hrow. apply (Hrows row Hrow).
  - intros Hpos Htrans row a b Hrow Ha Hb.
    apply ordered_rows_In in Hrow as (row0 & Hrow0 & ->).
    apply sort_by_In in Ha, Hb.
    assert (Hne : boxes <> []).
    { intros ->. unfold group_rows in Hrow0. simpl in Hrow0. exact Hrow0. }
    apply (same_row_b_spec boxes a b Hne).
    apply (split_rows_pairwise boxes
             (sort_by (fun a b => center2 a <=? center2 b) boxes)) with (row := row0);
      try assumption.
    + intros z _. apply close_refl; assumption.
    + intros p q r Hp Hq Hr Hpq Hqr.
      apply (same_row_b_spec boxes p r Hne).
      apply (Htrans p q r); try (apply Hin; assumption);
        apply (same_row_b_spec boxes _ _ Hne); assumption.
Qed.

Lemma sort_boxes_spatial_row_major_witness :
  let boxes := [example_region 100 100; example_region 300 50; example_region 100 50] in
  Forall (fun b => 0 < height b) boxes
  /\ (forall a b c, In a boxes -> In b boxes -> In c boxes ->
        within_threshold boxes a b -> within_threshold boxes b c ->
        within_threshold boxes a c)
  /\ forall row a b, In row (ordered_rows boxes) -> In a row -> In b row ->
                     within_threshold boxes a b.
Proof.
  intros boxes.
  assert (Hne : boxes <> []) by discriminate.
  assert (Hpos : Forall (fun b => 0 < height b) boxes) by (repeat constructor).
  assert (Htrans : forall a b c, In a boxes -> In b boxes -> In c boxes ->
            within_threshold boxes a b -> within_threshold boxes b c ->
            within_threshold boxes a c).
  { intros a b c Ha Hb Hc Hab Hbc.
    apply (same_row_b_spec boxes _ _ Hne) in Hab, Hbc.
    apply (same_row_b_spec boxes _ _ Hne). revert Hab Hbc.
    destruct Ha as [<-|[<-|[<-|[]]]], Hb as [<-|[<-|[<-|[]]]], Hc as [<-|[<-|[<-|[]]]];
      vm_compute; intros; congruence. }
  split; [exact Hpos|]. split; [exact Htrans|].
  destruct (proj1 sort_boxes_spatial_row_major boxes)
    as (_ & _ & _ & _ & _ & _ & _ & _ & Hexact).
  exact (Hexact Hpos Htrans).
Defined.

End ReadingOrder.

(** * The deduplication hash *)

Section HashArithmetic.
Import Text JS JSString Normalization HashReference.

Lemma to_int32_range (z : Z) : - 2 ^ 31 <= to_int32 z < 2 ^ 31.
Proof.
  unfold to_int32. pose proof (Z.mod_pos_bound (z + 2 ^ 31) (2 ^ 32) ltac:(lia)). lia.
Qed.

Lemma to_int32_mod (z : Z) : to_int32 z mod 2 ^ 32 = z mod 2 ^ 32.
Proof.
  unfold to_int32.
  replace ((z + 2 ^ 31) mod 2 ^ 32 - 2 ^ 31)
    with ((z + 2 ^ 31) mod 2 ^ 32 + (- 2 ^ 31)) by lia.
  rewrite Zplus_mod_idemp_l. f_equal. lia.
Qed.

Lemma to_int32_congruent (a b : Z) :
  a mod 2 ^ 32 = b mod 2 ^ 32 -> to_int32 a = to_int32 b.
Proof.
  intros H. unfold to_int32.
  rewrite <- (Zplus_mod_idemp_l a), <- (Zplus_mod_idemp_l b), H. reflexivity.
Qed.

Lemma to_int32_small (z : Z) : - 2 ^ 31 <= z < 2 ^ 31 -> to_int32 z = z.
Proof. intros H. unfold to_int32. rewrite Z.mod_small; lia. Qed.

(** One round of the loop multiplies by 31 and adds the code unit, modulo
    [2^32]. *)
Lemma hash_step_congruent (h H : Z) (c : N) :
  h mod 2 ^ 32 = H mod 2 ^ 32 ->
  hash_step h c mod 2 ^ 32 = (31 * H + Z.of_N c) mod 2 ^ 32.
Proof.
  intros E. unfold hash_step. rewrite to_int32_mod.
  rewrite <- Zplus_mod_idemp_l, <- Zminus_mod_idemp_l, to_int32_mod.
  rewrite Zminus_mod_idemp_l, Zplus_mod_idemp_l.
  replace (h * 32 - h + Z.of_N c) with (31 * h + Z.of_N c) by lia.
  rewrite <- Zplus_mod_idemp_l, <- Zmult_mod_idemp_r, E.
  rewrite Zmult_mod_idemp_r, Zplus_mod_idemp_l. reflexivity.
Qed.

Lemma hash_fold_congruent (units : list N) : forall h H,
  h mod 2 ^ 32 = H mod 2 ^ 32 ->
  fold_left hash_step units h mod 2 ^ 32
  = fold_left (fun acc c => 31 * acc + Z.of_N c) units H mod 2 ^ 32.
Proof.
  induction units as [|c units IH]; intros h H E; simpl; [exact E|].
  apply IH, hash_step_congruent, E.
Qed.

Lemma hash_fold_range (units : list N) : forall h,
  - 2 ^ 31 <= h < 2 ^ 31 -> - 2 ^ 31 <= fold_left hash_step units h < 2 ^ 31.
Proof.
  induction units as [|c units IH]; intros h Hh; simpl; [exact Hh|].
  apply IH. unfold hash_step. apply to_int32_range.
Qed.

End HashArithmetic.

Section HashFormat.
Import Text JS JSString Normalization HashReference.

Variable host_toLowerCase : text -> text.
Variable Number_toString_large : Q -> text.

Lemma digit_of_digit_char (d : N) : (d < 36)%N -> digit_of_char (digit_char d) = d.
Proof.
  intros H. unfold digit_of_char, digit_char.
  destruct (N.ltb_spec d 10).
  - rewrite N_ascii_embedding by lia.
    destruct (N.ltb_spec (48 + d) 58); lia.
  - rewrite N_ascii_embedding by lia.
    destruct (N.ltb_spec (87 + d) 58); lia.
Qed.

Lemma is_digit36_digit_char (d : N) : (d < 36)%N -> is_digit36 (digit_char d) = true.
Proof.
  intros H. unfold is_digit36, digit_char.
  destruct (N.ltb_spec d 10); rewrite N_ascii_embedding by lia.
  - apply orb_true_iff. left. apply andb_true_iff. split; apply N.leb_le; lia.
  - apply orb_true_iff. right. apply andb_true_iff. split; apply N.leb_le; lia.
Qed.

Lemma toString_radix_from_number (fuel : nat) : forall n acc,
  (n < 2 ^ N.of_nat fuel)%N ->
  radix_number 36 0 (toString_radix_from fuel 36 n acc) = radix_number 36 n acc.
Proof.
  induction fuel as [|k IH]; intros n acc Hn.
  - simpl in Hn. replace n with 0%N by lia. reflexivity.
  - cbn [toString_radix_from].
    assert (Hd : (n mod 36 < 36)%N) by (apply N.mod_lt; lia).
    pose proof (N.div_mod n 36 ltac:(lia)) as Hdm.
    destruct (N.eqb_spec (n / 36) 0) as [Z|NZ].
    + cbn [radix_number]. rewrite digit_of_digit_char by exact Hd.
      f_equal. lia.
    + rewrite IH.
      * cbn [radix_number]. rewrite digit_of_digit_char by exact Hd.
        f_equal. lia.
      * rewrite Nat2N.inj_succ, N.pow_succ_r' in Hn.
        apply N.Div0.div_lt_upper_bound. lia.
Qed.

Lemma toString_radix_from_digits (fuel : nat) : forall n acc,
  string_forallb is_digit36 acc = true ->
  string_forallb is_digit36 (toString_radix_from fuel 36 n acc) = true.
Proof.
  induction fuel as [|k IH]; intros n acc Hacc; [exact Hacc|].
  cbn [toString_radix_from].
  assert (Hd : (n mod 36 < 36)%N) by (apply N.mod_lt; lia).
  assert (H' : string_forallb is_digit36 (String (digit_char (n mod 36)) acc) = true).
  { cbn [string_forallb]. rewrite is_digit36_digit_char by exact Hd. exact Hacc. }
  destruct (N.eqb_spec (n / 36) 0); [exact H' | apply IH; exact H'].
Qed.

Lemma toString_radix_from_length (fuel : nat) : forall n acc (j : nat),
  (n < 36 ^ N.of_nat j)%N ->
  (String.length (toString_radix_from (S fuel) 36 n acc)
   <= Nat.max 1 j + String.length acc)%nat
  /\ (S (String.length acc) <= String.length (toString_radix_from (S fuel) 36 n acc))%nat.
Proof.
  induction fuel as [|k IH]; intros n acc j Hn.
  - cbn [toString_radix_from]. destruct (N.eqb_spec (n / 36) 0); simpl; lia.
  - remember (S k) as fuel eqn:Ef. cbn [toString_radix_from].
    destruct (N.eqb_spec (n / 36) 0) as [Z|NZ]; [simpl; lia|].
    subst fuel.
    destruct j as [|j].
    { change (36 ^ N.of_nat 0)%N with 1%N in Hn. assert (n = 0%N) by lia.
      subst n. contradiction NZ. reflexivity. }
    assert (Hq : (n / 36 < 36 ^ N.of_nat j)%N).
    { rewrite Nat2N.inj_succ, N.pow_succ_r' in Hn.
      apply N.Div0.div_lt_upper_bound. lia. }
    destruct (IH (n / 36)%N (String (digit_char (n mod 36)) acc) j Hq) as [U L].
    cbn [String.length] in U, L. split; [|lia].
    destruct j as [|j]; [|lia].
    change (36 ^ N.of_nat 0)%N with 1%N in Hq.
    apply N.lt_1_r in Hq. contradiction.
Qed.

Lemma log2_fuel (n : N) : (n < 2 ^ N.of_nat (S (N.to_nat (N.log2 n))))%N.
Proof.
  rewrite Nat2N.inj_succ, N2Nat.id.
  destruct n as [|p]; [reflexivity|].
  apply N.log2_spec. lia.
Qed.

(** [toString(36)] writes a number that reads back as itself. *)
Lemma toString_radix_number (n : N) :
  radix_number 36 0 (toString_radix 36 n) = n.
Proof.
  unfold toString_radix. rewrite toString_radix_from_number by apply log2_fuel.
  reflexivity.
Qed.

Lemma toISOString_valid (tv : Z) : exists iso, toISOString (Some tv) = Some iso.
Proof.
  unfold toISOString. destruct (civil_from_days (tv / msPerDay)) as [[y m] dt].
  eexists. reflexivity.
Qed.


End HashFormat.
Section TextFacts.
Import Text JS JSString HashReference.

Lemma span_snd_app (p : N -> bool) (a : text) (c : N) (b : text) :
  p c = false -> snd (span p (a ++ c :: b)) = snd (span p a) ++ c :: b.
Proof.
  intros Hc. induction a as [|x a IH]; simpl.
  - rewrite Hc. reflexivity.
  - destruct (p x) eqn:Hx.
    + destruct (span p (a ++ c :: b)) as [u v] eqn:E1.
      destruct (span p a) as [u' v'] eqn:E2. simpl in *. exact IH.
    + reflexivity.
Qed.

Lemma span_snd_head (p : N -> bool) (s : text) :
  match snd (span p s) with
  | [] => True
  | c :: _ => p c = false
  end.
Proof.
  induction s as [|x s IH]; simpl; [exact I|].
  destruct (p x) eqn:Hx.
  - destruct (span p s) as [u v]. exact IH.
  - simpl. exact Hx.
Qed.

Lemma span_snd_fixed (p : N -> bool) (s : text) :
  match s with
  | [] => True
  | c :: _ => p c = false
  end -> snd (span p s) = s.
Proof.
  destruct s as [|c s]; [reflexivity|]. simpl. intros ->. reflexivity.
Qed.

(** Trimming around a character that is not white space. *)
Lemma trim_around (a : text) (c : N) (b : text) :
  is_space c = false ->
  trim (a ++ c :: b) = trimStart a ++ c :: trimEnd b.
Proof.
  intros Hc. unfold trim, strip_with, trimStart, trimEnd.
  rewrite (span_snd_app _ _ _ _ Hc), rev_app_distr. simpl rev at 1.
  rewrite <- app_assoc. simpl app.
  rewrite (span_snd_app _ _ _ _ Hc), rev_app_distr. simpl rev at 1.
  rewrite rev_involutive, <- app_assoc. reflexivity.
Qed.

Lemma trimEnd_cons (c : N) (b : text) :
  is_space c = false -> trimEnd (c :: b) = c :: trimEnd b.
Proof.
  intros Hc. unfold trimEnd. simpl rev at 2.
  rewrite (span_snd_app _ _ _ _ Hc), rev_app_distr. reflexivity.
Qed.

Lemma collapse_from_app (a : text) (c : N) (b : text) : forall in_run,
  is_space c = false ->
  collapse_from in_run (a ++ c :: b)
  = collapse_from in_run a ++ c :: collapse_from false b.
Proof.
  induction a as [|x a IH]; intros in_run Hc; simpl.
  - rewrite Hc. reflexivity.
  - destruct (is_space x); [destruct in_run|]; simpl; rewrite IH by exact Hc; reflexivity.
Qed.

Lemma utf16_units_app (a b : text) :
  utf16_units (a ++ b) = utf16_units a ++ utf16_units b.
Proof. unfold utf16_units. apply flat_map_app. Qed.

Lemma utf16_units_ascii (s : text) : forallb is_ascii s = true -> utf16_units s = s.
Proof.
  induction s as [|c s IH]; [reflexivity|]. simpl. intros H.
  apply andb_true_iff in H as [Hc Hs]. unfold is_ascii in Hc. apply N.ltb_lt in Hc.
  destruct (N.ltb_spec c 65536); [|lia]. simpl. rewrite IH by exact Hs. reflexivity.
Qed.

Lemma forallb_ascii_app (a b : text) :
  forallb is_ascii (a ++ b) = forallb is_ascii a && forallb is_ascii b.
Proof. apply forallb_app. Qed.

End TextFacts.

Section HashCollisions.
Import Text JS JSString Normalization HashReference.

Variable host_toLowerCase : text -> text.
Variable Number_toString_large : Q -> text.

Lemma plain_char_spec (c : N) :
  plain_char c = true ->
  is_ascii c = true /\ is_space c = false /\ ascii_lower c = c.
Proof.
  unfold plain_char. intros H.
  apply andb_true_iff in H as [H H3]. apply andb_true_iff in H as [H1 H2].
  apply negb_true_iff in H2. apply N.eqb_eq in H3. auto.
Qed.

(** The cleaned description around two plain characters. *)
Lemma clean_around (p s : text) (c1 c2 : N) :
  forallb is_ascii p = true -> forallb is_ascii s = true ->
  plain_char c1 = true -> plain_char c2 = true ->
  trim (collapse_spaces (toLowerCase host_toLowerCase (p ++ [c1; c2] ++ s)))
  = trimStart (collapse_spaces (map ascii_lower p))
    ++ [c1; c2] ++ trimEnd (collapse_from false (map ascii_lower s)).
Proof.
  intros Hp Hs H1 H2.
  destruct (plain_char_spec _ H1) as (A1 & S1 & L1).
  destruct (plain_char_spec _ H2) as (A2 & S2 & L2).
  unfold toLowerCase. rewrite !forallb_ascii_app, Hp, Hs. simpl forallb.
  rewrite A1, A2. simpl andb.
  rewrite !map_app. simpl map. rewrite L1, L2.
  unfold collapse_spaces. simpl app.
  rewrite (collapse_from_app _ _ _ _ S1). simpl collapse_from at 2. rewrite S2.
  rewrite (trim_around _ _ _ S1), (trimEnd_cons _ _ S2). reflexivity.
Qed.

Lemma polynomial31_app (u v : list N) :
  polynomial31 (u ++ v)
  = fold_left (fun acc c => 31 * acc + Z.of_N c) v (polynomial31 u).
Proof. unfold polynomial31. apply fold_left_app. Qed.

Lemma hash_loop_polynomial (combined : text) :
  hash_loop combined = to_int32 (polynomial31 (utf16_units combined)).
Proof.
  assert (Hr : - 2 ^ 31 <= hash_loop combined < 2 ^ 31).
  { unfold hash_loop. apply hash_fold_range. lia. }
  rewrite <- (to_int32_small _ Hr). apply to_int32_congruent.
  unfold hash_loop, polynomial31. apply hash_fold_congruent. reflexivity.
Qed.

(** X2. The hash does not tell apart two descriptions that differ in two
    adjacent plain characters [c1 c2] and [d1 d2] with
    [31 * c1 + c2 = 31 * d1 + d2], such as [az] and [b[]. *)
Theorem generateHash_collision (date : Date) (amount : number) (p s : text)
    (c1 c2 d1 d2 : N) :
  forallb is_ascii p = true -> forallb is_ascii s = true ->
  plain_char c1 = true -> plain_char c2 = true ->
  plain_char d1 = true -> plain_char d2 = true ->
  (31 * c1 + c2 = 31 * d1 + d2)%N ->
  generateHash host_toLowerCase Number_toString_large date (p ++ [c1; c2] ++ s) amount
  = generateHash host_toLowerCase Number_toString_large date (p ++ [d1; d2] ++ s) amount.
Proof.
  intros Hp Hs C1 C2 D1 D2 E.
  unfold generateHash. destruct (toISOString date) as [iso|]; [|reflexivity].
  f_equal. f_equal. f_equal. f_equal.
  rewrite !hash_loop_polynomial. f_equal.
  unfold combined_text.
  rewrite (clean_around p s c1 c2 Hp Hs C1 C2), (clean_around p s d1 d2 Hp Hs D1 D2).
  set (dateStr := hd [] (split_on (N.eqb 84) iso)).
  set (front := trimStart (collapse_spaces (map ascii_lower p))).
  set (back := trimEnd (collapse_from false (map ascii_lower s))).
  set (amountStr := toFixed Number_toString_large 2 amount).
  replace (dateStr ++ utf8 "|" ++ (front ++ [c1; c2] ++ back) ++ utf8 "|" ++ amountStr)
    with ((dateStr ++ utf8 "|" ++ front) ++ [c1; c2] ++ (back ++ utf8 "|" ++ amountStr))
    by (rewrite <- !app_assoc; reflexivity).
  replace (dateStr ++ utf8 "|" ++ (front ++ [d1; d2] ++ back) ++ utf8 "|" ++ amountStr)
    with ((dateStr ++ utf8 "|" ++ front) ++ [d1; d2] ++ (back ++ utf8 "|" ++ amountStr))
    by (rewrite <- !app_assoc; reflexivity).
  rewrite !utf16_units_app.
  destruct (plain_char_spec _ C1) as (A1 & _ & _).
  destruct (plain_char_spec _ C2) as (A2 & _ & _).
  destruct (plain_char_spec _ D1) as (B1 & _ & _).
  destruct (plain_char_spec _ D2) as (B2 & _ & _).
  rewrite (utf16_units_ascii [c1; c2]) by (simpl; rewrite A1, A2; reflexivity).
  rewrite (utf16_units_ascii [d1; d2]) by (simpl; rewrite B1, B2; reflexivity).
  rewrite !polynomial31_app. simpl fold_left at 2 4.
  cbn [fold_left app]. f_equal. lia.
Qed.

End HashCollisions.
Section CleanDescription.
Import Text JS JSString Normalization HashReference.

Variable host_toLowerCase : text -> text.
Variable Number_toString_large : Q -> text.

Lemma span_app_parts (p : N -> bool) (s : text) :
  s = fst (span p s) ++ snd (span p s).
Proof.
  induction s as [|c s IH]; simpl; [reflexivity|].
  destruct (p c); [|reflexivity].
  destruct (span p s) as [u v]. simpl in *. rewrite IH at 1. reflexivity.
Qed.

Lemma starts_plain_prefix (a b : text) :
  starts_plain (a ++ b) -> a <> [] -> starts_plain a.
Proof. destruct a; [contradiction | simpl; auto]. Qed.

Lemma trim_parts (s : text) :
  exists front back,
    s = front ++ trim s ++ back
    /\ starts_plain (trim s) /\ starts_plain (rev (trim s)).
Proof.
  unfold trim, strip_with.
  set (A := snd (span is_space s)).
  set (B := snd (span is_space (rev A))).
  exists (fst (span is_space s)), (rev (fst (span is_space (rev A)))).
  assert (EA : s = fst (span is_space s) ++ A) by apply span_app_parts.
  assert (EB : rev A = fst (span is_space (rev A)) ++ B) by apply span_app_parts.
  assert (EA' : A = rev B ++ rev (fst (span is_space (rev A)))).
  { rewrite <- rev_app_distr, <- EB, rev_involutive. reflexivity. }
  split; [|split].
  - rewrite <- EA'. exact EA.
  - destruct (rev B) as [|c r] eqn:E; [exact I|].
    pose proof (span_snd_head is_space s) as H. fold A in H.
    rewrite EA' in H. simpl in H. exact H.
  - rewrite rev_involutive. apply (span_snd_head is_space (rev A)).
Qed.

Lemma trim_fixed (s : text) :
  starts_plain s -> starts_plain (rev s) -> trim s = s.
Proof.
  intros H1 H2. unfold trim, strip_with.
  rewrite (span_snd_fixed is_space s) by exact H1.
  rewrite (span_snd_fixed is_space (rev s)) by exact H2.
  apply rev_involutive.
Qed.

Lemma trim_idempotent (s : text) : trim (trim s) = trim s.
Proof.
  destruct (trim_parts s) as (front & back & _ & H1 & H2).
  apply trim_fixed; assumption.
Qed.

Lemma single_spaced_weaken (s : text) :
  single_spaced true s = true -> single_spaced false s = true.
Proof.
  destruct s as [|c s]; [reflexivity|]. simpl.
  destruct (is_space c); [|auto]. rewrite andb_false_r. discriminate.
Qed.

Lemma single_spaced_suffix (a b : text) : forall after_space,
  single_spaced after_space (a ++ b) = true -> single_spaced false b = true.
Proof.
  induction a as [|c a IH]; intros after_space H; simpl in H.
  - destruct after_space; [apply single_spaced_weaken|]; exact H.
  - destruct (is_space c).
    + apply andb_true_iff in H as [_ H]. exact (IH _ H).
    + exact (IH _ H).
Qed.

Lemma single_spaced_prefix (a b : text) : forall after_space,
  single_spaced after_space (a ++ b) = true -> single_spaced after_space a = true.
Proof.
  induction a as [|c a IH]; intros after_space H; [reflexivity|]. simpl in *.
  destruct (is_space c).
  - apply andb_true_iff in H as [H1 H]. rewrite H1. exact (IH _ H).
  - exact (IH _ H).
Qed.

Lemma collapse_from_single_spaced (s : text) : forall in_run,
  single_spaced in_run (collapse_from in_run s) = true.
Proof.
  induction s as [|c s IH]; intros in_run; [reflexivity|]. simpl.
  destruct (is_space c) eqn:Hc.
  - destruct in_run; [apply IH|]. simpl. rewrite IH. reflexivity.
  - simpl. rewrite Hc. apply IH.
Qed.

Lemma collapse_from_fixed (s : text) : forall in_run,
  single_spaced in_run s = true -> collapse_from in_run s = s.
Proof.
  induction s as [|c s IH]; intros in_run H; [reflexivity|]. simpl in *.
  destruct (is_space c).
  - apply andb_true_iff in H as [H H3]. apply andb_true_iff in H as [H1 H2].
    apply N.eqb_eq in H1. apply negb_true_iff in H2. subst.
    rewrite (IH _ H3). reflexivity.
  - rewrite (IH _ H). reflexivity.
Qed.

Lemma lowered_ascii_lower (c : N) : is_ascii c = true -> lowered (ascii_lower c).
Proof.
  unfold lowered, is_ascii, ascii_lower. intros H. apply N.ltb_lt in H.
  destruct ((65 <=? c)%N && (c <=? 90)%N) eqn:E.
  - apply andb_true_iff in E as [E1 E2]. apply N.leb_le in E1, E2.
    split; [apply N.ltb_lt; lia|].
    destruct (N.leb_spec 65 (c + 32)); destruct (N.leb_spec (c + 32) 90); simpl; lia.
  - rewrite E. split; [apply N.ltb_lt; lia | reflexivity].
Qed.

Lemma Forall_collapse_from (P : N -> Prop) (s : text) : forall in_run,
  P 32%N -> Forall P s -> Forall P (collapse_from in_run s).
Proof.
  induction s as [|c s IH]; intros in_run H32 H; [constructor|].
  apply Forall_cons_iff in H as [Hc Hs]. simpl.
  destruct (is_space c); [destruct in_run|]; auto.
Qed.

Lemma Forall_trim (P : N -> Prop) (s : text) : Forall P s -> Forall P (trim s).
Proof.
  intros H. destruct (trim_parts s) as (front & back & E & _).
  rewrite E in H. apply Forall_app in H as [_ H]. apply Forall_app in H as [H _].
  exact H.
Qed.

Lemma toLowerCase_lowered (s : text) :
  Forall lowered s -> toLowerCase host_toLowerCase s = s.
Proof.
  intros H. unfold toLowerCase.
  assert (A : forallb is_ascii s = true).
  { apply forallb_forall. intros c Hc. rewrite Forall_forall in H.
    apply (H c). apply list_elem_of_In. exact Hc. }
  rewrite A. induction H as [|c s [_ Hc] Hs IH]; [reflexivity|].
  simpl. rewrite Hc. f_equal. apply IH.
  simpl in A. apply andb_true_iff in A as [_ A]. exact A.
Qed.

(** The cleaning of an ASCII description is idempotent. *)
Lemma clean_idempotent (description : text) :
  forallb is_ascii description = true ->
  trim (collapse_spaces (toLowerCase host_toLowerCase
          (trim (collapse_spaces (toLowerCase host_toLowerCase description)))))
  = trim (collapse_spaces (toLowerCase host_toLowerCase description)).
Proof.
  intros A.
  assert (E : toLowerCase host_toLowerCase description = map ascii_lower description)
    by (unfold toLowerCase; rewrite A; reflexivity).
  rewrite E.
  set (L := map ascii_lower description).
  assert (HL : Forall lowered L).
  { subst L. apply Forall_map. apply Forall_forall. intros c Hc.
    apply lowered_ascii_lower.
    rewrite forallb_forall in A. apply A. apply list_elem_of_In. exact Hc. }
  set (C := collapse_spaces L).
  assert (HC : Forall lowered C).
  { apply Forall_collapse_from; [split; reflexivity | exact HL]. }
  assert (SC : single_spaced false C = true) by apply collapse_from_single_spaced.
  set (T := trim C).
  assert (HT : Forall lowered T) by (apply Forall_trim; exact HC).
  assert (ST : single_spaced false T = true).
  { destruct (trim_parts C) as (front & back & EC & _). fold T in EC.
    rewrite EC in SC. apply single_spaced_suffix in SC.
    apply single_spaced_prefix in SC. exact SC. }
  rewrite (toLowerCase_lowered T HT).
  unfold collapse_spaces. rewrite (collapse_from_fixed T false ST).
  apply trim_idempotent.
Qed.

(** X3. The hash of an ASCII description is the hash of its cleaned form
    (lower case, runs of white space as single spaces, trimmed): letter case
    and the amount of white space do not enter the hash. *)
Theorem generateHash_clean_description (date : Date) (description : text)
    (amount : number) :
  forallb is_ascii description = true ->
  generateHash host_toLowerCase Number_toString_large date
    (trim (collapse_spaces (toLowerCase host_toLowerCase description))) amount
  = generateHash host_toLowerCase Number_toString_large date description amount.
Proof.
  intros A. unfold generateHash, combined_text.
  rewrite (clean_idempotent description A). reflexivity.
Qed.

End CleanDescription.

(** * The normalization of raw rows *)

Section NormalizeRows.
Import Text JS JSString HashReference.
Import Normalization.

Variable Date_of_string : text -> Date.
Variable host_toLowerCase host_toUpperCase : text -> text.
Variable Number_toString_large : Q -> text.

Abbreviation parseDate := (Normalizer.parseDate Date_of_string).
Abbreviation normalizeTransaction :=
  (normalizeTransaction Date_of_string host_toLowerCase host_toUpperCase
                        Number_toString_large).
Abbreviation normalizeTransactions :=
  (normalizeTransactions Date_of_string host_toLowerCase host_toUpperCase
                         Number_toString_large).
Abbreviation generateHash := (generateHash host_toLowerCase Number_toString_large).

Lemma generateHash_valid (tv : Z) (description : text) (amount : number) :
  exists h, generateHash (Some tv) description amount = Some h.
Proof.
  unfold Normalization.generateHash.
  destruct (toISOString_valid tv) as [iso ->]. eexists. reflexivity.
Qed.

Lemma abs_positive (a : number) :
  isNaN a = false -> strict_eq a (of_Z 0) = false ->
  (exists q, abs a = Num q /\ (0 < q)%Q) \/ abs a = Inf false.
Proof.
  destruct a as [|q|s]; simpl; intros HN HZ; [discriminate| |right; reflexivity].
  left. exists (Qabs q). split; [reflexivity|].
  assert (Hq : ~ (q == 0)%Q).
  { intros C. apply Qeq_bool_iff in C. unfold of_Z in HZ. simpl in HZ.
    change (inject_Z 0) with 0%Q in HZ. rewrite C in HZ. discriminate. }
  destruct (Qlt_le_dec 0 (Qabs q)) as [H|H]; [exact H|].
  exfalso. apply Hq. apply Qabs_Qle_condition in H as [H1 H2].
  apply Qle_antisym; assumption.
Qed.

(** X4. A raw row is normalized exactly when its date parses, its
    description is not blank and its amount is a number other than zero.
    The transaction then carries the parsed date, the trimmed description,
    which is not empty and has no white space at either end, and the absolute
    value of the amount, which is strictly positive. *)
Theorem normalizeTransaction_spec (raw : CsvParser.RawTransaction) :
  let parsed := Normalizer.parseAmount (CsvParser.amount raw) in
  ((exists message, normalizeTransaction raw = Throw message)
   <-> parseDate (CsvParser.date raw) = None
       \/ trim (CsvParser.description raw) = []
       \/ isNaN parsed = true
       \/ strict_eq parsed (of_Z 0) = true)
  /\ forall t, normalizeTransaction raw = Ok t ->
       parseDate (CsvParser.date raw) = Some (date t)
       /\ description t = trim (CsvParser.description raw)
       /\ description t <> []
       /\ starts_plain (description t) /\ starts_plain (rev (description t))
       /\ amount t = abs parsed
       /\ ((exists q, amount t = Num q /\ (0 < q)%Q) \/ amount t = Inf false)
       /\ generateHash (Some (date t)) (description t) parsed = Some (hash t).
Proof.
  intros parsed. unfold Normalization.normalizeTransaction. fold parsed.
  destruct (parseDate (CsvParser.date raw)) as [tv|] eqn:Hd.
  2:{ split; [|discriminate]. split; [auto | intros _; eexists; reflexivity]. }
  destruct (trim (CsvParser.description raw)) as [|c d] eqn:Ht.
  { split; [|discriminate]. split; [auto | intros _; eexists; reflexivity]. }
  destruct (isNaN parsed) eqn:HN.
  { split; [|discriminate]. split; [auto | intros _; eexists; reflexivity]. }
  destruct (strict_eq parsed (of_Z 0)) eqn:HZ.
  { split; [|discriminate]. split; [auto 6 | intros _; eexists; reflexivity]. }
  cbn [orb]. destruct (generateHash_valid tv (c :: d) parsed) as [h Hh].
  fold generateHash. rewrite Hh. split.
  - split; [intros [m Hm]; discriminate|].
    intros [C|[C|[C|C]]]; discriminate.
  - intros t [= <-]. cbn [date description amount hash].
    destruct (trim_parts (CsvParser.description raw)) as (_ & _ & _ & S1 & S2).
    rewrite Ht in S1, S2.
    repeat split; try assumption; try discriminate.
    apply abs_positive; assumption.
Qed.

Lemma normalize_loop_spec (rest : list CsvParser.RawTransaction) : forall acc i,
  normalized (normalize_loop Date_of_string host_toLowerCase host_toUpperCase
                Number_toString_large acc i rest)
  = normalized acc
    ++ flat_map (fun raw => match normalizeTransaction raw with
                            | Ok t => [t]
                            | Throw _ => []
                            end) rest
  /\ errors (normalize_loop Date_of_string host_toLowerCase host_toUpperCase
               Number_toString_large acc i rest)
     = errors acc
       ++ concat (imap (fun k raw =>
                          match normalizeTransaction raw with
                          | Ok _ => []
                          | Throw message =>
                              [utf8 "Transaction " ++ decimal (N.of_nat (i + k + 1))
                               ++ utf8 ": " ++ message]
                          end) rest).
Proof.
  induction rest as [|raw rest IH]; intros acc i.
  - simpl. rewrite !app_nil_r. auto.
  - cbn [normalize_loop]. destruct (IH (normalize_step Date_of_string host_toLowerCase
                                          host_toUpperCase Number_toString_large acc i raw)
                                       (S i)) as [IH1 IH2].
    rewrite IH1, IH2. clear IH IH1 IH2.
    rewrite imap_cons. cbn [flat_map concat]. unfold normalize_step.
    replace (i + 0 + 1)%nat with (i + 1)%nat by lia.
    assert (E : imap (fun k raw0 =>
                   match normalizeTransaction raw0 with
                   | Ok _ => []
                   | Throw message =>
                       [utf8 "Transaction " ++ decimal (N.of_nat (S i + k + 1))
                        ++ utf8 ": " ++ message]
                   end) rest
              = imap ((fun k raw0 =>
                   match normalizeTransaction raw0 with
                   | Ok _ => []
                   | Throw message =>
                       [utf8 "Transaction " ++ decimal (N.of_nat (i + k + 1))
                        ++ utf8 ": " ++ message]
                   end) ∘ S) rest).
    { apply imap_ext. intros k raw0 _. simpl.
      replace (S (i + k + 1)) with (i + S k + 1)%nat by lia. reflexivity. }
    rewrite E.
    destruct (normalizeTransaction raw) as [t|message]; cbn [normalized errors];
      rewrite <- !app_assoc; auto.
Qed.

Lemma count_rows (rest : list CsvParser.RawTransaction) :
  forall line : nat -> text -> text,
    (length (flat_map (fun raw => match normalizeTransaction raw with
                                  | Ok t => [t]
                                  | Throw _ => []
                                  end) rest)
     + length (concat (imap (fun i raw =>
                               match normalizeTransaction raw with
                               | Ok _ => []
                               | Throw message => [line i message]
                               end) rest))
     = length rest)%nat.
Proof.
  induction rest as [|raw rest IH]; intros line; [reflexivity|].
  rewrite imap_cons. cbn [flat_map concat length]. rewrite !length_app.
  specialize (IH (fun i message => line (S i) message)). unfold compose.
  destruct (normalizeTransaction raw); simpl length; lia.
Qed.

Lemma normalizeTransactions_rows (rawTransactions : list CsvParser.RawTransaction) :
  let result := normalizeTransactions rawTransactions in
  normalized result
  = flat_map (fun raw => match normalizeTransaction raw with
                         | Ok t => [t]
                         | Throw _ => []
                         end) rawTransactions
  /\ errors result
     = concat (imap (fun i raw =>
                       match normalizeTransaction raw with
                       | Ok _ => []
                       | Throw message =>
                           [utf8 "Transaction " ++ decimal (N.of_nat (i + 1))
                            ++ utf8 ": " ++ message]
                       end) rawTransactions)
  /\ (length (normalized result) + length (errors result)
      = length rawTransactions)%nat.
Proof.
  intros result. subst result. unfold Normalization.normalizeTransactions.
  destruct (normalize_loop_spec rawTransactions {| normalized := []; errors := [] |} 0)
    as [H1 H2].
  cbn [normalized errors app] in H1, H2. cbn [Nat.add] in H2.
  rewrite H1, H2. split; [reflexivity|]. split; [reflexivity|].
  apply (count_rows rawTransactions
           (fun i message => utf8 "Transaction " ++ decimal (N.of_nat (i + 1))
                             ++ utf8 ": " ++ message)).
Qed.

(** X5. [normalizeTransactions] keeps, in the order of the rows, the
    transactions of the rows that normalize, and reports one message per
    other row, which starts with the one-based number of the row; every row
    is counted once. *)
Theorem normalizeTransactions_spec (rawTransactions : list CsvParser.RawTransaction) :
  let result := normalizeTransactions rawTransactions in
  normalized result
  = flat_map (fun raw => match normalizeTransaction raw with
                         | Ok t => [t]
                         | Throw _ => []
                         end) rawTransactions
  /\ errors result
     = concat (imap (fun i raw =>
                       match normalizeTransaction raw with
                       | Ok _ => []
                       | Throw message =>
                           [utf8 "Transaction " ++ decimal (N.of_nat (i + 1))
                            ++ utf8 ": " ++ message]
                       end) rawTransactions)
  /\ (length (normalized result) + length (errors result)
      = length rawTransactions)%nat.
Proof. exact (normalizeTransactions_rows rawTransactions). Qed.

End NormalizeRows.

(** * The rows of a CSV file *)

Section CsvRows.
Import Text JS JSString.
Import CsvParser.

Variable host_toLowerCase : text -> text.

Abbreviation normalizeHeaderName := (normalizeHeaderName host_toLowerCase).

(** X6. [normalizeHeaderName] returns one of the seven standard names or the
    header unchanged, and normalizing twice is normalizing once. *)
Theorem normalizeHeaderName_idempotent (header : text) :
  (normalizeHeaderName header = header
   \/ In (normalizeHeaderName header)
         [utf8 "date"; utf8 "description"; utf8 "debit"; utf8 "credit";
          utf8 "amount"; utf8 "balance"; utf8 "type"])
  /\ normalizeHeaderName (normalizeHeaderName header) = normalizeHeaderName header.
Proof.
  remember (normalizeHeaderName header) as r eqn:Er.
  unfold CsvParser.normalizeHeaderName in Er.
  set (normalized := trim (toLowerCase host_toLowerCase header)) in Er.
  destruct (includes normalized (utf8 "date") || includes normalized (utf8 "trans date")
            || includes normalized (utf8 "posting date")) eqn:E1.
  { subst r. split; [right; simpl; auto | reflexivity]. }
  destruct (includes normalized (utf8 "description") || includes normalized (utf8 "memo")
            || includes normalized (utf8 "details")
            || includes normalized (utf8 "narration")) eqn:E2.
  { subst r. split; [right; simpl; auto | reflexivity]. }
  destruct (includes normalized (utf8 "amount") || includes normalized (utf8 "value")
            || text_eqb normalized (utf8 "debit")
            || text_eqb normalized (utf8 "credit")) eqn:E3.
  { destruct (includes normalized (utf8 "debit"));
      [|destruct (includes normalized (utf8 "credit"))];
      subst r; (split; [right; simpl; auto 8 | reflexivity]). }
  destruct (includes normalized (utf8 "balance")
            || includes normalized (utf8 "running balance")) eqn:E4.
  { subst r. split; [right; simpl; auto 8 | reflexivity]. }
  destruct (includes normalized (utf8 "type")
            || includes normalized (utf8 "transaction type")) eqn:E5.
  { subst r. split; [right; simpl; auto 8 | reflexivity]. }
  subst r. split; [left; reflexivity|].
  unfold CsvParser.normalizeHeaderName. fold normalized.
  rewrite E1, E2, E3, E4, E5. reflexivity.
Qed.

Lemma or_else_some (c : N) (s : text) (b : option text) :
  or_else (Some (c :: s)) b = Some (c :: s).
Proof. reflexivity. Qed.

Lemma or_else_choice (flag : bool) (b : option text) :
  or_else (Some (if flag then utf8 "DEBIT" else utf8 "CREDIT")) b
  = Some (if flag then utf8 "DEBIT" else utf8 "CREDIT").
Proof. destruct flag; reflexivity. Qed.

(** The extraction reads the type column only through [or_else], whose first
    argument is never empty. *)
Lemma extractTransactionFromRow_unfold (row : Row) (rowNumber : nat) (any : option text) :
  extractTransactionFromRow row rowNumber
  = let row_date := row !! utf8 "date" in
    let row_description := row !! utf8 "description" in
    let row_amount := row !! utf8 "amount" in
    let row_debit := row !! utf8 "debit" in
    let row_credit := row !! utf8 "credit" in
    let row_balance := row !! utf8 "balance" in
    if negb (truthy row_date) && negb (truthy row_description) then Ok None
    else if negb (truthy row_date) then Throw (utf8 "Missing date field")
    else if negb (truthy row_description) then Throw (utf8 "Missing description field")
    else
      let amount_and_type : result (text * option text) :=
        if truthy row_amount then
          let amount := trim (String_of row_amount) in
          Ok (amount, Some (if starts_with (utf8 "-") amount
                            then utf8 "DEBIT" else utf8 "CREDIT"))
        else if truthy row_debit || truthy row_credit then
          if truthy row_debit
             && negb (text_eqb (String_of row_debit) (utf8 "0"))
             && negb (text_eqb (String_of row_debit) [])
          then Ok (trim (String_of row_debit), Some (utf8 "DEBIT"))
          else if truthy row_credit
                  && negb (text_eqb (String_of row_credit) (utf8 "0"))
                  && negb (text_eqb (String_of row_credit) [])
          then Ok (trim (String_of row_credit), Some (utf8 "CREDIT"))
          else Throw (utf8 "Both debit and credit are empty or zero")
        else
          Throw (utf8 "Missing amount field (expected " ++ quote ++ utf8 "amount" ++ quote
                 ++ utf8 ", " ++ quote ++ utf8 "debit" ++ quote ++ utf8 ", or "
                 ++ quote ++ utf8 "credit" ++ quote ++ utf8 ")") in
      match amount_and_type with
      | Throw message => Throw message
      | Ok (amount, type) =>
          Ok (Some {| date := trim (String_of row_date);
                      description := trim (String_of row_description);
                      amount := amount;
                      type := or_else type any;
                      balance := if truthy row_balance
                                 then Some (trim (String_of row_balance)) else None |})
      end.
Proof.
  unfold extractTransactionFromRow. cbv zeta.
  destruct (negb (truthy (row !! utf8 "date")) && negb (truthy (row !! utf8 "description")));
    [reflexivity|].
  destruct (negb (truthy (row !! utf8 "date"))); [reflexivity|].
  destruct (negb (truthy (row !! utf8 "description"))); [reflexivity|].
  destruct (truthy (row !! utf8 "amount")).
  { rewrite !or_else_choice. reflexivity. }
  destruct (truthy (row !! utf8 "debit") || truthy (row !! utf8 "credit")); [|reflexivity].
  destruct (truthy (row !! utf8 "debit")
            && negb (text_eqb (String_of (row !! utf8 "debit")) (utf8 "0"))
            && negb (text_eqb (String_of (row !! utf8 "debit")) [])); [reflexivity|].
  destruct (truthy (row !! utf8 "credit")
            && negb (text_eqb (String_of (row !! utf8 "credit")) (utf8 "0"))
            && negb (text_eqb (String_of (row !! utf8 "credit")) [])); reflexivity.
Qed.

(** The type of an extracted transaction. *)
Lemma extractTransactionFromRow_type_of (row : Row) (rowNumber : nat)
    (raw : RawTransaction) :
  extractTransactionFromRow row rowNumber = Ok (Some raw) ->
  let is_debit :=
    if truthy (row !! utf8 "amount")
    then starts_with (utf8 "-") (trim (String_of (row !! utf8 "amount")))
    else truthy (row !! utf8 "debit")
         && negb (text_eqb (String_of (row !! utf8 "debit")) (utf8 "0")) in
  type raw = Some (if is_debit then utf8 "DEBIT" else utf8 "CREDIT").
Proof.
  rewrite (extractTransactionFromRow_unfold row rowNumber None). cbv zeta.
  destruct (negb (truthy (row !! utf8 "date")) && negb (truthy (row !! utf8 "description")));
    [discriminate|].
  destruct (negb (truthy (row !! utf8 "date"))); [discriminate|].
  destruct (negb (truthy (row !! utf8 "description"))); [discriminate|].
  destruct (truthy (row !! utf8 "amount")).
  { intros [= <-]. cbn [type]. apply or_else_choice. }
  destruct (truthy (row !! utf8 "debit") || truthy (row !! utf8 "credit")); [|discriminate].
  destruct (truthy (row !! utf8 "debit")) eqn:Td; cbn [andb].
  + destruct (text_eqb (String_of (row !! utf8 "debit")) (utf8 "0")); cbn [negb andb].
    * destruct (truthy (row !! utf8 "credit")
                && negb (text_eqb (String_of (row !! utf8 "credit")) (utf8 "0"))
                && negb (text_eqb (String_of (row !! utf8 "credit")) []));
        [|discriminate].
      intros [= <-]. reflexivity.
    * assert (Ne : text_eqb (String_of (row !! utf8 "debit")) [] = false).
      { destruct (row !! utf8 "debit") as [[|c s]|]; try discriminate. reflexivity. }
      rewrite Ne. cbn [negb]. intros [= <-]. reflexivity.
  + destruct (truthy (row !! utf8 "credit")
              && negb (text_eqb (String_of (row !! utf8 "credit")) (utf8 "0"))
              && negb (text_eqb (String_of (row !! utf8 "credit")) []));
      [|discriminate].
    intros [= <-]. reflexivity.
Qed.

(** X7. The type column of a row has no effect on the extracted
    transaction, whose type is always DEBIT or CREDIT: DEBIT exactly when a
    single amount column starts with a minus sign or, without an amount
    column, when the debit column is filled with something other than 0. *)
Theorem extractTransactionFromRow_type (row : Row) (rowNumber : nat) :
  (forall v, extractTransactionFromRow (<[utf8 "type" := v]> row) rowNumber
             = extractTransactionFromRow row rowNumber)
  /\ extractTransactionFromRow (delete (utf8 "type") row) rowNumber
     = extractTransactionFromRow row rowNumber
  /\ forall raw, extractTransactionFromRow row rowNumber = Ok (Some raw) ->
       let is_debit :=
         if truthy (row !! utf8 "amount")
         then starts_with (utf8 "-") (trim (String_of (row !! utf8 "amount")))
         else truthy (row !! utf8 "debit")
              && negb (text_eqb (String_of (row !! utf8 "debit")) (utf8 "0")) in
       type raw = Some (if is_debit then utf8 "DEBIT" else utf8 "CREDIT").
Proof.
  split; [|split].
  - intros v.
    rewrite (extractTransactionFromRow_unfold (<[utf8 "type" := v]> row) rowNumber None),
            (extractTransactionFromRow_unfold row rowNumber None).
    unfold Row in *. rewrite !lookup_insert_ne by discriminate. reflexivity.
  - rewrite (extractTransactionFromRow_unfold (delete (utf8 "type") row) rowNumber None),
            (extractTransactionFromRow_unfold row rowNumber None).
    unfold Row in *. rewrite !lookup_delete_ne by discriminate. reflexivity.
  - intros raw H. exact (extractTransactionFromRow_type_of row rowNumber raw H).
Qed.

End CsvRows.

(** * From the rows of a file to normalized transactions *)

Section RowsToTransactions.
Import Text JS JSString.

Variable Date_of_string : text -> Date.
Variable host_toLowerCase host_toUpperCase : text -> text.
Variable Number_toString_large : Q -> text.

Abbreviation normalizeTransaction :=
  (Normalization.normalizeTransaction Date_of_string host_toLowerCase host_toUpperCase
                                      Number_toString_large).
Abbreviation determineTransactionType :=
  (Normalization.determineTransactionType host_toUpperCase).

Lemma normalizeTransaction_type (raw : CsvParser.RawTransaction)
    (t : Normalization.NormalizedTransaction) :
  normalizeTransaction raw = Ok t ->
  Normalization.type t
  = determineTransactionType (CsvParser.amount raw) (CsvParser.type raw).
Proof.
  unfold Normalization.normalizeTransaction.
  destruct (Normalizer.parseDate Date_of_string (CsvParser.date raw)); [|discriminate].
  destruct (trim (CsvParser.description raw)); [discriminate|].
  destruct (isNaN (Normalizer.parseAmount (CsvParser.amount raw))
            || strict_eq (Normalizer.parseAmount (CsvParser.amount raw)) (of_Z 0));
    [discriminate|].
  destruct (Normalization.generateHash _ _ _ _ _); [|discriminate].
  intros [= <-]. reflexivity.
Qed.

Lemma determineTransactionType_explicit (amountStr : text) (flag : bool) :
  determineTransactionType amountStr
    (Some (if flag then utf8 "DEBIT" else utf8 "CREDIT"))
  = if flag then Normalizer.DEBIT else Normalizer.CREDIT.
Proof. destruct flag; reflexivity. Qed.

(** X8. The type stored for a row of a CSV file is DEBIT exactly when its
    single amount column starts with a minus sign or, without an amount
    column, when its debit column is filled with something other than 0: the
    sign of the parsed amount is not consulted. *)
Theorem csv_row_type (row : CsvParser.Row) (rowNumber : nat)
    (raw : CsvParser.RawTransaction) (t : Normalization.NormalizedTransaction) :
  CsvParser.extractTransactionFromRow row rowNumber = Ok (Some raw) ->
  normalizeTransaction raw = Ok t ->
  let is_debit :=
    if truthy (row !! utf8 "amount")
    then starts_with (utf8 "-") (trim (String_of (row !! utf8 "amount")))
    else truthy (row !! utf8 "debit")
         && negb (text_eqb (String_of (row !! utf8 "debit")) (utf8 "0")) in
  Normalization.type t = if is_debit then Normalizer.DEBIT else Normalizer.CREDIT.
Proof.
  intros He Hn is_debit.
  rewrite (normalizeTransaction_type raw t Hn).
  pose proof (extractTransactionFromRow_type_of row rowNumber raw He) as Ht.
  cbv zeta in Ht. fold is_debit in Ht. rewrite Ht.
  apply determineTransactionType_explicit.
Qed.

End RowsToTransactions.

(** * Saving the transactions of an import *)

Section FullDedup.
Import Normalization.

Lemma full_dedup_invariant (l : list NormalizedTransaction) : forall st,
  seen st = list_to_set (map hash (unique st)) ->
  NoDup (map hash (unique st)) ->
  let st' := fold_left dedup_step l st in
  seen st' = list_to_set (map hash (unique st'))
  /\ NoDup (map hash (unique st'))
  /\ (length (unique st') + duplicates st'
      = length (unique st) + duplicates st + length l)%nat
  /\ (forall t, In t (unique st') -> In t (unique st) \/ In t l)
  /\ (forall t, In t l -> hash t ∈ seen st').
Proof.
  induction l as [|t l IH]; intros st Hs Hn; cbn [fold_left].
  - cbv zeta. split; [exact Hs|]. split; [exact Hn|]. split; [simpl; lia|].
    split; [auto | intros t []].
  - assert (Hs' : seen (dedup_step st t) = list_to_set (map hash (unique (dedup_step st t)))
                  /\ NoDup (map hash (unique (dedup_step st t)))).
    { unfold dedup_step. destruct (bool_decide (hash t ∈ seen st)) eqn:E; cbn [negb].
      - auto.
      - apply bool_decide_eq_false in E. cbn [seen unique].
        rewrite map_app, list_to_set_app_L. cbn [map list_to_set].
        split; [rewrite Hs; set_solver|].
        apply NoDup_app. split; [exact Hn|]. split; [|apply NoDup_singleton].
        intros h Hh Hh'. apply list_elem_of_singleton in Hh'. subst h.
        apply E. rewrite Hs. apply elem_of_list_to_set. exact Hh. }
    destruct Hs' as [Hs' Hn'].
    destruct (IH (dedup_step st t) Hs' Hn') as (I1 & I2 & I3 & I4 & I5).
    cbv zeta. split; [exact I1|]. split; [exact I2|].
    assert (Hseen : hash t ∈ seen (dedup_step st t)).
    { unfold dedup_step. destruct (bool_decide (hash t ∈ seen st)) eqn:E; cbn [negb seen].
      - apply bool_decide_eq_true in E. exact E.
      - set_solver. }
    assert (Hmono : forall st0 l0 h, h ∈ seen st0 -> h ∈ seen (fold_left dedup_step l0 st0)).
    { intros st0 l0. revert st0. induction l0 as [|u l0 IHl]; intros st0 h Hh; [exact Hh|].
      cbn [fold_left]. apply IHl. unfold dedup_step.
      destruct (bool_decide (hash u ∈ seen st0)); cbn [negb seen]; set_solver. }
    split; [|split].
    + rewrite I3. unfold dedup_step.
      destruct (bool_decide (hash t ∈ seen st)); cbn [negb unique duplicates length];
        rewrite ?length_app; simpl; lia.
    + intros u Hu. destruct (I4 u Hu) as [H|H]; [|right; right; exact H].
      unfold dedup_step in H.
      destruct (bool_decide (hash t ∈ seen st)); cbn [negb unique] in H; [auto|].
      apply in_app_or in H as [H|[<-|[]]]; [auto | right; left; reflexivity].
    + intros u [<-|Hu]; [apply Hmono; exact Hseen | apply I5; exact Hu].
Qed.

(** The transactions kept carry pairwise distinct hashes, which are the hashes
    of the input; every input is kept or counted as a duplicate. *)
Lemma deduplicateTransactions_facts (transactions : list NormalizedTransaction) :
  let '(unique, duplicates) := deduplicateTransactions transactions in
  NoDup (map hash unique)
  /\ (length unique + duplicates = length transactions)%nat
  /\ (forall t, In t unique -> In t transactions)
  /\ (forall t, In t transactions -> In (hash t) (map hash unique)).
Proof.
  unfold deduplicateTransactions.
  destruct (full_dedup_invariant transactions
              {| seen := ∅; unique := []; duplicates := 0 |} eq_refl (NoDup_nil_2))
    as (I1 & I2 & I3 & I4 & I5).
  cbv zeta in *. simpl in I3, I4.
  split; [exact I2|]. split; [exact I3|]. split.
  - intros t Ht. destruct (I4 t Ht) as [[]|H]; exact H.
  - intros t Ht. specialize (I5 t Ht). rewrite I1 in I5.
    apply elem_of_list_to_set in I5. apply list_elem_of_In. exact I5.
Qed.

End FullDedup.

Section SaveTransactions.
Import ImportFile.

Abbreviation stored_row business import_id :=
  (fun t : Normalization.NormalizedTransaction =>
     {| businessId := business;
        importId := import_id;
        date := Normalization.date t;
        description := Normalization.description t;
        amount := Normalization.amount t;
        type := Normalization.type t;
        balance := Normalization.balance t;
        hash := Normalization.hash t;
        category := None |}).

Lemma findMany_hashes_spec (table : Table) (business : string) (hashes : list string)
    (h : string) :
  In h (findMany_hashes table business hashes)
  <-> In h (stored_hashes table business) /\ In h hashes.
Proof.
  unfold findMany_hashes, stored_hashes. rewrite !in_map_iff. split.
  - intros (row & <- & Hrow). apply filter_In in Hrow as [Hin Hc].
    apply andb_true_iff in Hc as [Hb He]. apply existsb_exists in He as (h' & Hh' & E).
    apply String.eqb_eq in E. subst h'. split; [|exact Hh'].
    exists row. split; [reflexivity|]. apply filter_In. auto.
  - intros [(row & <- & Hrow) Hh]. apply filter_In in Hrow as [Hin Hb].
    exists row. split; [reflexivity|]. apply filter_In. split; [exact Hin|].
    rewrite Hb. apply existsb_exists. exists (hash row). split; [exact Hh|].
    apply String.eqb_refl.
Qed.

Lemma holds_hash_In (table : Table) (business h : string) :
  holds_hash table business h = true <-> In h (stored_hashes table business).
Proof.
  unfold holds_hash. rewrite existsb_exists. split.
  - intros (h' & Hh & E). apply String.eqb_eq in E. subst. exact Hh.
  - intros H. exists h. split; [exact H | apply String.eqb_refl].
Qed.

Lemma holds_hash_spec (table : Table) (business h : string) :
  holds_hash table business h
  = bool_decide (h ∈ stored_hashes table business).
Proof.
  destruct (holds_hash table business h) eqn:E.
  - symmetry. apply bool_decide_eq_true. apply list_elem_of_In, holds_hash_In, E.
  - symmetry. apply bool_decide_eq_false. intros C.
    apply list_elem_of_In, holds_hash_In in C. congruence.
Qed.

(** The rows added by [saveTransactions]: those of the transactions whose hash
    is not stored for the business yet. *)
Lemma saveTransactions_added (table : Table) (business import_id : string)
    (transactions : list Normalization.NormalizedTransaction) :
  saveTransactions table business import_id transactions
  = table
    ++ map (stored_row business import_id)
           (List.filter (fun t => negb (holds_hash table business (Normalization.hash t)))
                        transactions).
Proof.
  unfold saveTransactions.
  set (existing := findMany_hashes table business (map Normalization.hash transactions)).
  assert (E : List.filter (fun t => negb (bool_decide
                 (Normalization.hash t ∈ (list_to_set existing : gset string))))
                 transactions
              = List.filter (fun t => negb (holds_hash table business (Normalization.hash t)))
                 transactions).
  { apply filter_ext_in. intros t Ht. f_equal.
    rewrite (holds_hash_spec table business).
    apply bool_decide_ext.
    rewrite elem_of_list_to_set, !list_elem_of_In. subst existing.
    rewrite findMany_hashes_spec. split; [intros [H _]; exact H|].
    intros H. split; [exact H|]. apply in_map. exact Ht. }
  rewrite E. clear E.
  set (new := List.filter _ transactions). clearbody new.
  destruct new as [|t new]; [|reflexivity].
  simpl. rewrite app_nil_r. reflexivity.
Qed.

Lemma stored_hashes_app (table more : Table) (business : string) :
  stored_hashes (table ++ more) business
  = stored_hashes table business ++ stored_hashes more business.
Proof. unfold stored_hashes. rewrite List.filter_app, map_app. reflexivity. Qed.

Lemma stored_hashes_rows (business other import_id : string)
    (l : list Normalization.NormalizedTransaction) :
  stored_hashes (map (stored_row business import_id) l) other
  = if String.eqb business other then map Normalization.hash l else [].
Proof.
  unfold stored_hashes. induction l as [|t l IH]; simpl.
  - destruct (String.eqb business other); reflexivity.
  - destruct (String.eqb business other); simpl; rewrite IH; reflexivity.
Qed.

Lemma NoDup_map_filter {A B : Type} (f : A -> B) (p : A -> bool) (l : list A) :
  NoDup (map f l) -> NoDup (map f (List.filter p l)).
Proof.
  induction l as [|a l IH]; simpl; [auto|]. intros H.
  apply NoDup_cons in H as [Ha Hl]. destruct (p a); [|auto].
  simpl. apply NoDup_cons. split; [|auto].
  intros C. apply Ha. apply list_elem_of_In in C. apply list_elem_of_In.
  apply in_map_iff in C as (x & E & Hx). apply filter_In in Hx as [Hx _].
  rewrite <- E. apply in_map. exact Hx.
Qed.

Lemma filter_none {A : Type} (p : A -> bool) (l : list A) :
  (forall a, In a l -> p a = false) -> List.filter p l = [].
Proof.
  induction l as [|a l IH]; intros H; [reflexivity|]. simpl.
  rewrite (H a (or_introl eq_refl)). apply IH. intros b Hb. apply H. right. exact Hb.
Qed.

Lemma saveTransactions_rows (table : Table) (business import_id : string)
    (transactions : list Normalization.NormalizedTransaction) :
  let table' := saveTransactions table business import_id transactions in
  (exists added,
     table' = table ++ added
     /\ Forall (fun row => businessId row = business /\ importId row = import_id
                           /\ category row = None
                           /\ holds_hash table business (hash row) = false) added
     /\ map hash added
        = map Normalization.hash
            (List.filter (fun t => negb (holds_hash table business (Normalization.hash t)))
                         transactions))
  /\ (forall t, In t transactions ->
                In (Normalization.hash t) (stored_hashes table' business))
  /\ (forall other, other <> business ->
                    stored_hashes table' other = stored_hashes table other)
  /\ forall again,
       saveTransactions table' business again transactions = table'.
Proof.
  intros table'. subst table'.
  rewrite (saveTransactions_added table business import_id transactions).
  set (new := List.filter _ transactions).
  assert (Hcover : forall t, In t transactions ->
            In (Normalization.hash t)
               (stored_hashes (table ++ map (stored_row business import_id) new) business)).
  { intros t Ht. rewrite stored_hashes_app, stored_hashes_rows, String.eqb_refl.
    apply in_or_app.
    destruct (holds_hash table business (Normalization.hash t)) eqn:E.
    - left. apply holds_hash_In. exact E.
    - right. apply in_map. apply filter_In. split; [exact Ht|]. rewrite E. reflexivity. }
  split; [|split; [|split]].
  - exists (map (stored_row business import_id) new). split; [reflexivity|]. split.
    + apply Forall_map. apply Forall_forall. intros t Ht. apply list_elem_of_In in Ht.
      apply filter_In in Ht as [_ Ht]. apply negb_true_iff in Ht.
      cbn [businessId importId category hash]. auto.
    + rewrite map_map. reflexivity.
  - exact Hcover.
  - intros other Ho. rewrite stored_hashes_app, stored_hashes_rows.
    destruct (String.eqb_spec business other) as [E|_]; [congruence|].
    apply app_nil_r.
  - intros again. rewrite saveTransactions_added.
    match goal with
    | |- _ ++ map _ ?l = _ => assert (E : l = []); [|rewrite E; apply app_nil_r]
    end.
    apply filter_none. intros t Ht.
    apply negb_false_iff, holds_hash_In, Hcover. exact Ht.
Qed.

(** X9. [saveTransactions] appends, for the business and the import, one
    row per transaction whose hash the business does not hold yet; the rows
    already stored are untouched, every transaction given is held afterwards,
    and saving the same transactions again, under any import, adds
    nothing. *)
Theorem saveTransactions_spec (table : Table) (business import_id : string)
    (transactions : list Normalization.NormalizedTransaction) :
  let table' := saveTransactions table business import_id transactions in
  (exists added,
     table' = table ++ added
     /\ Forall (fun row => businessId row = business /\ importId row = import_id
                           /\ category row = None
                           /\ holds_hash table business (hash row) = false) added
     /\ map hash added
        = map Normalization.hash
            (List.filter (fun t => negb (holds_hash table business (Normalization.hash t)))
                         transactions))
  /\ (forall t, In t transactions ->
                In (Normalization.hash t) (stored_hashes table' business))
  /\ (forall other, other <> business ->
                    stored_hashes table' other = stored_hashes table other)
  /\ forall again,
       saveTransactions table' business again transactions = table'.
Proof. exact (saveTransactions_rows table business import_id transactions). Qed.

Lemma saveTransactions_NoDup (table : Table) (business import_id : string)
    (transactions : list Normalization.NormalizedTransaction) :
  NoDup (stored_hashes table business) ->
  NoDup (map Normalization.hash transactions) ->
  NoDup (stored_hashes (saveTransactions table business import_id transactions) business).
Proof.
  intros Ht Hn. rewrite saveTransactions_added, stored_hashes_app, stored_hashes_rows,
    String.eqb_refl.
  apply NoDup_app. split; [exact Ht|]. split; [|apply NoDup_map_filter; exact Hn].
  intros h Hh Hh'. apply list_elem_of_In in Hh, Hh'.
  apply in_map_iff in Hh' as (t & <- & Hin). apply filter_In in Hin as [_ Hin].
  apply negb_true_iff in Hin. apply holds_hash_In in Hh. congruence.
Qed.

End SaveTransactions.

Section ImportRows.
Import ImportFile.

Variable Date_of_string : Text.text -> JS.Date.
Variable host_toLowerCase host_toUpperCase : Text.text -> Text.text.
Variable Number_toString_large : Q -> Text.text.

Abbreviation normalizeTransactions :=
  (Normalization.normalizeTransactions Date_of_string host_toLowerCase host_toUpperCase
                                       Number_toString_large).

(** X10. The steps of [processImport] on the parsed rows (normalize,
    deduplicate, save) keep the hashes held by a business pairwise distinct;
    every row is counted once, as a transaction kept, as a duplicate or as an
    error; the hash of every normalized row is held afterwards; and running
    the steps again on the same rows stores nothing. *)
Theorem import_rows_spec (table : Table) (business import_id : string)
    (rawTransactions : list CsvParser.RawTransaction) :
  NoDup (stored_hashes table business) ->
  let result := normalizeTransactions rawTransactions in
  let deduplicated :=
    Normalization.deduplicateTransactions (Normalization.normalized result) in
  let table' := saveTransactions table business import_id (fst deduplicated) in
  NoDup (stored_hashes table' business)
  /\ (length (fst deduplicated) + snd deduplicated
      + length (Normalization.errors result)
      = length rawTransactions)%nat
  /\ (forall t, In t (Normalization.normalized result) ->
                In (Normalization.hash t) (stored_hashes table' business))
  /\ forall again,
       saveTransactions table' business again (fst deduplicated) = table'.
Proof.
  intros Hn result deduplicated table'.
  pose proof (deduplicateTransactions_facts (Normalization.normalized result)) as F.
  fold deduplicated in F. destruct deduplicated as [unique duplicates] eqn:Ed.
  destruct F as (F1 & F2 & F3 & F4). cbn [fst snd] in *.
  destruct (normalizeTransactions_rows Date_of_string host_toLowerCase host_toUpperCase
              Number_toString_large rawTransactions) as (_ & _ & N3).
  fold result in N3.
  destruct (saveTransactions_rows table business import_id unique)
    as (_ & S2 & _ & S4).
  fold table' in S2, S4.
  split; [apply saveTransactions_NoDup; assumption|].
  split; [lia|]. split; [|exact S4].
  intros t Ht. specialize (F4 t Ht). apply in_map_iff in F4 as (u & E & Hu).
  rewrite <- E. apply S2. exact Hu.
Qed.

End ImportRows.

(** * Ledger documents *)

Section LedgerDocuments.
Import Schema Documents Samples.
Local Open Scope Q_scope.

(** X11. Whatever it is built from, a document holds the transactions of
    its pages, in order: built from pages, it ignores the list of
    transactions given beside them; built from transactions only, it has a
    single page, number 1, that holds them all. *)
Theorem LedgerDocument_init_pages (pages : option (list LedgerPage))
    (transactions : option (list Transaction)) :
  let doc := LedgerDocument_init pages transactions in
  Documents.transactions doc = flat_map page_transactions (Documents.pages doc)
  /\ transaction_count doc
     = fold_right Nat.add 0%nat (map page_transaction_count (Documents.pages doc))
  /\ (if nonempty pages then Documents.pages doc = list_of pages
      else Documents.transactions doc = list_of transactions
           /\ Documents.pages doc
              = match list_of transactions with
                | [] => []
                | l => [{| page_number := 1%Z; page_transactions := l |}]
                end).
Proof.
  intros doc.
  assert (H1 : Documents.transactions doc
               = flat_map page_transactions (Documents.pages doc)).
  { subst doc. unfold LedgerDocument_init.
    destruct (nonempty pages); [reflexivity|].
    destruct (nonempty transactions); [|reflexivity].
    cbn [Documents.transactions Documents.pages flat_map page_transactions].
    rewrite app_nil_r. reflexivity. }
  split; [exact H1|]. split.
  - unfold transaction_count. rewrite H1. clear H1.
    induction (Documents.pages doc) as [|p ps IH]; [reflexivity|].
    cbn [flat_map map fold_right]. rewrite length_app, IH. reflexivity.
  - subst doc. unfold LedgerDocument_init.
    destruct (nonempty pages) eqn:Ep; [reflexivity|].
    destruct transactions as [[|t l]|]; simpl; auto.
Qed.

Lemma fold_left_Qplus (l : list Q) : forall a, fold_left Qplus l a == a + py_sum l.
Proof.
  unfold py_sum. induction l as [|x l IH]; intros a; simpl.
  - ring.
  - rewrite (IH (a + x)), (IH (0 + x)). ring.
Qed.

Lemma py_sum_cons (x : Q) (l : list Q) : py_sum (x :: l) == x + py_sum l.
Proof. unfold py_sum at 1. simpl. rewrite fold_left_Qplus. ring. Qed.

Lemma exact_balances_closing (rest : list Transaction) : forall t prev,
  balance t = Some prev ->
  exact_balances_from prev rest ->
  exists closing,
    match Sorting.py_last (t :: rest) with
    | Some u => balance u
    | None => Some 0
    end = Some closing
    /\ closing == prev + py_sum (map credit rest) - py_sum (map debit rest).
Proof.
  induction rest as [|u rest IH]; intros t prev Ht H.
  - exists prev. simpl. split; [exact Ht|]. unfold py_sum. simpl. ring.
  - cbn [exact_balances_from] in H. destruct (balance u) as [b|] eqn:Eb; [|contradiction].
    destruct H as [Hb H]. destruct (IH u b Eb H) as (closing & Hc & Hv).
    exists closing. split.
    + cbn [Sorting.py_last] in *. exact Hc.
    + rewrite Hv, Hb. cbn [map]. rewrite !py_sum_cons. ring.
Qed.

(** X12. On a document whose stated balances satisfy the balance equation
    exactly, the closing balance of the summary is the opening balance plus
    the net cash flow, less the movement of the first transaction (credit
    minus debit), whose balance is the opening balance. *)
Theorem summary_statistics_exact_balances (doc : LedgerDocument) (first : Transaction)
    (rest : list Transaction) :
  Documents.transactions doc = first :: rest ->
  exact_balances (Documents.transactions doc) ->
  let summary := summary_statistics doc in
  exists opening closing,
    opening_balance summary = Some opening
    /\ closing_balance summary = Some closing
    /\ closing == opening + net_cashflow summary - (credit first - debit first)
    /\ net_cashflow summary
       == py_sum (map credit (Documents.transactions doc))
          - py_sum (map debit (Documents.transactions doc)).
Proof.
  intros E H summary. subst summary. unfold summary_statistics. rewrite E in *.
  cbn [opening_balance closing_balance net_cashflow total_credits total_debits].
  cbn [exact_balances] in H. destruct (balance first) as [o|] eqn:Eo; [|contradiction].
  destruct (exact_balances_closing rest first o Eo H) as (closing & Hc & Hv).
  exists o, closing. split; [reflexivity|]. split; [exact Hc|]. split; [|reflexivity].
  rewrite Hv. cbn [map]. rewrite !py_sum_cons. ring.
Qed.

Lemma list_min_spec (ds : list Z) : forall d,
  (list_min d ds <= d)%Z
  /\ Forall (fun x => (list_min d ds <= x)%Z) ds
  /\ (list_min d ds = d \/ In (list_min d ds) ds).
Proof.
  unfold list_min. induction ds as [|x ds IH]; intros d; simpl.
  - split; [lia|]. split; [constructor | auto].
  - destruct (IH (Z.min d x)) as (I1 & I2 & I3). split; [lia|]. split.
    + constructor; [lia | exact I2].
    + destruct I3 as [I3|I3]; [|auto].
      rewrite I3. destruct (Z.min_spec d x) as [[_ ->]|[_ ->]]; auto.
Qed.

Lemma list_max_spec (ds : list Z) : forall d,
  (d <= list_max d ds)%Z
  /\ Forall (fun x => (x <= list_max d ds)%Z) ds
  /\ (list_max d ds = d \/ In (list_max d ds) ds).
Proof.
  unfold list_max. induction ds as [|x ds IH]; intros d; simpl.
  - split; [lia|]. split; [constructor | auto].
  - destruct (IH (Z.max d x)) as (I1 & I2 & I3). split; [lia|]. split.
    + constructor; [lia | exact I2].
    + destruct I3 as [I3|I3]; [|auto].
      rewrite I3. destruct (Z.max_spec d x) as [[_ ->]|[_ ->]]; auto.
Qed.

(** X13. The date range of a document without transactions is
    [(None, None)]; otherwise its two ends are dates of transactions of the
    document and every date of the document lies between them. *)
Theorem date_range_bounds (doc : LedgerDocument) :
  match date_range doc with
  | (Some start, Some stop) =>
      Documents.transactions doc <> []
      /\ (exists t, In t (Documents.transactions doc) /\ date t = start)
      /\ (exists t, In t (Documents.transactions doc) /\ date t = stop)
      /\ forall t, In t (Documents.transactions doc) -> (start <= date t <= stop)%Z
  | (None, None) => Documents.transactions doc = []
  | _ => False
  end.
Proof.
  unfold date_range. destruct (Documents.transactions doc) as [|t l]; [reflexivity|].
  cbn [map].
  destruct (list_min_spec (map date l) (date t)) as (A1 & A2 & A3).
  destruct (list_max_spec (map date l) (date t)) as (B1 & B2 & B3).
  split; [discriminate|]. split; [|split].
  - destruct A3 as [A3|A3]; [exists t; split; [left; reflexivity | auto]|].
    apply in_map_iff in A3 as (u & Eu & Hu). exists u. split; [right; exact Hu | exact Eu].
  - destruct B3 as [B3|B3]; [exists t; split; [left; reflexivity | auto]|].
    apply in_map_iff in B3 as (u & Eu & Hu). exists u. split; [right; exact Hu | exact Eu].
  - intros u [<-|Hu]; [lia|].
    rewrite Forall_forall in A2, B2.
    assert (Hd : date u ∈ map date l) by (apply list_elem_of_In, in_map; exact Hu).
    specialize (A2 _ Hd). specialize (B2 _ Hd). lia.
Qed.

End LedgerDocuments.

(** * Validation reports *)

Section ValidationReports.
Import Validators Reports.

Lemma report_fold (calls : list call) : forall self,
  let r := fold_left perform calls self in
  Reports.errors r = Reports.errors self ++ errors_of calls
  /\ Reports.warnings r = Reports.warnings self ++ warnings_of calls
  /\ is_valid r = (is_valid self && match errors_of calls with [] => true | _ => false end)
  /\ total_transactions r = total_transactions self
  /\ valid_transactions r = valid_transactions self
  /\ invalid_transactions r = invalid_transactions self.
Proof.
  induction calls as [|c calls IH]; intros self; cbn [fold_left].
  - cbv zeta. simpl. rewrite !app_nil_r, andb_true_r. auto 6.
  - destruct (IH (perform self c)) as (I1 & I2 & I3 & I4 & I5 & I6). cbv zeta.
    rewrite I1, I2, I3, I4, I5, I6.
    destruct c as [e|w]; cbn [perform add_error add_warning Reports.errors Reports.warnings
                               is_valid total_transactions valid_transactions
                               invalid_transactions errors_of warnings_of flat_map app];
      rewrite <- ?app_assoc; cbn [app]; repeat split.
    destruct (is_valid self); reflexivity.
Qed.

(** X14. After any sequence of [add_error] and [add_warning] on a fresh
    report, the report holds the errors and the warnings in the order they
    were added, and it is valid exactly when no error was added: warnings
    never invalidate it; the counters stay at zero. *)
Theorem ValidationReport_valid_iff_no_error (calls : list call) :
  let r := report_after calls in
  Reports.errors r = errors_of calls
  /\ Reports.warnings r = warnings_of calls
  /\ (is_valid r = true <-> Reports.errors r = [])
  /\ total_transactions r = 0%nat /\ valid_transactions r = 0%nat
  /\ invalid_transactions r = 0%nat.
Proof.
  intros r. subst r. unfold report_after.
  destruct (report_fold calls ValidationReport_init) as (I1 & I2 & I3 & I4 & I5 & I6).
  cbv zeta in *. simpl in I1, I2, I3, I4, I5, I6.
  rewrite I1, I2, I3, I4, I5, I6. repeat split; try reflexivity.
  - destruct (errors_of calls); [reflexivity | discriminate].
  - intros ->. reflexivity.
Qed.

End ValidationReports.

(** * Rectangles and crops *)

Section Rectangles.
Import Geometry.

(** X15. The rectangle of a quadrilateral has a non-negative width and
    height, contains the four corners, and is the smallest such rectangle:
    each of its sides passes through a corner. *)
Theorem quadrilateral_to_rectangle_bounds (p1 p2 p3 p4 : Z * Z) :
  let '(x_min, y_min, width, height) := quadrilateral_to_rectangle p1 p2 p3 p4 in
  0 <= width /\ 0 <= height
  /\ Forall (fun p => x_min <= fst p <= x_min + width
                      /\ y_min <= snd p <= y_min + height) [p1; p2; p3; p4]
  /\ In x_min (map fst [p1; p2; p3; p4])
  /\ In (x_min + width) (map fst [p1; p2; p3; p4])
  /\ In y_min (map snd [p1; p2; p3; p4])
  /\ In (y_min + height) (map snd [p1; p2; p3; p4]).
Proof.
  destruct p1 as [x1 y1], p2 as [x2 y2], p3 as [x3 y3], p4 as [x4 y4].
  unfold quadrilateral_to_rectangle, min4, max4. cbn [fst snd map In].
  split; [lia|]. split; [lia|]. split.
  - repeat constructor; cbn [fst snd]; lia.
  - repeat split; lia.
Qed.

(** X16. The bounds of a padded crop never leave the image. When the region
    lies in the image and the padding is not negative, the crop contains the
    region and is at most the region with its padding on each side. *)
Theorem crop_bounds_in_image (image_width image_height x y w h padding : Z) :
  0 <= image_width -> 0 <= image_height ->
  let '(x_start, y_start, x_end, y_end) :=
    crop_bounds image_width image_height x y w h padding in
  (0 <= x_start /\ 0 <= y_start /\ x_end <= image_width /\ y_end <= image_height)
  /\ (0 <= padding -> 0 <= w -> 0 <= h ->
      0 <= x -> x + w <= image_width -> 0 <= y -> y + h <= image_height ->
      x_start <= x /\ x + w <= x_end /\ y_start <= y /\ y + h <= y_end
      /\ x_end - x_start <= w + 2 * padding /\ y_end - y_start <= h + 2 * padding).
Proof.
  intros HW HH. unfold crop_bounds. split; [lia|]. intros. lia.
Qed.

End Rectangles.

(** * Bounds on confidences *)

Section ConfidenceBounds.
Import Schema Validators Confidence.
Local Open Scope Q_scope.

Lemma Qsum_bounds (lo hi : Q) (l : list Q) :
  Forall (fun c => lo <= c /\ c <= hi) l ->
  inject_Z (Z.of_nat (length l)) * lo <= Qsum l
  /\ Qsum l <= inject_Z (Z.of_nat (length l)) * hi.
Proof.
  induction 1 as [|c l [H1 H2] Hl [IH1 IH2]].
  - simpl. split; apply Qle_lteq; right; ring.
  - cbn [Qsum fold_right length]. fold (Qsum l).
    rewrite Nat2Z.inj_succ, <- Z.add_1_l, inject_Z_plus.
    change (inject_Z 1) with 1. split.
    + apply Qle_trans with (lo + inject_Z (Z.of_nat (length l)) * lo);
        [apply Qle_lteq; right; ring|].
      apply Qplus_le_compat; assumption.
    + apply Qle_trans with (hi + inject_Z (Z.of_nat (length l)) * hi);
        [|apply Qle_lteq; right; ring].
      apply Qplus_le_compat; assumption.
Qed.

(** The mean of a non-empty list lies between the bounds of its elements. *)
Lemma mean_bounds (lo hi : Q) (l : list Q) (m : Q) :
  Forall (fun c => lo <= c /\ c <= hi) l -> mean l = Some m -> lo <= m /\ m <= hi.
Proof.
  intros H E. destruct l as [|c l]; [discriminate|].
  injection E as <-. destruct (Qsum_bounds lo hi (c :: l) H) as [H1 H2].
  set (n := inject_Z (Z.of_nat (length (c :: l)))) in *.
  assert (Hn : 0 < n).
  { subst n. rewrite <- (Zlt_Qlt 0). simpl length. lia. }
  split.
  - apply Qle_shift_div_l; [exact Hn|]. rewrite Qmult_comm. exact H1.
  - apply Qle_shift_div_r; [exact Hn|]. rewrite Qmult_comm. exact H2.
Qed.

(** X17. With detection and recognition confidences between 0 and 1, the
    document confidence of the scorer lies between 0.4 and 1 for a valid
    report and between 0.2 and 0.8 for a report that is not valid. *)
Theorem compute_document_confidence_range
    (detection_boxes : list BoundingBox)
    (recognition_results : list RecognitionResult)
    (transactions : list Transaction)
    (validation_result : ValidationResult) (c : Q) :
  Forall (fun b => 0 <= box_confidence b /\ box_confidence b <= 1) detection_boxes ->
  Forall (fun r => 0 <= rec_confidence r /\ rec_confidence r <= 1) recognition_results ->
  compute_document_confidence detection_boxes recognition_results transactions
    validation_result = Some c ->
  if valid validation_result then 0.4 <= c /\ c <= 1 else 0.2 <= c /\ c <= 0.8.
Proof.
  intros Hd Hr. unfold compute_document_confidence.
  destruct (mean (map box_confidence detection_boxes)) as [d|] eqn:Ed; [|discriminate].
  destruct (mean (map rec_confidence recognition_results)) as [r|] eqn:Er; [|discriminate].
  intros [= <-].
  assert (Hd' : Forall (fun c => 0 <= c /\ c <= 1) (map box_confidence detection_boxes)).
  { apply Forall_map. exact Hd. }
  assert (Hr' : Forall (fun c => 0 <= c /\ c <= 1) (map rec_confidence recognition_results)).
  { apply Forall_map. exact Hr. }
  destruct (mean_bounds 0 1 _ d Hd' Ed) as [D1 D2].
  destruct (mean_bounds 0 1 _ r Hr' Er) as [R1 R2].
  destruct (valid validation_result); split.
  - apply Qle_trans with (0.2 * 0 + 0.4 * 0 + 0.4 * 1.0); [discriminate|].
    apply Qplus_le_compat; [apply Qplus_le_compat|apply Qle_refl];
      (apply Qmult_le_l; [reflexivity | assumption]).
  - apply Qle_trans with (0.2 * 1 + 0.4 * 1 + 0.4 * 1.0); [|discriminate].
    apply Qplus_le_compat; [apply Qplus_le_compat|apply Qle_refl];
      (apply Qmult_le_l; [reflexivity | assumption]).
  - apply Qle_trans with (0.2 * 0 + 0.4 * 0 + 0.4 * 0.5); [discriminate|].
    apply Qplus_le_compat; [apply Qplus_le_compat|apply Qle_refl];
      (apply Qmult_le_l; [reflexivity | assumption]).
  - apply Qle_trans with (0.2 * 1 + 0.4 * 1 + 0.4 * 0.5); [|discriminate].
    apply Qplus_le_compat; [apply Qplus_le_compat|apply Qle_refl];
      (apply Qmult_le_l; [reflexivity | assumption]).
Qed.

End ConfidenceBounds.

Section TesseractConfidence.
Import Confidence Documents Tesseract.
Local Open Scope Q_scope.

Lemma py_sum_Qsum (l : list Q) : py_sum l == Qsum l.
Proof.
  induction l as [|x l IH]; [reflexivity|].
  rewrite py_sum_cons, IH. reflexivity.
Qed.

(** X18. The recognizer joins the words with single spaces. Its confidence
    is the mean of the confidences other than -1, divided by 100: it is 0
    when there is none, and it lies between 0 and 1 when every confidence is
    -1 or lies between 0 and 100. *)
Theorem tesseract_confidence_range (data : Data) :
  Forall (fun c => c == -1 \/ (0 <= c /\ c <= 100)) (data_conf data) ->
  let result := recognize data in
  let words := List.filter (fun c => negb (Qeq_bool c (-1))) (data_conf data) in
  text result = String.concat " " (data_text data)
  /\ (0 <= rec_confidence result /\ rec_confidence result <= 1)
  /\ match words with
     | [] => rec_confidence result == 0
     | _ => rec_confidence result * 100 * inject_Z (Z.of_nat (length words)) == Qsum words
     end.
Proof.
  intros H result words. subst result. unfold recognize. fold words.
  cbn [text rec_confidence].
  assert (Hw : Forall (fun c => 0 <= c /\ c <= 100) words).
  { subst words. apply Forall_forall. intros c Hc. apply list_elem_of_In in Hc.
    apply filter_In in Hc as [Hin Hc]. rewrite Forall_forall in H.
    destruct (H c (proj2 (list_elem_of_In _ _) Hin)) as [E|B]; [|exact B].
    apply Qeq_bool_iff in E. rewrite E in Hc. discriminate. }
  split; [reflexivity|]. clearbody words.
  destruct words as [|w ws].
  - split; [split; discriminate | reflexivity].
  - set (l := w :: ws) in *.
    destruct (Qsum_bounds 0 100 l Hw) as [H1 H2].
    set (n := inject_Z (Z.of_nat (length l))) in *.
    assert (Hn : 0 < n).
    { subst n l. rewrite <- (Zlt_Qlt 0). simpl length. lia. }
    rewrite <- (py_sum_Qsum l) in H1, H2.
    split; [split|].
    + apply Qle_shift_div_l; [reflexivity|]. apply Qle_shift_div_l; [exact Hn|].
      apply Qle_trans with (n * 0); [apply Qle_lteq; right; ring | exact H1].
    + apply Qle_shift_div_r; [reflexivity|]. apply Qle_shift_div_r; [exact Hn|].
      apply Qle_trans with (n * 100); [exact H2 | apply Qle_lteq; right; ring].
    + rewrite <- (py_sum_Qsum l). field. intros C. rewrite C in Hn. discriminate.
Qed.

End TesseractConfidence.

(** * The shape of decoded sequences *)

Section Argmax.
Import Sorting Decoders DecoderReference.
Local Open Scope Q_scope.

Lemma argmax_from_spec (rest : list Q) : forall (pre : list Q) (best : nat) (best_value : Q),
  (best < length pre)%nat ->
  nth best (pre ++ rest) 0 = best_value ->
  Forall (fun v => v <= best_value) pre ->
  let m := argmax_from best best_value (length pre) rest in
  (m < length (pre ++ rest))%nat
  /\ Forall (fun v => v <= nth m (pre ++ rest) 0) (pre ++ rest).
Proof.
  induction rest as [|v rest IH]; intros pre best best_value Hb Hv Hpre; cbn [argmax_from].
  - cbv zeta. rewrite app_nil_r in *. subst best_value. auto.
  - assert (E : pre ++ v :: rest = (pre ++ [v]) ++ rest) by (rewrite <- app_assoc; reflexivity).
    destruct (Qle_bool v best_value) eqn:Hle.
    + apply Qle_bool_iff in Hle.
      replace (S (length pre)) with (length (pre ++ [v])) by (rewrite length_app; simpl; lia).
      rewrite E. apply IH.
      * rewrite length_app. simpl. lia.
      * rewrite <- E. exact Hv.
      * apply Forall_app. split; [exact Hpre | constructor; [exact Hle | constructor]].
    + assert (Hlt : best_value < v).
      { apply Qnot_le_lt. intros C. apply Qle_bool_iff in C. congruence. }
      replace (S (length pre)) with (length (pre ++ [v])) by (rewrite length_app; simpl; lia).
      rewrite E. apply IH.
      * rewrite length_app. simpl. lia.
      * rewrite <- E. rewrite app_nth2 by lia. rewrite Nat.sub_diag. reflexivity.
      * apply Forall_app. split.
        -- eapply Forall_impl; [exact Hpre|]. intros a Ha. simpl in Ha.
           apply Qle_trans with best_value; [exact Ha | apply Qlt_le_weak; exact Hlt].
        -- constructor; [apply Qle_refl | constructor].
Qed.

(** [argmax] is the index of a greatest element. *)
Lemma argmax_spec (l : list Q) :
  l <> [] ->
  (argmax l < length l)%nat /\ Forall (fun v => v <= nth (argmax l) l 0) l.
Proof.
  destruct l as [|v l]; [contradiction|]. intros _. unfold argmax.
  apply (argmax_from_spec l [v] 0%nat v); simpl.
  - lia.
  - reflexivity.
  - constructor; [apply Qle_refl | constructor].
Qed.

Lemma argmax_unique (l : list Q) (m : nat) : unique_max l m -> argmax l = m.
Proof.
  intros [Hm Hu].
  assert (Hl : l <> []) by (intros ->; simpl in Hm; lia).
  destruct (argmax_spec l Hl) as [Ha Hall].
  destruct (Nat.eq_dec (argmax l) m) as [E|N]; [exact E|].
  exfalso. specialize (Hu _ Ha N).
  rewrite Forall_forall in Hall.
  assert (Hin : nth m l 0 ∈ l) by (apply list_elem_of_In, nth_In; exact Hm).
  specialize (Hall _ Hin). simpl in Hall.
  apply (Qlt_not_le _ _ Hu). exact Hall.
Qed.

End Argmax.

Section GreedyDecoding.
Import Sorting Decoders DecoderReference.
Local Open Scope Q_scope.

Variable decoder : list nat -> list Q.
Variable BOS_TOKEN_ID EOS_TOKEN_ID : nat.
Hypothesis decoder_nonempty : forall sequence, decoder sequence <> [].

Abbreviation greedy_loop := (greedy_loop decoder EOS_TOKEN_ID).

Lemma greedy_loop_spec (fuel : nat) : forall (sequence0 : list nat) (probs0 : list Q),
  exists tokens ps,
    greedy_loop fuel sequence0 probs0 = (sequence0 ++ tokens, probs0 ++ ps)
    /\ length ps = length tokens
    /\ (length tokens <= fuel)%nat
    /\ (forall k, (k < length tokens)%nat ->
          let next_token_probs := decoder (sequence0 ++ firstn k tokens) in
          nth k tokens 0%nat = argmax next_token_probs
          /\ (nth k tokens 0%nat < length next_token_probs)%nat
          /\ nth k ps 0 = nth (nth k tokens 0%nat) next_token_probs 0
          /\ Forall (fun p => p <= nth k ps 0) next_token_probs)
    /\ (forall k, (S k < length tokens)%nat -> nth k tokens 0%nat <> EOS_TOKEN_ID)
    /\ ((length tokens < fuel)%nat -> py_last tokens = Some EOS_TOKEN_ID).
Proof.
  induction fuel as [|fuel IH]; intros sequence0 probs0.
  - exists [], []. simpl. rewrite !app_nil_r.
    repeat split; try lia; intros k Hk; simpl in Hk; lia.
  - cbn [Decoders.greedy_loop].
    set (next_token_probs := decoder sequence0).
    set (t := argmax next_token_probs).
    set (p := nth t next_token_probs 0).
    destruct (argmax_spec next_token_probs (decoder_nonempty sequence0)) as [Ht Hmax].
    fold t in Ht, Hmax. fold p in Hmax.
    assert (Hstep : forall k : nat, (k < 1)%nat ->
              let probs_k := decoder (sequence0 ++ firstn k [t]) in
              nth k [t] 0%nat = argmax probs_k
              /\ (nth k [t] 0%nat < length probs_k)%nat
              /\ nth k [p] 0 = nth (nth k [t] 0%nat) probs_k 0
              /\ Forall (fun q => q <= nth k [p] 0) probs_k).
    { intros k Hk. assert (k = 0%nat) by lia. subst k. simpl. rewrite app_nil_r.
      fold next_token_probs. fold t. fold p. auto. }
    destruct (Nat.eqb_spec t EOS_TOKEN_ID) as [Heos|Hne].
    + exists [t], [p]. split; [reflexivity|]. split; [reflexivity|].
      split; [simpl; lia|]. split; [exact Hstep|]. split.
      * intros k Hk. simpl in Hk. lia.
      * intros _. simpl. rewrite Heos. reflexivity.
    + destruct (IH (sequence0 ++ [t]) (probs0 ++ [p]))
        as (tokens & ps & E & Hlen & Hle & Hk & Hnoeos & Hlast).
      exists (t :: tokens), (p :: ps). rewrite E, <- !app_assoc. simpl app.
      split; [reflexivity|]. split; [simpl; lia|]. split; [simpl; lia|].
      split; [|split].
      * intros [|k] Hlt; [apply (Hstep 0%nat); lia|].
        simpl in Hlt. specialize (Hk k ltac:(lia)).
        cbn [nth firstn]. rewrite <- app_assoc in Hk. exact Hk.
      * intros [|k] Hlt; [exact Hne|]. simpl in Hlt. cbn [nth].
        apply Hnoeos. lia.
      * intros Hlt. simpl in Hlt. specialize (Hlast ltac:(lia)).
        destruct tokens as [|u tokens]; [discriminate|]. exact Hlast.
Qed.

(** X19. Greedy decoding returns the start token followed by at most
    [max_length] tokens and one probability per token. Each token is the
    [argmax] of the distribution that the decoder gives after the tokens
    before it, and its probability is the greatest of that distribution. The
    end token can only come last, and a sequence shorter than [max_length]
    ends with it. *)
Theorem greedy_decode_spec (max_length : nat) :
  exists tokens probs,
    greedy_decode decoder BOS_TOKEN_ID EOS_TOKEN_ID max_length
    = (BOS_TOKEN_ID :: tokens, probs)
    /\ length probs = length tokens
    /\ (length tokens <= max_length)%nat
    /\ (forall k, (k < length tokens)%nat ->
          let next_token_probs := decoder (BOS_TOKEN_ID :: firstn k tokens) in
          nth k tokens 0%nat = argmax next_token_probs
          /\ (nth k tokens 0%nat < length next_token_probs)%nat
          /\ nth k probs 0 = nth (nth k tokens 0%nat) next_token_probs 0
          /\ Forall (fun p => p <= nth k probs 0) next_token_probs)
    /\ (forall k, (S k < length tokens)%nat -> nth k tokens 0%nat <> EOS_TOKEN_ID)
    /\ ((length tokens < max_length)%nat -> py_last tokens = Some EOS_TOKEN_ID).
Proof.
  unfold greedy_decode.
  destruct (greedy_loop_spec max_length [BOS_TOKEN_ID] [])
    as (tokens & ps & E & H).
  exists tokens, ps. split; [exact E | exact H].
Qed.

End GreedyDecoding.
Section BeamShape.
Import Sorting Decoders DecoderReference.
Local Open Scope Q_scope.

Variable decoder : list nat -> list Q.
Variable BOS_TOKEN_ID EOS_TOKEN_ID : nat.
Variable beam_width : nat.
Variable length_penalty : Q.

Abbreviation shape := (beam_shape BOS_TOKEN_ID EOS_TOKEN_ID).
Abbreviation expand := (expand decoder EOS_TOKEN_ID beam_width).
Abbreviation beam_step :=
  (beam_step_by decoder EOS_TOKEN_ID beam_width (key_leb length_penalty)).
Abbreviation beam_loop :=
  (beam_loop_by decoder EOS_TOKEN_ID beam_width (key_leb length_penalty)).

Lemma shape_mono (n n' : nat) (b : beam) : (n <= n')%nat -> shape n b -> shape n' b.
Proof. intros Hn (H1 & H2 & H3 & H4). repeat split; auto. lia. Qed.

Lemma py_last_app_one {A : Type} (l : list A) (x : A) : py_last (l ++ [x]) = Some x.
Proof.
  induction l as [|y l IH]; [reflexivity|].
  simpl. destruct (l ++ [x]) eqn:E; [destruct l; discriminate | exact IH].
Qed.

Lemma py_last_nth (l : list nat) (x : nat) :
  py_last l = Some x -> nth (length l - 1) l 0%nat = x.
Proof.
  induction l as [|y l IH]; [discriminate|].
  destruct l as [|z l]; simpl.
  - intros [= ->]. reflexivity.
  - intros H. specialize (IH H). simpl in IH. rewrite Nat.sub_0_r in IH. exact IH.
Qed.

Lemma expand_shape (n : nat) (b : beam) :
  shape n b -> Forall (shape (S n)) (expand b).
Proof.
  intros Hb. unfold Decoders.expand.
  destruct (finished EOS_TOKEN_ID b) eqn:Hf.
  - constructor; [|constructor]. apply (shape_mono n); [lia | exact Hb].
  - apply Forall_map. apply Forall_forall. intros t _.
    destruct Hb as ((tokens & Hs) & Hl & Hn & He).
    repeat split; cbn [sequence probs].
    + exists (tokens ++ [t]). rewrite Hs. reflexivity.
    + rewrite !length_app, Hl. simpl. lia.
    + rewrite length_app. simpl. lia.
    + intros i Hi. rewrite length_app in Hi. simpl in Hi.
      rewrite app_nth1 by lia.
      destruct (Nat.eq_dec (S i) (length (sequence b))) as [E|N].
      * unfold finished in Hf.
        destruct (py_last (sequence b)) as [x|] eqn:Hx.
        -- apply py_last_nth in Hx. replace (length (sequence b) - 1)%nat with i in Hx by lia.
           rewrite Hx. apply Nat.eqb_neq. exact Hf.
        -- rewrite Hs in Hx. destruct (py_last_nonempty (BOS_TOKEN_ID :: tokens)) as [x Hx'];
             [discriminate | congruence].
      * apply He. lia.
Qed.

Lemma beam_step_shape (n : nat) (beams : list beam) :
  Forall (shape n) beams -> Forall (shape (S n)) (beam_step beams).
Proof.
  intros H. unfold Decoders.beam_step_by.
  apply Forall_py_last_k, Forall_sort_by.
  apply Forall_flat_map. eapply Forall_impl; [exact H|].
  intros b Hb. apply expand_shape. exact Hb.
Qed.

Lemma py_last_k_length {A : Type} (k : nat) (l : list A) :
  (1 <= k)%nat -> (length (py_last_k k l) <= k)%nat.
Proof.
  intros Hk. destruct k as [|k]; [lia|]. unfold py_last_k.
  rewrite length_skipn. lia.
Qed.

Lemma beam_loop_shape (fuel : nat) : forall (n : nat) (beams : list beam),
  Forall (shape n) beams ->
  Forall (shape (n + fuel)) (beam_loop fuel beams).
Proof.
  induction fuel as [|fuel IH]; intros n beams H; cbn [Decoders.beam_loop_by].
  - rewrite Nat.add_0_r. exact H.
  - pose proof (beam_step_shape n beams H) as H'.
    destruct (forallb (finished EOS_TOKEN_ID) (beam_step beams)).
    + eapply Forall_impl; [exact H'|]. intros b. apply shape_mono. lia.
    + replace (n + S fuel)%nat with (S n + fuel)%nat by lia. apply IH. exact H'.
Qed.

Lemma beam_loop_count (fuel : nat) : forall beams : list beam,
  (1 <= beam_width)%nat -> (length beams <= beam_width)%nat ->
  (length (beam_loop fuel beams) <= beam_width)%nat.
Proof.
  induction fuel as [|fuel IH]; intros beams Hw H; cbn [Decoders.beam_loop_by]; [exact H|].
  assert (H' : (length (beam_step beams) <= beam_width)%nat).
  { unfold Decoders.beam_step_by. apply py_last_k_length. exact Hw. }
  destruct (forallb (finished EOS_TOKEN_ID) (beam_step beams)); [exact H'|].
  apply IH; assumption.
Qed.

(** X20. With a beam width of at least 1 and whatever the length penalty,
    beam search never holds more than [beam_width] beams. Each beam it holds at the end is the start token
    followed by at most [max_length] tokens, with one probability per token,
    and the end token occurs in it at the last place only. *)
Theorem final_beams_shape (max_length : nat) :
  (1 <= beam_width)%nat ->
  let beams :=
    final_beams decoder BOS_TOKEN_ID EOS_TOKEN_ID beam_width length_penalty max_length in
  (length beams <= beam_width)%nat
  /\ Forall (fun b =>
               (exists tokens,
                  sequence b = BOS_TOKEN_ID :: tokens
                  /\ length (probs b) = length tokens
                  /\ (length tokens <= max_length)%nat)
               /\ eos_only_last EOS_TOKEN_ID (sequence b)) beams.
Proof.
  intros Hw beams. subst beams. unfold final_beams, final_beams_by.
  set (start := {| sequence := [BOS_TOKEN_ID]; weight := 1; probs := [] |}).
  split.
  - apply beam_loop_count; [exact Hw | simpl; lia].
  - assert (H0 : Forall (shape 0) [start]).
    { constructor; [|constructor]. repeat split; simpl; try lia.
      - exists []. reflexivity.
      - intros i Hi. simpl in Hi. lia. }
    pose proof (beam_loop_shape max_length 0 [start] H0) as H. simpl in H.
    eapply Forall_impl; [exact H|]. intros b ((tokens & Hs) & Hl & Hn & He).
    split; [|exact He]. exists tokens. split; [exact Hs|].
    rewrite Hs in Hl. simpl in Hl. split; lia.
Qed.

End BeamShape.
Section BeamWidthOne.
Import Sorting Decoders DecoderReference.
Local Open Scope Q_scope.

Variable decoder : list nat -> list Q.
Variable BOS_TOKEN_ID EOS_TOKEN_ID : nat.
Variable length_penalty : Q.

(** The decoder never gives two greatest probabilities. *)
Hypothesis decoder_unique_max : forall sequence, exists m, unique_max (decoder sequence) m.
Hypothesis BOS_is_not_EOS : BOS_TOKEN_ID <> EOS_TOKEN_ID.

Lemma py_last_k_one {A : Type} (l : list A) (x : A) :
  py_last l = Some x -> py_last_k 1 l = [x].
Proof.
  unfold py_last_k. induction l as [|y l IH]; [discriminate|].
  destruct l as [|z l].
  - intros [= ->]. reflexivity.
  - intros H. specialize (IH H). cbn [length] in *.
    replace (S (S (length l)) - 1)%nat with (S (S (length l) - 1)) by lia.
    cbn [skipn]. exact IH.
Qed.

Lemma argsort_last (l : list Q) (m : nat) :
  unique_max l m -> py_last (argsort l) = Some m.
Proof.
  intros [Hm Hu]. unfold argsort.
  set (leb := fun i j : nat => Qle_bool (nth i l 0) (nth j l 0)).
  assert (Hne : sort_by leb (seq 0 (length l)) <> []).
  { apply sort_by_nonempty. destruct l; [simpl in Hm; lia | discriminate]. }
  destruct (py_last_nonempty _ Hne) as [x Hx]. rewrite Hx. f_equal.
  assert (Hsorted : sorted_by leb (sort_by leb (seq 0 (length l)))).
  { apply (sort_by_sorted leb (fun _ => True)).
    - intros a b _ _. unfold leb.
      destruct (Qlt_le_dec (nth b l 0) (nth a l 0)) as [H|H].
      + right. apply Qle_bool_iff, Qlt_le_weak, H.
      + left. apply Qle_bool_iff, H.
    - intros a b c _ _ _ H1 H2. unfold leb in *.
      apply Qle_bool_iff in H1, H2. apply Qle_bool_iff.
      apply Qle_trans with (nth b l 0); assumption.
    - apply Forall_forall. auto. }
  assert (Hin_m : In m (sort_by leb (seq 0 (length l)))).
  { apply sort_by_In, in_seq. lia. }
  assert (Hin_x : In x (seq 0 (length l))).
  { apply (sort_by_In leb). apply py_last_In. exact Hx. }
  apply in_seq in Hin_x.
  pose proof (sorted_by_last_max leb (fun _ => True)
                (fun a b _ _ =>
                   match Qlt_le_dec (nth b l 0) (nth a l 0) with
                   | left H => or_intror (proj2 (Qle_bool_iff _ _) (Qlt_le_weak _ _ H))
                   | right H => or_introl (proj2 (Qle_bool_iff _ _) H)
                   end)
                _ x (proj2 (Forall_forall _ _) (fun _ _ => I)) Hsorted Hx m Hin_m) as Hmax.
  unfold leb in Hmax. apply Qle_bool_iff in Hmax.
  destruct (Nat.eq_dec x m) as [E|N]; [exact E|].
  exfalso. apply (Qlt_not_le _ _ (Hu x ltac:(lia) N)). exact Hmax.
Qed.

Abbreviation beam_step := (beam_step_by decoder EOS_TOKEN_ID 1 (key_leb length_penalty)).
Abbreviation beam_loop := (beam_loop_by decoder EOS_TOKEN_ID 1 (key_leb length_penalty)).

(** One round on a single open beam appends the token of the greedy
    decoder. *)
Lemma beam_step_single (b : beam) :
  finished EOS_TOKEN_ID b = false ->
  let next_token_probs := decoder (sequence b) in
  let next_token_id := argmax next_token_probs in
  beam_step [b]
  = [{| sequence := sequence b ++ [next_token_id];
        weight := weight b * nth next_token_id next_token_probs 0;
        probs := probs b ++ [nth next_token_id next_token_probs 0] |}].
Proof.
  intros Hf probs_ t. unfold Decoders.beam_step_by. cbn [flat_map].
  rewrite app_nil_r. unfold expand. rewrite Hf.
  destruct (decoder_unique_max (sequence b)) as [m Hm].
  fold probs_ in Hm. fold probs_.
  rewrite (py_last_k_one _ _ (argsort_last probs_ m Hm)).
  subst t. rewrite (argmax_unique probs_ m Hm). reflexivity.
Qed.

Lemma beam_loop_single (fuel : nat) : forall b : beam,
  finished EOS_TOKEN_ID b = false ->
  exists b',
    beam_loop fuel [b] = [b']
    /\ (sequence b', probs b')
       = greedy_loop decoder EOS_TOKEN_ID fuel (sequence b) (probs b).
Proof.
  induction fuel as [|fuel IH]; intros b Hf.
  - exists b. split; reflexivity.
  - cbn [Decoders.beam_loop_by Decoders.greedy_loop].
    rewrite (beam_step_single b Hf).
    set (t := argmax (decoder (sequence b))).
    set (b1 := {| sequence := sequence b ++ [t];
                  weight := weight b * nth t (decoder (sequence b)) 0;
                  probs := probs b ++ [nth t (decoder (sequence b)) 0] |}).
    assert (Hf1 : finished EOS_TOKEN_ID b1 = (t =? EOS_TOKEN_ID)%nat).
    { unfold finished. subst b1. cbn [sequence]. rewrite py_last_app_one. reflexivity. }
    cbn [forallb]. rewrite Hf1, andb_true_r.
    destruct (t =? EOS_TOKEN_ID)%nat eqn:Et.
    + exists b1. split; reflexivity.
    + destruct (IH b1 Hf1) as (b' & H1 & H2).
      exists b'. split; [exact H1 | exact H2].
Qed.

(** X21. When the decoder never gives two greatest probabilities and the
    start token is not the end token, beam search of width 1 returns what
    greedy decoding returns, whatever the length penalty. *)
Theorem beam_search_width_one_is_greedy (max_length : nat) :
  beam_search_decode decoder BOS_TOKEN_ID EOS_TOKEN_ID 1 length_penalty max_length
  = Some (greedy_decode decoder BOS_TOKEN_ID EOS_TOKEN_ID max_length).
Proof.
  unfold beam_search_decode, beam_search_decode_by, final_beams_by, greedy_decode.
  set (start := {| sequence := [BOS_TOKEN_ID]; weight := 1; probs := [] |}).
  assert (Hf : finished EOS_TOKEN_ID start = false).
  { unfold finished. simpl. apply Nat.eqb_neq. exact BOS_is_not_EOS. }
  destruct (beam_loop_single max_length start Hf) as (b' & H1 & H2).
  rewrite H1. cbn [py_last]. rewrite H2. reflexivity.
Qed.

End BeamWidthOne.

(** * The rows of an Excel sheet *)

Section ExcelRows.
Import Text JS JSString CsvParser ExcelParser.

Lemma text_eqb_eq (a b : text) : text_eqb a b = true -> a = b.
Proof.
  unfold text_eqb. intros H. apply andb_true_iff in H as [Hl Hs].
  apply Nat.eqb_eq in Hl. revert b Hl Hs.
  induction a as [|x a IH]; intros [|y b] Hl Hs; try discriminate; [reflexivity|].
  simpl in Hs. apply andb_true_iff in Hs as [Hx Hs]. apply N.eqb_eq in Hx. subst y.
  f_equal. apply IH; [simpl in Hl; lia | exact Hs].
Qed.

Lemma plain_cell_value (cell : option text) :
  plain_cell cell = true ->
  (if truthy cell then trim (String_of cell) else []) = match cell with
                                                        | Some s => s
                                                        | None => []
                                                        end
  /\ (truthy cell = true -> text_eqb (String_of cell) (utf8 "-") = false).
Proof.
  destruct cell as [[|c s]|]; simpl; intros H; auto.
  apply andb_true_iff in H as [H1 H2]. apply text_eqb_eq in H1.
  apply negb_true_iff in H2. simpl in H1. split; [exact H1 | intros _; exact H2].
Qed.

(** X22. On a row whose debit and credit cells are absent or have no white
    space around them and are not a lone dash, the extraction of the Excel
    parser is the extraction of the CSV parser. *)
Theorem extractTransactionFromExcelRow_agrees (row : Row) (rowNumber : nat) :
  plain_cell (row !! utf8 "debit") = true ->
  plain_cell (row !! utf8 "credit") = true ->
  extractTransactionFromExcelRow row rowNumber = extractTransactionFromRow row rowNumber.
Proof.
  intros Hd Hc. unfold extractTransactionFromExcelRow, extractTransactionFromRow.
  cbv zeta.
  destruct (plain_cell_value _ Hd) as [Vd Dd].
  destruct (plain_cell_value _ Hc) as [Vc Dc].
  destruct (negb (truthy (row !! utf8 "date")) && negb (truthy (row !! utf8 "description")));
    [reflexivity|].
  destruct (negb (truthy (row !! utf8 "date"))); [reflexivity|].
  destruct (negb (truthy (row !! utf8 "description"))); [reflexivity|].
  destruct (truthy (row !! utf8 "amount")); [reflexivity|].
  destruct (truthy (row !! utf8 "debit") || truthy (row !! utf8 "credit")); [|reflexivity].
  destruct (row !! utf8 "debit") as [[|d ds]|] eqn:Ed;
    destruct (row !! utf8 "credit") as [[|c cs]|] eqn:Ec;
    cbn [truthy String_of andb negb] in *;
    try (specialize (Dd eq_refl)); try (specialize (Dc eq_refl));
    rewrite ?Vd, ?Vc, ?Dd, ?Dc;
    cbn [truthy String_of andb negb text_eqb length Nat.eqb];
    rewrite ?andb_true_r, ?andb_false_r;
    try reflexivity.
  all: try (destruct (text_eqb (d :: ds) (utf8 "0")); cbn [andb negb]; try reflexivity).
  all: try (destruct (text_eqb (c :: cs) (utf8 "0")); cbn [andb negb]; reflexivity).
Qed.

End ExcelRows.

(** * The properties on sample inputs *)

Section ImportExamples.
Import Text JS JSString HashReference ImportSamples.

Lemma generateHash_collision_witness :
  forallb is_ascii (utf8 "POS ") = true /\ forallb is_ascii (utf8 " 17") = true
  /\ plain_char 97 = true /\ plain_char 122 = true
  /\ plain_char 98 = true /\ plain_char 91 = true
  /\ (31 * 97 + 122 = 31 * 98 + 91)%N
  /\ Normalization.generateHash plain_host_case no_large_number (Some 1705276800000)
       (utf8 "POS " ++ [97; 122] ++ utf8 " 17")%N (Num (-500))
     = Normalization.generateHash plain_host_case no_large_number (Some 1705276800000)
         (utf8 "POS " ++ [98; 91] ++ utf8 " 17")%N (Num (-500)).
Proof.
  repeat (split; [reflexivity|]).
  apply (generateHash_collision plain_host_case no_large_number); reflexivity.
Defined.

Lemma generateHash_clean_description_witness :
  forallb is_ascii (utf8 "  ATM   Withdrawal ") = true
  /\ Normalization.generateHash plain_host_case no_large_number (Some 1705276800000)
       (trim (collapse_spaces (toLowerCase plain_host_case (utf8 "  ATM   Withdrawal "))))
       (Num (-2000))
     = Normalization.generateHash plain_host_case no_large_number (Some 1705276800000)
         (utf8 "  ATM   Withdrawal ") (Num (-2000)).
Proof.
  split; [reflexivity|].
  apply (generateHash_clean_description plain_host_case no_large_number). reflexivity.
Defined.

Lemma csv_row_type_witness :
  exists raw t,
    CsvParser.extractTransactionFromRow parenthesized_row 2 = Ok (Some raw)
    /\ Normalization.normalizeTransaction rejecting_Date_of_string plain_host_case
         plain_host_case no_large_number raw = Ok t
    /\ Normalization.amount t = Num 500.00
    /\ Normalization.type t = Normalizer.CREDIT.
Proof.
  eexists. eexists.
  assert (He : CsvParser.extractTransactionFromRow parenthesized_row 2
               = Ok (Some {| CsvParser.date := utf8 "15/01/2024";
                             CsvParser.description := utf8 "POS  Purchase";
                             CsvParser.amount := utf8 "(500.00)";
                             CsvParser.type := Some (utf8 "CREDIT");
                             CsvParser.balance := None |}))
    by (vm_compute; reflexivity).
  split; [exact He|].
  assert (Hn : Normalization.normalizeTransaction rejecting_Date_of_string plain_host_case
                 plain_host_case no_large_number
                 {| CsvParser.date := utf8 "15/01/2024";
                    CsvParser.description := utf8 "POS  Purchase";
                    CsvParser.amount := utf8 "(500.00)";
                    CsvParser.type := Some (utf8 "CREDIT");
                    CsvParser.balance := None |}
               = Ok {| Normalization.date := 1705276800000;
                       Normalization.description := utf8 "POS  Purchase";
                       Normalization.amount := Num 500.00;
                       Normalization.type := Normalizer.CREDIT;
                       Normalization.balance := None;
                       Normalization.hash := "siwk34" |})
    by (vm_compute; reflexivity).
  split; [exact Hn|]. split; [reflexivity|].
  exact (csv_row_type rejecting_Date_of_string plain_host_case plain_host_case
           no_large_number parenthesized_row 2 _ _ He Hn).
Defined.

Lemma import_rows_spec_witness :
  NoDup (ImportFile.stored_hashes [] "business-1")
  /\ let result := Normalization.normalizeTransactions rejecting_Date_of_string
                     plain_host_case plain_host_case no_large_number sample_rows in
     let deduplicated :=
       Normalization.deduplicateTransactions (Normalization.normalized result) in
     let table' := ImportFile.saveTransactions [] "business-1" "import-1"
                     (fst deduplicated) in
     NoDup (ImportFile.stored_hashes table' "business-1")
     /\ (length (fst deduplicated) + snd deduplicated
         + length (Normalization.errors result) = length sample_rows)%nat.
Proof.
  assert (H : NoDup (ImportFile.stored_hashes [] "business-1")) by constructor.
  split; [exact H|].
  destruct (import_rows_spec rejecting_Date_of_string plain_host_case plain_host_case
              no_large_number [] "business-1" "import-1" sample_rows H)
    as (H1 & H2 & _).
  split; [exact H1 | exact H2].
Defined.

Lemma extractTransactionFromExcelRow_agrees_witness :
  ExcelParser.plain_cell (debit_row !! utf8 "debit") = true
  /\ ExcelParser.plain_cell (debit_row !! utf8 "credit") = true
  /\ ExcelParser.extractTransactionFromExcelRow debit_row 2
     = CsvParser.extractTransactionFromRow debit_row 2.
Proof.
  assert (Hd : ExcelParser.plain_cell (debit_row !! utf8 "debit") = true)
    by (vm_compute; reflexivity).
  assert (Hc : ExcelParser.plain_cell (debit_row !! utf8 "credit") = true)
    by (vm_compute; reflexivity).
  split; [exact Hd|]. split; [exact Hc|].
  exact (extractTransactionFromExcelRow_agrees debit_row 2 Hd Hc).
Defined.

End ImportExamples.

Section SdkExamples.
Import Schema Validators Confidence Documents Samples ImportSamples.
Import Sorting Decoders DecoderReference.
Local Open Scope Q_scope.

Lemma summary_statistics_exact_balances_witness :
  let doc := LedgerDocument_init None (Some three_rows) in
  Documents.transactions doc
  = entry 19723 "Opening Balance" 0 0 50000
    :: [entry 19724 "Salary Credit" 0 10000 60000;
        entry 19725 "ATM Withdrawal" 2000 0 58000]
  /\ exact_balances (Documents.transactions doc)
  /\ exists opening closing,
       opening_balance (summary_statistics doc) = Some opening
       /\ closing_balance (summary_statistics doc) = Some closing
       /\ closing == opening + net_cashflow (summary_statistics doc) - (0 - 0).
Proof.
  intros doc.
  assert (E : Documents.transactions doc
              = entry 19723 "Opening Balance" 0 0 50000
                :: [entry 19724 "Salary Credit" 0 10000 60000;
                    entry 19725 "ATM Withdrawal" 2000 0 58000]) by reflexivity.
  assert (H : exact_balances (Documents.transactions doc)).
  { simpl. repeat split; reflexivity. }
  split; [exact E|]. split; [exact H|].
  destruct (summary_statistics_exact_balances doc _ _ E H)
    as (opening & closing & H1 & H2 & H3 & _).
  exists opening, closing. split; [exact H1|]. split; [exact H2 | exact H3].
Defined.

Lemma crop_bounds_in_image_witness :
  (0 <= 640)%Z /\ (0 <= 480)%Z
  /\ Geometry.crop_bounds 640 480 600 10 30 20 15 = (585, 0, 640, 45)%Z
  /\ (0 <= 585 /\ 0 <= 0 /\ 640 <= 640 /\ 45 <= 480)%Z.
Proof.
  assert (HW : (0 <= 640)%Z) by lia. assert (HH : (0 <= 480)%Z) by lia.
  split; [exact HW|]. split; [exact HH|]. split; [reflexivity|].
  exact (proj1 (crop_bounds_in_image 640 480 600 10 30 20 15 HW HH)).
Defined.

Lemma compute_document_confidence_range_witness :
  Forall (fun b => 0 <= box_confidence b /\ box_confidence b <= 1) [box 0.9]
  /\ Forall (fun r => 0 <= rec_confidence r /\ rec_confidence r <= 1) [recognized 0.8]
  /\ compute_document_confidence [box 0.9] [recognized 0.8] [] clean_report
     = Some (0.2 * (Qsum [0.9] / inject_Z 1) + 0.4 * (Qsum [0.8] / inject_Z 1) + 0.4 * 1.0)
  /\ 0.4 <= 0.2 * (Qsum [0.9] / inject_Z 1) + 0.4 * (Qsum [0.8] / inject_Z 1) + 0.4 * 1.0
  /\ 0.2 * (Qsum [0.9] / inject_Z 1) + 0.4 * (Qsum [0.8] / inject_Z 1) + 0.4 * 1.0 <= 1.
Proof.
  assert (Hd : Forall (fun b => 0 <= box_confidence b /\ box_confidence b <= 1) [box 0.9]).
  { constructor; [split; discriminate | constructor]. }
  assert (Hr : Forall (fun r => 0 <= rec_confidence r /\ rec_confidence r <= 1)
                      [recognized 0.8]).
  { constructor; [split; discriminate | constructor]. }
  split; [exact Hd|]. split; [exact Hr|]. split; [reflexivity|].
  exact (compute_document_confidence_range [box 0.9] [recognized 0.8] [] clean_report _
           Hd Hr eq_refl).
Defined.

Lemma tesseract_confidence_range_witness :
  Forall (fun c => c == -1 \/ (0 <= c /\ c <= 100)) (Tesseract.data_conf sample_words)
  /\ text (Tesseract.recognize sample_words) = " Salary Credit"%string
  /\ 0 <= rec_confidence (Tesseract.recognize sample_words)
  /\ rec_confidence (Tesseract.recognize sample_words) <= 1.
Proof.
  assert (H : Forall (fun c => c == -1 \/ (0 <= c /\ c <= 100))
                     (Tesseract.data_conf sample_words)).
  { constructor; [left; reflexivity|].
    constructor; [right; split; discriminate|].
    constructor; [right; split; discriminate | constructor]. }
  split; [exact H|].
  destruct (tesseract_confidence_range sample_words H) as (H1 & [H2 H3] & _).
  split; [exact H1|]. split; [exact H2 | exact H3].
Defined.

Lemma two_readings_decoder_nonempty (sequence : list nat) :
  two_readings_decoder sequence <> [].
Proof. destruct sequence as [|t [|u s]]; discriminate. Qed.

Lemma greedy_decode_spec_witness :
  (forall sequence, two_readings_decoder sequence <> [])
  /\ exists tokens probs,
       greedy_decode two_readings_decoder 0 2 10 = (0%nat :: tokens, probs)
       /\ length probs = length tokens
       /\ (length tokens <= 10)%nat.
Proof.
  split; [exact two_readings_decoder_nonempty|].
  destruct (greedy_decode_spec two_readings_decoder 0 2 two_readings_decoder_nonempty 10)
    as (tokens & probs & H1 & H2 & H3 & _).
  exists tokens, probs. split; [exact H1|]. split; [exact H2 | exact H3].
Defined.

Lemma final_beams_shape_witness :
  (1 <= 3)%nat
  /\ (length (final_beams two_readings_decoder 0 2 3 0.8%Q 10) <= 3)%nat.
Proof.
  assert (H : (1 <= 3)%nat) by lia. split; [exact H|].
  exact (proj1 (final_beams_shape two_readings_decoder 0 2 3 0.8%Q 10 H)).
Defined.

Lemma two_readings_decoder_unique_max (sequence : list nat) :
  exists m, unique_max (two_readings_decoder sequence) m.
Proof.
  assert (H3 : unique_max [0.005; 0.015; 0.45; 0.50; 0.03] 3).
  { split; [simpl; lia|]. intros j Hj Hne. simpl in Hj.
    do 5 (destruct j as [|j]; [try reflexivity; try (contradiction Hne; reflexivity)|]).
    lia. }
  assert (H2 : unique_max [0.005; 0.015; 0.50; 0.30; 0.18] 2).
  { split; [simpl; lia|]. intros j Hj Hne. simpl in Hj.
    do 5 (destruct j as [|j]; [try reflexivity; try (contradiction Hne; reflexivity)|]).
    lia. }
  destruct sequence as [|t [|u s]]; [exists 2%nat | exists 3%nat | exists 2%nat]; assumption.
Qed.

Lemma beam_search_width_one_is_greedy_witness :
  (forall sequence, exists m, unique_max (two_readings_decoder sequence) m)
  /\ 0%nat <> 2%nat
  /\ beam_search_decode two_readings_decoder 0 2 1 0.8%Q 10
     = Some (greedy_decode two_readings_decoder 0 2 10).
Proof.
  assert (H : 0%nat <> 2%nat) by discriminate.
  split; [exact two_readings_decoder_unique_max|]. split; [exact H|].
  exact (beam_search_width_one_is_greedy two_readings_decoder 0 2 0.8%Q
           two_readings_decoder_unique_max H 10).
Defined.

End SdkExamples.
